(** * SceneGraphModification: the graph-edit model of [code/models.py]

    A shallow embedding of the pure parts of [models.py] (the pair index
    tables of [Decoder.forward], [get_attention_mask], [Attention.forward],
    the weight-tied projections of [Decoder], [GraphTrans.compute_loss],
    the adjacency indicator of [GraphTrans.encoder], [sequence_mask] and
    the building blocks [LayerNorm], [attention] and [PositionalEncoding])
    together with the properties the specification states about them and
    further properties of the same code.

    Conventions.
    - Python integers are [Z]; tensor sizes and the indices produced by
      [torch.where] are [nat].
    - A Python exception is [None] in the [option] monad.
    - A tensor is its shape and its entries, indexed by position.
    - A tensor scalar is a real number or NaN ([Fl.fl]); rounding and
      overflow are not modelled.  The library modules the file only
      calls ([nn.GRU], [nn.Dropout]) and the initial parameter values
      are the fields of the class [Dec.Torch]. *)

From Stdlib Require Import List ZArith Lia Bool Arith PeanoNat.
From Stdlib Require Import Reals Lra.
Import ListNotations.

Set Implicit Arguments.

(** ** Python exceptions as [option] *)

Definition bind {A B : Type} (m : option A) (k : A -> option B) : option B :=
  match m with
  | Some a => k a
  | None => None
  end.

Notation "x <- m ;; k" := (bind m (fun x => k))
  (at level 61, m at next level, right associativity).

(** ** Python built-ins used by the source *)

Module Py.

Local Open Scope Z_scope.

(** [range(a, b)]: the integers [a <= k < b], empty when [b <= a]. *)
Definition range (a b : Z) : list Z :=
  map (fun k => a + Z.of_nat k) (seq 0 (Z.to_nat (b - a))).

(** [functools.reduce(f, l)] without initial value: [TypeError] on an
    empty sequence, a left fold seeded by the first element otherwise. *)
Definition reduce {A : Type} (f : A -> A -> A) (l : list A) : option A :=
  match l with
  | [] => None
  | x :: xs => Some (fold_left f xs x)
  end.

(** [l[-1]]: [IndexError] on an empty list. *)
Fixpoint last_item {A : Type} (l : list A) : option A :=
  match l with
  | [] => None
  | [x] => Some x
  | _ :: l' => last_item l'
  end.

(** Truth value of a list: non-empty. *)
Definition truthy {A : Type} (l : list A) : bool :=
  match l with
  | [] => false
  | _ :: _ => true
  end.

(** Bound of a slice [a:b] on a dimension of size [len], as
    [slice.indices] computes it for step 1: a negative bound counts from
    the end, and the result is clamped to [0, len]. *)
Definition slice_bound (len : nat) (k : Z) : Z :=
  if k <? 0 then Z.max 0 (k + Z.of_nat len) else Z.min k (Z.of_nat len).

(** Whether position [i] of a dimension of size [len] is selected by the
    slice [start:stop]. *)
Definition in_slice (len : nat) (start stop : Z) (i : nat) : bool :=
  (slice_bound len start <=? Z.of_nat i) && (Z.of_nat i <? slice_bound len stop).

End Py.

(** ** Pair Index Builder ([Decoder.forward], lines 505-516) *)

Module PairIndex.

Import Py.
Local Open Scope Z_scope.

(** [[[i for _ in range(i)] for i in range(1, node_size-1)]] *)
Definition src_rows (node_size : Z) : list (list Z) :=
  map (fun i => map (fun _ => i) (range 0 i)) (range 1 (node_size - 1)).

(** [[[j for j in range(i)] for i in range(1, node_size-1)]] *)
Definition tgt_rows (node_size : Z) : list (list Z) :=
  map (fun i => map (fun j => j) (range 0 i)) (range 1 (node_size - 1)).

(** Line 507-508: the list that becomes the tensor [src_nodes_indices]. *)
Definition src_nodes_indices (node_size : Z) : option (list Z) :=
  l <- (if 2 <? node_size
        then reduce (fun x y => x ++ y) (src_rows node_size)
        else Some []) ;;
  if truthy l
  then (e <- last_item l ;; Some (l ++ [e + 1]))
  else Some [0].

(** Line 513-514.  [src] is the finished source table: by line 509 the
    name [src_nodes_indices] is already bound to it when line 514 reads
    [src_nodes_indices[-1]]. *)
Definition tgt_nodes_indices (node_size : Z) (src : list Z) : option (list Z) :=
  l <- (if 2 <? node_size
        then reduce (fun x y => x ++ y) (tgt_rows node_size)
        else Some []) ;;
  if truthy l
  then (e <- last_item src ;; Some (l ++ [e]))
  else Some [0].

(** The two parallel tables for a node sequence of length [node_size]. *)
Definition pair_indices (node_size : Z) : option (list Z * list Z) :=
  src <- src_nodes_indices node_size ;;
  tgt <- tgt_nodes_indices node_size src ;;
  Some (src, tgt).

(** The specification's enumeration: source [i] from 1 to [n-2] and, for
    each [i], target [j] from 0 to [i-1]. *)
Definition lower_pairs (n : Z) : list (Z * Z) :=
  flat_map (fun i => map (fun j => (i, j)) (range 0 i)) (range 1 (n - 1)).

(** Binomial coefficient C(k, 2). *)
Definition choose2 (k : Z) : Z := k * (k - 1) / 2.

(** The tables the code builds for [n > 2]: the enumeration followed by
    the pair appended on lines 508 and 514. *)
Definition tables (n : Z) : list (Z * Z) := lower_pairs n ++ [(n - 1, n - 1)].

End PairIndex.

(** ** Dense tensors *)

Module Tensor.

(** A rank-2 tensor: its shape and its entries.  Entries outside the
    shape are never read: [get2] raises [IndexError] there. *)
Record t2 (A : Type) : Type := mk2 {
  rows : nat;
  cols : nat;
  at2 : nat -> nat -> A
}.

(** A rank-3 tensor. *)
Record t3 (A : Type) : Type := mk3 {
  dim0 : nat;
  dim1 : nat;
  dim2 : nat;
  at3 : nat -> nat -> nat -> A
}.

Definition get2 {A : Type} (t : t2 A) (i j : nat) : option A :=
  if (i <? rows t) && (j <? cols t) then Some (at2 t i j) else None.

Definition get3 {A : Type} (t : t3 A) (b i j : nat) : option A :=
  if (b <? dim0 t) && (i <? dim1 t) && (j <? dim2 t)
  then Some (at3 t b i j) else None.

(** Tensors written as nested lists (rectangular, the first row gives
    the width). *)
Definition width {A : Type} (l : list (list A)) : nat :=
  match l with
  | [] => 0
  | r :: _ => length r
  end.

Definition of_list2 {A : Type} (d : A) (l : list (list A)) : t2 A :=
  mk2 (length l) (width l) (fun i j => nth j (nth i l []) d).

Definition of_list3 {A : Type} (d : A) (l : list (list (list A))) : t3 A :=
  mk3 (length l) (width l) (width (nth 0 l []))
      (fun b i j => nth j (nth i (nth b l []) []) d).

(** [torch.zeros(b, n, m)] converted to the boolean dtype. *)
Definition zeros3 (b n m : nat) : t3 bool := mk3 b n m (fun _ _ _ => false).

(** Indexed assignment [t[sel] = v]: every entry selected by the index
    expression receives [v], the others keep their value. *)
Definition assign3 {A : Type} (sel : nat -> nat -> nat -> bool) (v : A)
    (t : t3 A) : t3 A :=
  mk3 (dim0 t) (dim1 t) (dim2 t)
      (fun b i j => if sel b i j then v else at3 t b i j).

(** Elementwise map, as in [input_ids == 0]. *)
Definition map2 {A B : Type} (f : A -> B) (t : t2 A) : t2 B :=
  mk2 (rows t) (cols t) (fun i j => f (at2 t i j)).

(** All index tuples of a shape, in row-major order. *)
Definition indices2 (n m : nat) : list (nat * nat) :=
  flat_map (fun i => map (fun j => (i, j)) (seq 0 m)) (seq 0 n).

Definition indices3 (b n m : nat) : list (nat * nat * nat) :=
  flat_map (fun k => map (fun ij => (k, fst ij, snd ij)) (indices2 n m)) (seq 0 b).

(** [torch.where(t)], zipped: the index tuples of the true entries, in
    row-major order. *)
Definition where2 (t : t2 bool) : list (nat * nat) :=
  filter (fun ij => at2 t (fst ij) (snd ij)) (indices2 (rows t) (cols t)).

Definition where3 (t : t3 bool) : list (nat * nat * nat) :=
  filter (fun buv => at3 t (fst (fst buv)) (snd (fst buv)) (snd buv))
         (indices3 (dim0 t) (dim1 t) (dim2 t)).

End Tensor.

(** A loop whose body may raise. *)
Fixpoint foldM {S X : Type} (f : S -> X -> option S) (l : list X) (s : S)
    : option S :=
  match l with
  | [] => Some s
  | x :: l' => s' <- f s x ;; foldM f l' s'
  end.

(** ** Structural Attention Mask Builder ([get_attention_mask]) *)

Module Mask.

Import Py Tensor.

(** The node-position table: per batch element, per node, the span
    [(start, end)] of the node's tokens (a Python list of lists of pairs). *)
Definition NodePos : Type := list (list (Z * Z)).

(** Lines 45-46, the body of the pad loop. *)
Definition pad_isolate (attention_mask : t3 bool) (bp : nat * nat) : t3 bool :=
  let idx_b := fst bp in
  let idx_pad := snd bp in
  let m := assign3 (fun b i _ => (b =? idx_b) && (i =? idx_pad)) false attention_mask in
  assign3 (fun b _ j => (b =? idx_b) && (j =? idx_pad)) false m.

(** Lines 49-60, the body of the adjacency loop.  [node_pos[idx_b]] and
    the integer index [attention_mask[idx_b, ...]] raise [IndexError]
    out of range; the two slices never raise. *)
Definition paint (text_len : nat) (node_pos : NodePos)
    (attention_mask : t3 bool) (buv : nat * nat * nat) : option (t3 bool) :=
  let idx_b := fst (fst buv) in
  let idx_u := snd (fst buv) in
  let idx_v := snd buv in
  node_pos_b <- nth_error node_pos idx_b ;;
  if (length node_pos_b <=? idx_u) || (length node_pos_b <=? idx_v)
  then Some attention_mask
  else
    su <- nth_error node_pos_b idx_u ;;
    sv <- nth_error node_pos_b idx_v ;;
    let start_u := (fst su + Z.of_nat text_len)%Z in
    let end_u := (snd su + Z.of_nat text_len)%Z in
    let start_v := (fst sv + Z.of_nat text_len)%Z in
    let end_v := (snd sv + Z.of_nat text_len)%Z in
    if idx_b <? dim0 attention_mask
    then Some (assign3
                 (fun b i j => (b =? idx_b)
                               && in_slice (dim1 attention_mask) start_u end_u i
                               && in_slice (dim2 attention_mask) start_v end_v j)
                 true attention_mask)
    else None.

Definition get_attention_mask (adj_masks : t3 bool) (node_pos : NodePos)
    (input_ids : t2 Z) (text_len : nat) : option (t3 bool) :=
  let bsz := rows input_ids in
  let seq_len := cols input_ids in
  let m0 := zeros3 bsz seq_len seq_len in
  let m1 := assign3 (fun _ i _ => in_slice seq_len 0 (Z.of_nat text_len) i) true m0 in
  let m2 := assign3 (fun _ _ j => in_slice seq_len 0 (Z.of_nat text_len) j) true m1 in
  let m3 := assign3 (fun _ i j => i =? j) true m2 in
  let pad_idcs := where2 (map2 (fun x => (x =? 0)%Z) input_ids) in
  let m4 := fold_left pad_isolate pad_idcs m3 in
  foldM (paint text_len node_pos) (where3 adj_masks) m4.

(** The adjacency indicator with the entry [(b, u, v)] unset. *)
Definition clear_entry (adj_masks : t3 bool) (b u v : nat) : t3 bool :=
  assign3 (fun b' u' v' => (b' =? b) && (u' =? u) && (v' =? v)) false adj_masks.

(** Whether position [i] lies in the span of node [u] of batch element
    [b], offset by [text_len], in a sequence of [seq_len] tokens. *)
Definition in_span (node_pos : NodePos) (text_len seq_len b u i : nat) : bool :=
  match nth_error node_pos b with
  | None => false
  | Some node_pos_b =>
      match nth_error node_pos_b u with
      | None => false
      | Some s => in_slice seq_len (fst s + Z.of_nat text_len)
                           (snd s + Z.of_nat text_len) i
      end
  end.

(** Whether the adjacency entry [buv] paints the entry [(b, i, j)] of a
    mask with [n1] rows and [n2] columns: the block of line 60. *)
Definition painted (node_pos : NodePos) (text_len n1 n2 : nat)
    (buv : nat * nat * nat) (b i j : nat) : bool :=
  (b =? fst (fst buv))
  && in_span node_pos text_len n1 (fst (fst buv)) (snd (fst buv)) i
  && in_span node_pos text_len n2 (fst (fst buv)) (snd buv) j.

(** Whether the pad index [bp] of line 44 clears the entry [(b, i, j)]:
    its row (line 45) or its column (line 46). *)
Definition hits (b i j : nat) (bp : nat * nat) : bool :=
  (b =? fst bp) && ((i =? snd bp) || (j =? snd bp)).

(** Sample inputs: one batch element, one text token (id 5) followed by
    graph tokens, one node with its forced self-loop. *)
Definition one_self_loop : t3 bool := of_list3 false [[[true]]].

(** Tokens 5, 7 and one trailing pad. *)
Definition ids_trailing_pad : t2 Z := of_list2 0%Z [[5; 7; 0]]%Z.

(** Tokens 5, 7, 8, no pad. *)
Definition ids_no_pad : t2 Z := of_list2 0%Z [[5; 7; 8]]%Z.

(** The node covers one graph token. *)
Definition span_one_token : NodePos := [[(0, 1)]]%Z.

(** The node covers two graph tokens. *)
Definition span_two_tokens : NodePos := [[(0, 2)]]%Z.

(** Two nodes marked adjacent everywhere, of which the position table
    knows only the first. *)
Definition two_nodes_adjacent : t3 bool :=
  of_list3 false [[[true; true]; [true; true]]].

(** Whether position [p] of batch element [b] holds the pad token. *)
Definition is_pad (input_ids : t2 Z) (b p : nat) : bool :=
  (at2 input_ids b p =? 0)%Z.

End Mask.

(** ** Tensor scalars *)

Module Fl.

Local Open Scope R_scope.

(** A floating-point value, idealised: a real number or NaN.  Rounding
    and overflow are not modelled. *)
Inductive fl : Type :=
| Num (x : R)
| NaN.

(** A pre-softmax score: a value, or the [-float('inf')] that
    [masked_fill_] writes. *)
Inductive xfl : Type :=
| XVal (a : fl)
| XNegInf.

Definition lift1 (f : R -> R) (a : fl) : fl :=
  match a with
  | Num x => Num (f x)
  | NaN => NaN
  end.

Definition lift2 (f : R -> R -> R) (a b : fl) : fl :=
  match a, b with
  | Num x, Num y => Num (f x y)
  | _, _ => NaN
  end.

Definition fadd : fl -> fl -> fl := lift2 Rplus.
Definition fsub : fl -> fl -> fl := lift2 Rminus.
Definition fmul : fl -> fl -> fl := lift2 Rmult.
Definition fdiv : fl -> fl -> fl := lift2 Rdiv.
Definition ftanh : fl -> fl := lift1 tanh.
Definition fexp : fl -> fl := lift1 exp.
Definition fln : fl -> fl := lift1 ln.

(** Sum of [f 0 ... f (n-1)]. *)
Fixpoint fsum (n : nat) (f : nat -> fl) : fl :=
  match n with
  | O => Num 0
  | S k => fadd (fsum k f) (f k)
  end.

Fixpoint rsum (n : nat) (f : nat -> R) : R :=
  match n with
  | O => 0
  | S k => rsum k f + f k
  end.

Definition is_nan (s : xfl) : bool :=
  match s with
  | XVal NaN => true
  | _ => false
  end.

Definition is_neginf (s : xfl) : bool :=
  match s with
  | XNegInf => true
  | _ => false
  end.

(** [exp] of a score, with [exp(-inf) = 0]. *)
Definition xexp (s : xfl) : R :=
  match s with
  | XVal (Num x) => exp x
  | XVal NaN => 0
  | XNegInf => 0
  end.

(** [F.softmax] of a row of [n] scores, at position [s].  A NaN score
    makes every weight of the row NaN; so does a row that is all [-inf],
    whose normaliser is [0/0] in IEEE arithmetic.  Otherwise the weight
    is [exp(score) / sum of exp(scores)]. *)
Definition softmax_row (n : nat) (row : nat -> xfl) (s : nat) : fl :=
  if existsb (fun k => is_nan (row k)) (seq 0 n)
     || forallb (fun k => is_neginf (row k)) (seq 0 n)
  then NaN
  else Num (xexp (row s) / rsum n (fun k => xexp (row k))).

End Fl.

(** ** Layers *)

Module NN.

Import Tensor Fl.

(** [nn.Linear(in_features, out_features, bias)]: [weight] has shape
    [(out_features, in_features)]. *)
Record Linear : Type := mkLinear {
  weight : t2 fl;
  bias : option (nat -> fl)
}.

(** [F.linear(x, w)], that is [x] times the transpose of [w], over the
    last dimension of [x]: a size mismatch raises. *)
Definition F_linear (x : t3 fl) (w : t2 fl) : option (t3 fl) :=
  if dim2 x =? cols w
  then Some (mk3 (dim0 x) (dim1 x) (rows w)
               (fun b t k => fsum (cols w) (fun d => fmul (at3 x b t d) (at2 w k d))))
  else None.

Definition add_bias (bias : option (nat -> fl)) (x : t3 fl) : t3 fl :=
  match bias with
  | None => x
  | Some c => mk3 (dim0 x) (dim1 x) (dim2 x)
                  (fun b t k => fadd (at3 x b t k) (c k))
  end.

Definition Linear_forward (l : Linear) (x : t3 fl) : option (t3 fl) :=
  y <- F_linear x (weight l) ;; Some (add_bias (bias l) y).

(** A projection that exists only when two widths differ (lines
    412-436): [None] is the absent module, which is falsy. *)
Definition optional_proj (p : option Linear) (x : t3 fl) : option (t3 fl) :=
  match p with
  | Some l => Linear_forward l x
  | None => Some x
  end.

(** [Embeddings] (lines 313-320): [lut] is [nn.Embedding(vocab, d_model)],
    whose weight has shape [(vocab, d_model)]. *)
Record Embeddings : Type := mkEmbeddings {
  lut_weight : t2 fl;
  d_model : nat
}.

(** All ids of a batch index into the table. *)
Definition ids_in_range (vocab : nat) (x : t2 Z) : bool :=
  forallb (fun bt => (0 <=? at2 x (fst bt) (snd bt))%Z
                     && (at2 x (fst bt) (snd bt) <? Z.of_nat vocab)%Z)
          (indices2 (rows x) (cols x)).

(** [Embeddings.forward]: [self.lut(x) * math.sqrt(self.d_model)]; an id
    outside the table raises. *)
Definition Embeddings_forward (e : Embeddings) (x : t2 Z) : option (t3 fl) :=
  if ids_in_range (rows (lut_weight e)) x
  then Some (mk3 (rows x) (cols x) (cols (lut_weight e))
               (fun b t d => fmul (at2 (lut_weight e) (Z.to_nat (at2 x b t)) d)
                                  (Num (sqrt (INR (d_model e))))))
  else None.

(** The transpose of a matrix, and the batched product of a rank-3
    tensor with a matrix. *)
Definition transpose (w : t2 fl) : t2 fl :=
  mk2 (cols w) (rows w) (fun i j => at2 w j i).

Definition matmul (x : t3 fl) (w : t2 fl) : option (t3 fl) :=
  if dim2 x =? rows w
  then Some (mk3 (dim0 x) (dim1 x) (cols w)
               (fun b t k => fsum (rows w) (fun d => fmul (at3 x b t d) (at2 w d k))))
  else None.

End NN.

(** ** The attention primitive ([sequence_mask], [Attention]) *)

Module Attn.

Import Tensor Fl NN.

(** A rank-1 integer tensor. *)
Record t1 : Type := mk1 {
  len1 : nat;
  at1 : nat -> Z
}.

(** [mem_masks]: a rank-1 tensor of lengths or a rank-2 boolean mask. *)
Inductive MemMasks : Type :=
| Lengths (l : t1)
| Valid (m : t2 bool).

(** [lengths.max()]: raises on an empty tensor. *)
Definition t1_max (l : t1) : option Z :=
  match len1 l with
  | O => None
  | S n => Some (fold_left Z.max (map (at1 l) (seq 1 n)) (at1 l 0))
  end.

(** [sequence_mask] (lines 21-30).  [max_len or lengths.max()] takes the
    maximum when [max_len] is 0; [torch.arange(0, k)] raises for a
    negative [k]. *)
Definition sequence_mask (lengths : t1) (max_len : nat) : option (t2 bool) :=
  let batch_size := len1 lengths in
  n <- (if max_len =? 0
        then (k <- t1_max lengths ;;
              if (k <? 0)%Z then None else Some (Z.to_nat k))
        else Some max_len) ;;
  Some (mk2 batch_size n (fun b s => (Z.of_nat s <? at1 lengths b)%Z)).

(** Broadcasting: a dimension of size 1 is repeated. *)
Definition bidx (n i : nat) : nat := if n =? 1 then 0 else i.

Definition broadcastable (n target : nat) : bool := (n =? 1) || (n =? target).

(** [align.masked_fill_(~mask, -float('inf'))] with [mask] unsqueezed
    to [(B, 1, S)]: in place, so [mask] must broadcast to the shape of
    [align]. *)
Definition masked_fill_neginf (align : t3 fl) (mask : t2 bool) : option (t3 xfl) :=
  if broadcastable (rows mask) (dim0 align) && broadcastable (cols mask) (dim2 align)
  then Some (mk3 (dim0 align) (dim1 align) (dim2 align)
               (fun b t s =>
                  if negb (at2 mask (bidx (rows mask) b) (bidx (cols mask) s))
                  then XNegInf
                  else XVal (at3 align b t s)))
  else None.

Definition unmasked (align : t3 fl) : t3 xfl :=
  mk3 (dim0 align) (dim1 align) (dim2 align) (fun b t s => XVal (at3 align b t s)).

(** [F.softmax(align, -1)] *)
Definition softmax (align : t3 xfl) : t3 fl :=
  mk3 (dim0 align) (dim1 align) (dim2 align)
      (fun b t s => softmax_row (dim2 align) (at3 align b t) s).

(** [torch.bmm(a, m)] *)
Definition bmm (a m : t3 fl) : option (t3 fl) :=
  if (dim0 a =? dim0 m) && (dim2 a =? dim1 m)
  then Some (mk3 (dim0 a) (dim1 a) (dim2 m)
               (fun b t d => fsum (dim1 m) (fun s => fmul (at3 a b t s) (at3 m b s d))))
  else None.

(** [torch.cat([c, x], -1)] *)
Definition cat_last (c x : t3 fl) : option (t3 fl) :=
  if (dim0 c =? dim0 x) && (dim1 c =? dim1 x)
  then Some (mk3 (dim0 c) (dim1 c) (dim2 c + dim2 x)
               (fun b t d => if d <? dim2 c then at3 c b t d
                             else at3 x b t (d - dim2 c)))
  else None.

(** [Attention] (lines 346-356). *)
Record Attention : Type := mkAttention {
  dim : nat;
  linear_q : Linear;
  linear_c : Linear;
  v : Linear;
  linear_out : Linear
}.

(** [Attention.score] (lines 358-370).  The two views need the batch
    size of the memory and the width [dim] on both projections. *)
Definition score (a : Attention) (q m : t3 fl) : option (t3 fl) :=
  let bsz := dim0 m in
  let src_len := dim1 m in
  let tgt_len := dim1 q in
  wq <- Linear_forward (linear_q a) q ;;
  uh <- Linear_forward (linear_c a) m ;;
  if (dim0 wq =? bsz) && (dim2 wq =? dim a) && (dim2 uh =? dim a)
  then
    let wquh := fun b t s d => ftanh (fadd (at3 wq b t d) (at3 uh b s d)) in
    if (dim a =? cols (weight (v a))) && (rows (weight (v a)) =? 1)
    then Some (mk3 bsz tgt_len src_len
                 (fun b t s =>
                    at3 (add_bias (bias (v a))
                           (mk3 bsz tgt_len 1
                              (fun b t _ => fsum (dim a)
                                 (fun d => fmul (wquh b t s d) (at2 (weight (v a)) 0 d)))))
                        b t 0))
    else None
  else None.

(** Lines 377-380: the boolean mask for a memory of [src_len] positions. *)
Definition mask_of (mem_masks : MemMasks) (src_len : nat) : option (t2 bool) :=
  match mem_masks with
  | Lengths l => sequence_mask l src_len
  | Valid m => Some m
  end.

(** Lines 374-382: the scores after masking. *)
Definition masked_align (a : Attention) (inputs mems : t3 fl)
    (mem_masks : option MemMasks) : option (t3 xfl) :=
  align <- score a inputs mems ;;
  match mem_masks with
  | None => Some (unmasked align)
  | Some mm =>
      mask <- mask_of mm (dim2 align) ;;
      masked_fill_neginf align mask
  end.

(** [Attention.forward] (lines 372-390). *)
Definition forward (a : Attention) (inputs mems : t3 fl)
    (mem_masks : option MemMasks) : option (t3 fl * t3 fl) :=
  align <- masked_align a inputs mems mem_masks ;;
  let align_vectors := softmax align in
  c <- bmm align_vectors mems ;;
  x <- cat_last c inputs ;;
  attn_h <- Linear_forward (linear_out a) x ;;
  Some (attn_h, align_vectors).

(** Whether memory position [s] of batch element [b] is excluded by the
    mask [mask]. *)
Definition excluded (mask : t2 bool) (b s : nat) : bool :=
  negb (at2 mask (bidx (rows mask) b) (bidx (cols mask) s)).

(** Sample module: every width 1, every weight 0. *)
Definition zero_linear (with_bias : bool) : Linear :=
  mkLinear (mk2 1 1 (fun _ _ => Num 0))
           (if with_bias then Some (fun _ => Num 0) else None).

Definition zero_attention : Attention :=
  mkAttention 1 (zero_linear false) (zero_linear true) (zero_linear false)
              (mkLinear (mk2 1 2 (fun _ _ => Num 0)) (Some (fun _ => Num 0))).

(** One batch element, [n] positions, width 1, all entries 0. *)
Definition zeros_fl (n : nat) : t3 fl := mk3 1 n 1 (fun _ _ _ => Num 0).

(** One batch element, [n] positions, width 1, all entries NaN. *)
Definition nan_fl (n : nat) : t3 fl := mk3 1 n 1 (fun _ _ _ => NaN).

(** One batch element, two positions, width 1: 0 at the first position
    and 1 at the second. *)
Definition second_changed : t3 fl :=
  mk3 1 2 1 (fun _ s _ => if s =? 1 then Num 1 else Num 0).

(** A memory of two positions of which the second is padding, and a
    memory whose single position is padding. *)
Definition second_masked : MemMasks := Valid (of_list2 false [[true; false]]).

Definition all_masked : MemMasks := Valid (of_list2 false [[false]]).

End Attn.

(** ** The decoder ([Embeddings], [Decoder], [GraphTrans.__init__]) *)

Module Dec.

Import Tensor Fl NN Attn.

(** What the file takes from [torch]: the recurrent network, dropout
    and the initial value of every parameter. *)
Class Torch : Type := {
  GRU : Type;
  Hidden : Type;
  (** [nn.GRU(input_size, hidden_size, num_layers=...)] *)
  GRU_new : nat -> nat -> nat -> GRU;
  (** Lines 451-454: pack by lengths, run, pad back. *)
  GRU_packed : GRU -> t3 fl -> t1 -> option Hidden -> option (t3 fl * Hidden);
  (** Line 485. *)
  GRU_forward : GRU -> t3 fl -> option Hidden -> option (t3 fl * Hidden);
  (** [self.dropout(x)] *)
  dropout : t3 fl -> t3 fl;
  (** Initial value of entry [(i, j)] of parameter number [k]. *)
  init : nat -> nat -> nat -> fl
}.

(** Command-line arguments read by the model. *)
Record Args : Type := mkArgs {
  encoder_embed_dim : nat;
  node_embed_size : nat;
  node_hidden_size : nat;
  edge_embed_size : nat;
  edge_hidden_size : nat;
  dec_layers : nat
}.

(** A symbol dictionary: [len(d)] and [d.pad()]. *)
Record Dictionary : Type := mkDictionary {
  dict_len : nat;
  dict_pad : Z
}.

(** Encoder output: [enc_info["mem"]] and [enc_info["mem_masks"]]. *)
Record EncInfo : Type := mkEncInfo {
  mem : t3 fl;
  mem_masks : MemMasks
}.

Section WithTorch.

Context {T : Torch}.

Definition Linear_new (k in_features out_features : nat) (with_bias : bool)
    : Linear :=
  mkLinear (mk2 out_features in_features (init k))
           (if with_bias then Some (init (S k) 0) else None).

(** [Embeddings(d_model, vocab)], lines 314-317. *)
Definition Embeddings_new (k d vocab : nat) : Embeddings :=
  mkEmbeddings (mk2 vocab d (init k)) d.

(** [Attention(input_size, mem_size)], lines 350-356. *)
Definition Attention_new (k input_size mem_size : nat) : Attention :=
  mkAttention mem_size
    (Linear_new k input_size mem_size false)
    (Linear_new (k + 2) mem_size mem_size true)
    (Linear_new (k + 4) mem_size 1 false)
    (Linear_new (k + 6) (mem_size + input_size) input_size true).

Record Decoder : Type := mkDecoder {
  pad_idx : Z;
  node_embeds : Embeddings;
  node_RNN : GRU;
  node_att : Attention;
  node_input_proj : option Linear;
  node_out_proj : option Linear;
  edge_embeds : Embeddings;
  edge_RNN : GRU;
  edge_att : Attention;
  edge_input_proj : option Linear;
  edge_out_proj : option Linear
}.

(** [Decoder.__init__], lines 397-436.  Both [node_embeds] and
    [edge_embeds] are the one module [embeds]. *)
Definition Decoder_new (args : Args) (node_dict edge_dict : Dictionary)
    (embeds : Embeddings) : Decoder :=
  mkDecoder
    (dict_pad node_dict)
    embeds
    (GRU_new (node_embed_size args) (node_hidden_size args) (dec_layers args))
    (Attention_new 10 (node_hidden_size args) (encoder_embed_dim args))
    (if node_embed_size args =? encoder_embed_dim args then None
     else Some (Linear_new 20 (encoder_embed_dim args) (node_embed_size args) true))
    (if node_hidden_size args =? encoder_embed_dim args then None
     else Some (Linear_new 22 (node_hidden_size args) (encoder_embed_dim args) true))
    embeds
    (GRU_new (edge_embed_size args + node_hidden_size args * 2)
             (edge_hidden_size args) (dec_layers args))
    (Attention_new 30 (edge_hidden_size args) (encoder_embed_dim args))
    (if edge_embed_size args =? encoder_embed_dim args then None
     else Some (Linear_new 40 (encoder_embed_dim args) (edge_embed_size args) true))
    (if edge_hidden_size args =? encoder_embed_dim args then None
     else Some (Linear_new 42 (edge_hidden_size args) (encoder_embed_dim args) true)).

(** [nn.CrossEntropyLoss(reduction="sum", ignore_index=...)] *)
Record CrossEntropyLoss : Type := mkCrossEntropyLoss {
  ignore_index : Z
}.

Record GraphTrans : Type := mkGraphTrans {
  gt_node_embeds : Embeddings;
  gt_edge_embeds : Embeddings;
  graph_dec : Decoder;
  node_xent : CrossEntropyLoss;
  edge_xent : CrossEntropyLoss
}.

(** [GraphTrans.__init__], lines 79-104, without the pretrained text
    encoder.  Line 97 binds [edge_embeds] to the node table. *)
Definition GraphTrans_new (args : Args) (node_dict edge_dict : Dictionary)
    : GraphTrans :=
  let node_embeds := Embeddings_new 0 (encoder_embed_dim args) (dict_len node_dict) in
  let edge_embeds := node_embeds in
  mkGraphTrans node_embeds edge_embeds
    (Decoder_new args node_dict edge_dict node_embeds)
    (mkCrossEntropyLoss (dict_pad node_dict))
    (mkCrossEntropyLoss (dict_pad edge_dict)).

(** [Decoder.node_forward] up to line 461: the recurrent states, the
    final hidden state and the attention output after the optional
    projection. *)
Definition node_hidden (dec : Decoder) (enc_info : EncInfo) (nodes : t2 Z)
    (nodes_len : t1) (init_hiddens : option Hidden)
    : option (t3 fl * Hidden * t3 fl) :=
  nodes_embeds <- Embeddings_forward (node_embeds dec) nodes ;;
  nodes_embeds <- optional_proj (node_input_proj dec) nodes_embeds ;;
  rh <- GRU_packed (node_RNN dec) nodes_embeds nodes_len init_hiddens ;;
  ca <- forward (node_att dec) (fst rh) (mem enc_info) (Some (mem_masks enc_info)) ;;
  outputs <- optional_proj (node_out_proj dec) (fst ca) ;;
  Some (fst rh, snd rh, outputs).

(** [Decoder.node_forward], lines 438-464. *)
Definition node_forward (dec : Decoder) (enc_info : EncInfo) (nodes : t2 Z)
    (nodes_len : t1) (init_hiddens : option Hidden)
    : option (t3 fl * Hidden * t3 fl) :=
  r <- node_hidden dec enc_info nodes nodes_len init_hiddens ;;
  outputs <- F_linear (dropout (snd r)) (lut_weight (node_embeds dec)) ;;
  Some (fst r, outputs).

(** [torch.cat([a, b, c], dim=-1)] *)
Definition cat3_last (a b c : t3 fl) : option (t3 fl) :=
  ab <- cat_last a b ;; cat_last ab c.

(** [Decoder.edge_forward], lines 466-495. *)
Definition edge_forward (dec : Decoder) (enc_info : EncInfo) (edges : t2 Z)
    (src_nodes tgt_nodes : t3 fl) (init_hiddens : option Hidden)
    : option (t3 fl * Hidden * t3 fl) :=
  edges_embeds <- Embeddings_forward (edge_embeds dec) edges ;;
  edges_embeds <- optional_proj (edge_input_proj dec) edges_embeds ;;
  rnn_inputs <- cat3_last edges_embeds src_nodes tgt_nodes ;;
  rh <- GRU_forward (edge_RNN dec) rnn_inputs init_hiddens ;;
  ca <- forward (edge_att dec) (fst rh) (mem enc_info) (Some (mem_masks enc_info)) ;;
  outputs <- optional_proj (edge_out_proj dec) (fst ca) ;;
  outputs <- F_linear (dropout outputs) (lut_weight (edge_embeds dec)) ;;
  Some (fst rh, snd rh, outputs).

(** [torch.index_select(x, 1, idx)]: an index outside the second
    dimension raises. *)
Definition index_select1 (x : t3 fl) (idx : list Z) : option (t3 fl) :=
  if forallb (fun k => (0 <=? k)%Z && (k <? Z.of_nat (dim1 x))%Z) idx
  then Some (mk3 (dim0 x) (length idx) (dim2 x)
               (fun b t d => at3 x b (Z.to_nat (nth t idx 0%Z)) d))
  else None.

(** Line 502: the number of non-pad ids of each row. *)
Definition nodes_lens (pad : Z) (x : t2 Z) : t1 :=
  mk1 (rows x)
      (fun b => Z.of_nat (length (filter (fun t => negb (at2 x b t =? pad)%Z)
                                         (seq 0 (cols x))))).

(** [Decoder.forward], lines 497-521, on [nodes["x"]] and [edges["x"]]. *)
Definition Decoder_forward (dec : Decoder) (enc_info : EncInfo)
    (nodes_x edges_x : t2 Z) : option (t3 fl * t3 fl * t3 fl * t3 fl) :=
  n <- node_forward dec enc_info nodes_x (nodes_lens (pad_idx dec) nodes_x) None ;;
  let node_rnn_outputs := fst (fst n) in
  let node_size := dim1 node_rnn_outputs in
  st <- PairIndex.pair_indices (Z.of_nat node_size) ;;
  src_nodes <- index_select1 node_rnn_outputs (fst st) ;;
  tgt_nodes <- index_select1 node_rnn_outputs (snd st) ;;
  e <- edge_forward dec enc_info edges_x src_nodes tgt_nodes None ;;
  Some (node_rnn_outputs, snd n, fst (fst e), snd e).

End WithTorch.

(** A stand-in for [torch] to run the model on samples: the recurrent
    network returns zeros of its hidden width, dropout is the identity
    (evaluation mode) and every parameter starts at 0. *)
Definition zero_gru (g : nat * nat) (x : t3 fl) : option (t3 fl * unit) :=
  if dim2 x =? fst g
  then Some (mk3 (dim0 x) (dim1 x) (snd g) (fun _ _ _ => Num 0%R), tt)
  else None.

Definition sample_torch : Torch :=
  {| GRU := nat * nat;
     Hidden := unit;
     GRU_new := fun i h _ => (i, h);
     GRU_packed := fun g x _ _ => zero_gru g x;
     GRU_forward := fun g x _ => zero_gru g x;
     dropout := fun x => x;
     init := fun _ _ _ => Num 0%R |}.

(** Every width 1. *)
Definition sample_args : Args := mkArgs 1 1 1 1 1 1.

(** Three node symbols, two edge symbols, pad id 0 in both. *)
Definition three_nodes : Dictionary := mkDictionary 3 0.
Definition two_edges : Dictionary := mkDictionary 2 0.

(** Five edge symbols: more than there are node symbols. *)
Definition five_edges : Dictionary := mkDictionary 5 0.

(** One memory position, valid. *)
Definition sample_enc : EncInfo :=
  mkEncInfo (zeros_fl 1) (Valid (of_list2 false [[true]])).

End Dec.

(** ** Loss Aggregator ([GraphTrans.compute_loss]) *)

Module Loss.

Import Tensor Fl NN Attn Dec.

(** Entry number [k] of a tensor in row-major order. *)
Definition flat2 {A : Type} (t : t2 A) (k : nat) : A :=
  at2 t (k / cols t) (k mod cols t).

Definition flat3 {A : Type} (t : t3 A) (k : nat) : A :=
  at3 t (k / (dim1 t * dim2 t)) ((k / dim2 t) mod dim1 t) (k mod dim2 t).

Definition numel3 {A : Type} (t : t3 A) : nat := dim0 t * dim1 t * dim2 t.

(** [x.view(n)] of a rank-2 tensor: the element counts must agree. *)
Definition view_flat (x : t2 Z) (n : nat) : option t1 :=
  if rows x * cols x =? n then Some (mk1 n (flat2 x)) else None.

(** [x.view(n, -1)] of a rank-3 tensor: [n] must be positive and divide
    the element count. *)
Definition view_rows (x : t3 fl) (n : nat) : option (t2 fl) :=
  if n =? 0 then None
  else if numel3 x mod n =? 0
       then Some (mk2 n (numel3 x / n)
                    (fun i j => flat3 x (i * (numel3 x / n) + j)))
       else None.

(** Cross-entropy of one position: minus the log-softmax of the row of
    [c] logits at class [y]. *)
Definition xent_at (c : nat) (row : nat -> fl) (y : nat) : fl :=
  fsub (fln (fsum c (fun k => fexp (row k)))) (row y).

(** The term a position adds to the sum: nothing when its label is
    [ignore_index]; a label outside the classes raises. *)
Definition xent_term (l : CrossEntropyLoss) (c : nat) (row : nat -> fl) (y : Z)
    : option fl :=
  if (y =? ignore_index l)%Z then Some (Num 0%R)
  else if (0 <=? y)%Z && (y <? Z.of_nat c)%Z
       then Some (xent_at c row (Z.to_nat y))
       else None.

(** [nn.CrossEntropyLoss(reduction="sum", ignore_index=...)] applied to
    logits [(N, C)] and labels [(N)]. *)
Definition CrossEntropyLoss_forward (l : CrossEntropyLoss) (input : t2 fl)
    (target : t1) : option fl :=
  if rows input =? len1 target
  then foldM (fun acc n =>
                term <- xent_term l (cols input) (at2 input n) (at1 target n) ;;
                Some (fadd acc term))
             (seq 0 (rows input)) (Num 0%R)
  else None.

Section WithTorch.

Context {T : Torch}.

(** [GraphTrans.compute_loss], lines 106-131. *)
Definition compute_loss (self : GraphTrans) (nodes : t2 Z) (node_outputs : t3 fl)
    (edges : t2 Z) (edge_outputs : t3 fl) : option fl :=
  let bsz := rows nodes in
  let tgt_len := cols nodes in
  nodes1 <- view_flat nodes (bsz * tgt_len) ;;
  node_outputs2 <- view_rows node_outputs (bsz * tgt_len) ;;
  node_loss <- CrossEntropyLoss_forward (node_xent self) node_outputs2 nodes1 ;;
  let num_edge := cols edges in
  edges1 <- view_flat edges (bsz * num_edge) ;;
  edge_outputs2 <- view_rows edge_outputs (bsz * num_edge) ;;
  edge_loss <- CrossEntropyLoss_forward (edge_xent self) edge_outputs2 edges1 ;;
  let sum_loss := fadd node_loss edge_loss in
  Some (fdiv sum_loss (Num (INR bsz))).

End WithTorch.

(** The cross-entropy of position [(b, t)] of a batch of labels [y] and
    logits [x], 0 where the label is [pad]. *)
Definition position_loss (pad : Z) (y : t2 Z) (x : t3 fl) (b t : nat) : fl :=
  if (at2 y b t =? pad)%Z then Num 0%R
  else xent_at (dim2 x) (at3 x b t) (Z.to_nat (at2 y b t)).

(** The sum of [position_loss] over all positions of the batch. *)
Definition branch_loss (pad : Z) (y : t2 Z) (x : t3 fl) : fl :=
  fsum (rows y) (fun b => fsum (cols y) (fun t => position_loss pad y x b t)).

(** The number of labels of a batch that are not the pad id. *)
Definition nonpad_count (pad : Z) (y : t2 Z) : nat :=
  list_sum
    (map (fun b =>
            list_sum (map (fun t => if (at2 y b t =? pad)%Z then 0 else 1)
                          (seq 0 (cols y))))
         (seq 0 (rows y))).

(** Every label is the pad id or a class of the logits. *)
Definition labels_ok (pad : Z) (classes : nat) (y : t2 Z) : Prop :=
  forall b t, b < rows y -> t < cols y ->
    at2 y b t = pad \/ (0 <= at2 y b t < Z.of_nat classes)%Z.

(** Sample batch: one element, labels [1; 0] with pad id 0, two classes,
    all logits 0. *)
Definition sample_labels : t2 Z := of_list2 0%Z [[1; 0]]%Z.
Definition sample_logits : t3 fl := mk3 1 2 2 (fun _ _ _ => Num 0%R).

(** Labels [5; 0]: 5 is no class of two-class logits.  Labels [0; 0]:
    all pad.  Logits that are all NaN. *)
Definition bad_labels : t2 Z := of_list2 0%Z [[5; 0]]%Z.
Definition pad_labels : t2 Z := of_list2 0%Z [[0; 0]]%Z.
Definition nan_logits : t3 fl := mk3 1 2 2 (fun _ _ _ => NaN).

End Loss.

(** ** The encoder's inputs to the text encoder ([GraphTrans.encoder],
    [get_full_attention_mask]) *)

Module Enc.

Import Tensor Mask.

(** [get_full_attention_mask] (lines 32-33) and line 172:
    [input_ids != 0]. *)
Definition get_full_attention_mask (input_ids : t2 Z) : t2 bool :=
  map2 (fun x => negb (x =? 0)%Z) input_ids.

(** Line 142: an edge carries information when its id is neither the
    pad id nor the id of ["<blank>"]. *)
Definition edge_masks (pad blank : Z) (edges : t3 Z) : t3 bool :=
  mk3 (dim0 edges) (dim1 edges) (dim2 edges)
      (fun b u v => negb (at3 edges b u v =? pad)%Z
                    && negb (at3 edges b u v =? blank)%Z).

(** Lines 144-146: a copy of the edge mask with the diagonal set.
    [diag] runs over the last dimension and indexes both node
    dimensions, so a last dimension larger than the one before raises. *)
Definition adj_masks (pad blank : Z) (edges : t3 Z) : option (t3 bool) :=
  if dim2 edges <=? dim1 edges
  then Some (assign3 (fun _ u v => (u =? v) && (u <? dim2 edges)) true
               (edge_masks pad blank edges))
  else None.

(** [torch.cat([v_text, v_graph], dim=1)], line 160. *)
Definition cat1 (v_text v_graph : t2 Z) : option (t2 Z) :=
  if rows v_text =? rows v_graph
  then Some (mk2 (rows v_text) (cols v_text + cols v_graph)
               (fun i j => if j <? cols v_text then at2 v_text i j
                           else at2 v_graph i (j - cols v_text)))
  else None.

(** Lines 142-167: the structural mask the encoder passes on, from the
    edge ids, the node-position table and the token ids of the text and
    of the graph. *)
Definition encoder_attention_mask (pad blank : Z) (edges : t3 Z)
    (node_pos : NodePos) (text_ids graph_ids : t2 Z) : option (t3 bool) :=
  adj <- adj_masks pad blank edges ;;
  input_ids <- cat1 text_ids graph_ids ;;
  let text_len := cols text_ids in
  get_attention_mask adj node_pos input_ids text_len.

(** Sample graph: two nodes, edge ids [3] between them in one direction,
    blank [1] in the other and on the diagonal; pad id 0. *)
Definition sample_edges : t3 Z := of_list3 0%Z [[[1; 3]; [1; 1]]]%Z.

(** Text [5], graph tokens [7; 8; 0]: node 0 covers token 7, node 1
    covers token 8 and the trailing pad. *)
Definition sample_text : t2 Z := of_list2 0%Z [[5]]%Z.
Definition sample_graph : t2 Z := of_list2 0%Z [[7; 8; 0]]%Z.
Definition sample_node_pos : NodePos := [[(0, 1); (1, 3)]]%Z.

End Enc.

(** ** The transformer building blocks ([LayerNorm], [attention],
    [PositionalEncoding], lines 203-343) *)

Module Blocks.

Import Tensor Fl Attn.
Local Open Scope R_scope.

(** The size of two dimensions broadcast together: equal sizes, or one
    of them 1; anything else raises. *)
Definition bcast (n m : nat) : option nat :=
  if (n =? m)%nat then Some n
  else if (n =? 1)%nat then Some m
  else if (m =? 1)%nat then Some n
  else None.

Definition fsqrt : fl -> fl := lift1 sqrt.

(** *** [LayerNorm] (lines 204-215) *)

(** [a_2] and [b_2] are parameters of shape [(features,)]. *)
Record LayerNorm : Type := mkLayerNorm {
  features : nat;
  a_2 : nat -> fl;
  b_2 : nat -> fl;
  eps : R
}.

(** [LayerNorm.__init__]: [a_2] is all ones, [b_2] all zeros. *)
Definition LayerNorm_new (features : nat) (eps : R) : LayerNorm :=
  mkLayerNorm features (fun _ => Num 1) (fun _ => Num 0) eps.

(** [x.mean(-1)] of a row of [n] entries: [0/0] for an empty row. *)
Definition mean_last (n : nat) (row : nat -> fl) : fl :=
  if (n =? 0)%nat then NaN else fdiv (fsum n row) (Num (INR n)).

(** [x.std(-1)]: the unbiased estimator, which divides by [n - 1] and is
    NaN for fewer than two entries. *)
Definition std_last (n : nat) (row : nat -> fl) : fl :=
  if (n <=? 1)%nat then NaN
  else fsqrt (fdiv (fsum n (fun d =>
                      fmul (fsub (row d) (mean_last n row))
                           (fsub (row d) (mean_last n row))))
                   (Num (INR (n - 1)))).

(** [LayerNorm.forward] (lines 212-215) on a rank-3 input: the
    parameters broadcast against the last dimension of [x]. *)
Definition LayerNorm_forward (ln : LayerNorm) (x : t3 fl) : option (t3 fl) :=
  d <- bcast (features ln) (dim2 x) ;;
  Some (mk3 (dim0 x) (dim1 x) d
          (fun b t k =>
             let mean := mean_last (dim2 x) (at3 x b t) in
             let std := std_last (dim2 x) (at3 x b t) in
             fadd (fdiv (fmul (a_2 ln (bidx (features ln) k))
                              (fsub (at3 x b t (bidx (dim2 x) k)) mean))
                        (fadd std (Num (eps ln))))
                  (b_2 ln (bidx (features ln) k)))).

(** *** Scaled dot-product [attention] (lines 251-261), at rank 3 *)

(** [key.transpose(-2, -1)] *)
Definition transpose_last (x : t3 fl) : t3 fl :=
  mk3 (dim0 x) (dim2 x) (dim1 x) (fun b d s => at3 x b s d).

(** [torch.matmul(a, m)] of two rank-3 tensors: the batch dimensions
    broadcast, the inner dimensions must agree. *)
Definition matmul3 (a m : t3 fl) : option (t3 fl) :=
  b <- bcast (dim0 a) (dim0 m) ;;
  if (dim2 a =? dim1 m)%nat
  then Some (mk3 b (dim1 a) (dim2 m)
               (fun i t d =>
                  fsum (dim1 m)
                       (fun s => fmul (at3 a (bidx (dim0 a) i) t s)
                                      (at3 m (bidx (dim0 m) i) s d))))
  else None.

(** [scores / math.sqrt(d_k)]: for [d_k = 0] every score is the empty
    sum [0.0] divided by [0.0]. *)
Definition scaled (d_k : nat) (x : fl) : fl :=
  if (d_k =? 0)%nat then NaN else fdiv x (Num (sqrt (INR d_k))).

Definition map3 {A B : Type} (f : A -> B) (x : t3 A) : t3 B :=
  mk3 (dim0 x) (dim1 x) (dim2 x) (fun b t s => f (at3 x b t s)).

(** [scores.masked_fill(mask == 0, v)]: out of place, so [scores] and
    [mask] are broadcast together. *)
Definition masked_fill (scores : t3 fl) (mask : t3 Z) (v : R) : option (t3 fl) :=
  b <- bcast (dim0 scores) (dim0 mask) ;;
  t <- bcast (dim1 scores) (dim1 mask) ;;
  s <- bcast (dim2 scores) (dim2 mask) ;;
  Some (mk3 b t s
          (fun i j k =>
             if (at3 mask (bidx (dim0 mask) i) (bidx (dim1 mask) j)
                     (bidx (dim2 mask) k) =? 0)%Z
             then Num v
             else at3 scores (bidx (dim0 scores) i) (bidx (dim1 scores) j)
                      (bidx (dim2 scores) k))).

(** [attention] (lines 251-261): [mask] and [dropout] are optional. *)
Definition attention (query key value : t3 fl) (mask : option (t3 Z))
    (dropout : option (t3 fl -> t3 fl)) : option (t3 fl * t3 fl) :=
  let d_k := dim2 query in
  qk <- matmul3 query (transpose_last key) ;;
  let scores := map3 (scaled d_k) qk in
  scores <- match mask with
            | Some m => masked_fill scores m (-1000000000)
            | None => Some scores
            end ;;
  let p_attn := softmax (unmasked scores) in
  let p_attn := match dropout with
                | Some drop => drop p_attn
                | None => p_attn
                end in
  out <- matmul3 p_attn value ;;
  Some (out, p_attn).

(** *** [PositionalEncoding] (lines 324-343) *)

(** The columns selected by [0::2], which are also the values of
    [torch.arange(0, d, 2)], and the columns selected by [1::2]. *)
Definition even_cols (d : nat) : list nat := filter Nat.even (seq 0 d).

Definition odd_cols (d : nat) : list nat := filter Nat.odd (seq 0 d).

(** [div_term[j]] *)
Definition div_term (d_model j : nat) : R :=
  exp (INR (nth j (even_cols d_model) 0%nat) * - (ln 10000 / INR d_model)).

(** [pe] is the registered buffer of shape [(1, max_len, d_model)]. *)
Record PositionalEncoding : Type := mkPositionalEncoding {
  pe_dropout : t3 fl -> t3 fl;
  pe : t3 fl
}.

(** [PositionalEncoding.__init__] (lines 326-338).  [math.log(10000.0) /
    d_model] raises for [d_model = 0]; the two slice assignments copy a
    tensor with one column per entry of [div_term] into the selected
    columns, which raises unless it broadcasts to them.  Column [c] is
    the [(c / 2)]-th column of its slice. *)
Definition PositionalEncoding_new (d_model : nat) (dropout : t3 fl -> t3 fl)
    (max_len : nat) : option PositionalEncoding :=
  if (d_model =? 0)%nat then None
  else
    let k := length (even_cols d_model) in
    if broadcastable k (length (even_cols d_model))
       && broadcastable k (length (odd_cols d_model))
    then Some (mkPositionalEncoding dropout
                 (mk3 1 max_len d_model
                    (fun _ pos c =>
                       let arg := INR pos * div_term d_model (bidx k (c / 2)) in
                       if Nat.even c then Num (sin arg) else Num (cos arg))))
    else None.

(** [PositionalEncoding.forward] (lines 340-343): the slice
    [self.pe[:, :x.size(1)]] keeps at most [max_len] positions, and the
    sum broadcasts. *)
Definition PositionalEncoding_forward (p : PositionalEncoding) (x : t3 fl)
    : option (t3 fl) :=
  let n := Nat.min (dim1 x) (dim1 (pe p)) in
  b <- bcast (dim0 x) (dim0 (pe p)) ;;
  l <- bcast (dim1 x) n ;;
  d <- bcast (dim2 x) (dim2 (pe p)) ;;
  Some (pe_dropout p
          (mk3 b l d
             (fun i t k =>
                fadd (at3 x (bidx (dim0 x) i) (bidx (dim1 x) t) (bidx (dim2 x) k))
                     (at3 (pe p) (bidx (dim0 (pe p)) i) (bidx n t)
                          (bidx (dim2 (pe p)) k))))).

(** Sample inputs: a mask that hides everything, two rows that differ by
    a constant, and the dropout of evaluation mode. *)
Definition zero_mask (n : nat) : t3 Z := mk3 1 1 n (fun _ _ _ => 0%Z).

Definition row_1_3 : t3 fl :=
  mk3 1 1 2 (fun _ _ d => if (d =? 0)%nat then Num 1 else Num 3).

Definition row_2_4 : t3 fl :=
  mk3 1 1 2 (fun _ _ d => if (d =? 0)%nat then Num 2 else Num 4).

Definition eval_dropout (x : t3 fl) : t3 fl := x.

End Blocks.

(** * Properties *)

Module PairIndexExamples.
Import PairIndex.
Open Scope Z_scope.

Example pair_indices_5 :
  pair_indices 5 = Some ([1; 2; 2; 3; 3; 3; 4], [0; 0; 1; 0; 1; 2; 4]).
Proof. reflexivity. Qed.

Example pair_indices_3 : pair_indices 3 = Some ([1; 2], [0; 2]).
Proof. reflexivity. Qed.

Example pair_indices_2 : pair_indices 2 = Some ([0], [0]).
Proof. reflexivity. Qed.

End PairIndexExamples.

(** ** The pair index tables *)

Module PairIndexFacts.

Import Py PairIndex.
Local Open Scope Z_scope.

Lemma range_succ (a : Z) (m : nat) :
  range a (a + Z.of_nat (S m)) = range a (a + Z.of_nat m) ++ [a + Z.of_nat m].
Proof.
  unfold range.
  replace (Z.to_nat (a + Z.of_nat (S m) - a)) with (S m) by lia.
  replace (Z.to_nat (a + Z.of_nat m - a)) with m by lia.
  rewrite seq_S, map_app. reflexivity.
Qed.

Lemma in_range (a b k : Z) : In k (range a b) <-> a <= k < b.
Proof.
  unfold range. rewrite in_map_iff. split.
  - intros [x [Hx Hin]]. apply in_seq in Hin. lia.
  - intros Hk. exists (Z.to_nat (k - a)). split; [lia|].
    apply in_seq. lia.
Qed.

Lemma length_range (a b : Z) : length (range a b) = Z.to_nat (b - a).
Proof. unfold range. now rewrite length_map, length_seq. Qed.

Lemma fold_left_app_concat (A : Type) (xs : list (list A)) (x : list A) :
  fold_left (fun u v => u ++ v) xs x = x ++ concat xs.
Proof.
  revert x. induction xs as [|y ys IH]; intros x; simpl.
  - now rewrite app_nil_r.
  - rewrite IH. now rewrite app_assoc.
Qed.

Lemma reduce_app_concat (A : Type) (xs : list (list A)) :
  xs <> [] -> reduce (fun u v => u ++ v) xs = Some (concat xs).
Proof.
  destruct xs as [|x xs]; [congruence|]. intros _. simpl.
  now rewrite fold_left_app_concat.
Qed.

Lemma last_item_snoc (A : Type) (l : list A) (x : A) :
  last_item (l ++ [x]) = Some x.
Proof.
  induction l as [|y l IH]; simpl; [reflexivity|].
  rewrite IH. destruct (l ++ [x]) eqn:E; [|reflexivity].
  now destruct l.
Qed.

Lemma concat_src_rows (n : Z) : concat (src_rows n) = map fst (lower_pairs n).
Proof.
  unfold src_rows, lower_pairs. rewrite flat_map_concat_map, concat_map, !map_map.
  f_equal. apply map_ext. intros i. now rewrite map_map.
Qed.

Lemma concat_tgt_rows (n : Z) : concat (tgt_rows n) = map snd (lower_pairs n).
Proof.
  unfold tgt_rows, lower_pairs. rewrite flat_map_concat_map, concat_map, !map_map.
  f_equal. apply map_ext. intros i. now rewrite map_map.
Qed.

Lemma in_lower_pairs (n i j : Z) :
  In (i, j) (lower_pairs n) <-> 1 <= i <= n - 2 /\ 0 <= j < i.
Proof.
  unfold lower_pairs. rewrite in_flat_map. split.
  - intros [k [Hk Hin]]. apply in_range in Hk. apply in_map_iff in Hin.
    destruct Hin as [x [Hx Hin]]. apply in_range in Hin.
    inversion Hx; subst. lia.
  - intros [Hi Hj]. exists i. split; [apply in_range; lia|].
    apply in_map_iff. exists j. split; [reflexivity|apply in_range; lia].
Qed.

(** With [m] rows the enumeration is the one with [m - 1] rows followed
    by the row of source [m]. *)
Lemma lower_pairs_succ (m : nat) :
  lower_pairs (Z.of_nat (S m) + 2)
  = lower_pairs (Z.of_nat m + 2)
    ++ map (fun j => (Z.of_nat (S m), j)) (range 0 (Z.of_nat (S m))).
Proof.
  unfold lower_pairs.
  replace (Z.of_nat (S m) + 2 - 1) with (1 + Z.of_nat (S m)) by lia.
  replace (Z.of_nat m + 2 - 1) with (1 + Z.of_nat m) by lia.
  rewrite range_succ, flat_map_app. cbn [flat_map]. rewrite app_nil_r.
  replace (1 + Z.of_nat m) with (Z.of_nat (S m)) by lia. reflexivity.
Qed.

Lemma length_lower_pairs (m : nat) :
  2 * Z.of_nat (length (lower_pairs (Z.of_nat m + 2)))
  = Z.of_nat m * (Z.of_nat m + 1).
Proof.
  induction m as [|m IH].
  - reflexivity.
  - rewrite lower_pairs_succ, length_app, length_map, length_range. lia.
Qed.

Lemma length_lower_pairs_choose (n : Z) :
  2 < n -> Z.of_nat (length (lower_pairs n)) = choose2 (n - 2) + (n - 2).
Proof.
  intros Hn. pose proof (length_lower_pairs (Z.to_nat (n - 2))) as H.
  replace (Z.of_nat (Z.to_nat (n - 2)) + 2) with n in H by lia.
  rewrite Z2Nat.id in H by lia.
  unfold choose2.
  replace ((n - 2) * (n - 2 - 1))
    with ((Z.of_nat (length (lower_pairs n)) - (n - 2)) * 2) by lia.
  rewrite Z.div_mul by lia. lia.
Qed.

Lemma lower_pairs_last (n : Z) :
  2 < n -> exists l, lower_pairs n = l ++ [(n - 2, n - 3)].
Proof.
  intros Hn. destruct (Z.to_nat (n - 2)) as [|m] eqn:E; [lia|].
  replace n with (Z.of_nat (S m) + 2) by lia.
  rewrite lower_pairs_succ.
  pose proof (range_succ 0 m) as Hr. rewrite !Z.add_0_l in Hr.
  rewrite Hr, map_app. cbn [map].
  eexists. rewrite app_assoc. f_equal. f_equal. f_equal; lia.
Qed.

Lemma truthy_snoc (A : Type) (l : list A) (x : A) : truthy (l ++ [x]) = true.
Proof. now destruct l. Qed.

Lemma src_rows_nonempty (n : Z) : 2 < n -> src_rows n <> [].
Proof.
  intros Hn H. apply (f_equal (@length _)) in H.
  unfold src_rows in H. rewrite length_map, length_range in H.
  cbn [length] in H. lia.
Qed.

Lemma tgt_rows_nonempty (n : Z) : 2 < n -> tgt_rows n <> [].
Proof.
  intros Hn H. apply (f_equal (@length _)) in H.
  unfold tgt_rows in H. rewrite length_map, length_range in H.
  cbn [length] in H. lia.
Qed.

Lemma pair_indices_tables (n : Z) :
  2 < n -> pair_indices n = Some (map fst (tables n), map snd (tables n)).
Proof.
  intros Hn. unfold pair_indices, src_nodes_indices, tgt_nodes_indices, tables.
  assert (Hlt : (2 <? n) = true) by (apply Z.ltb_lt; exact Hn).
  rewrite Hlt.
  rewrite (reduce_app_concat (src_rows_nonempty Hn)).
  rewrite (reduce_app_concat (tgt_rows_nonempty Hn)).
  rewrite concat_src_rows, concat_tgt_rows.
  destruct (lower_pairs_last Hn) as [l Hl]. rewrite Hl.
  rewrite !map_app. cbn [map fst snd bind].
  rewrite truthy_snoc, last_item_snoc. cbn [bind].
  rewrite truthy_snoc, last_item_snoc. cbn [bind].
  replace (n - 2 + 1) with (n - 1) by lia. reflexivity.
Qed.

(** C1, as the code has it.  For every [n > 2] the two tables are the
    enumeration of the pairs (source [i], target [j]), [i] from 1 to
    [n-2] and [j] from 0 to [i-1], followed by one final pair
    [(n-1, n-1)]; they have C(n-2, 2) + (n-2) + 1 entries and every
    entry lies in [0, n-1]. *)
Theorem pair_indices_enumeration (n : Z) :
  2 < n ->
  exists src tgt,
    pair_indices n = Some (src, tgt)
    /\ combine src tgt = lower_pairs n ++ [(n - 1, n - 1)]
    /\ Z.of_nat (length src) = choose2 (n - 2) + (n - 2) + 1
    /\ length tgt = length src
    /\ Forall (fun k => 0 <= k <= n - 1) src
    /\ Forall (fun k => 0 <= k <= n - 1) tgt.
Proof.
  intros Hn. exists (map fst (tables n)), (map snd (tables n)).
  assert (Hin : forall i j, In (i, j) (tables n) ->
                            0 <= i <= n - 1 /\ 0 <= j <= n - 1).
  { intros i j H. unfold tables in H. apply in_app_or in H.
    destruct H as [H|[H|[]]].
    - apply in_lower_pairs in H. lia.
    - inversion H; subst. lia. }
  split; [exact (pair_indices_tables Hn)|].
  split.
  { unfold tables. generalize (lower_pairs n ++ [(n - 1, n - 1)]).
    induction l as [|[i j] l IH]; cbn; [reflexivity|now rewrite IH]. }
  split.
  { rewrite length_map. unfold tables. rewrite length_app. cbn [length].
    rewrite Nat2Z.inj_add, (length_lower_pairs_choose Hn). lia. }
  split; [now rewrite !length_map|].
  split; apply Forall_forall; intros k Hk; apply in_map_iff in Hk;
    destruct Hk as [[i j] [Hk Hp]]; cbn in Hk; subst; apply Hin in Hp; lia.
Qed.

Lemma pair_indices_enumeration_witness :
  2 < 5 /\
  exists src tgt,
    pair_indices 5 = Some (src, tgt)
    /\ combine src tgt = lower_pairs 5 ++ [(5 - 1, 5 - 1)]
    /\ Z.of_nat (length src) = choose2 (5 - 2) + (5 - 2) + 1
    /\ length tgt = length src
    /\ Forall (fun k => 0 <= k <= 5 - 1) src
    /\ Forall (fun k => 0 <= k <= 5 - 1) tgt.
Proof. split; [lia|apply (@pair_indices_enumeration 5); lia]. Defined.

(** C1 as stated fails at [n = 3]: the tables are [[1; 2]] and [[0; 2]],
    two pairs, while the enumeration has the single pair [(1, 0)] and
    C(1, 2) + 1 = 1. *)
Lemma pair_indices_not_only_enumeration :
  pair_indices 3 = Some ([1; 2], [0; 2])
  /\ combine [1; 2] [0; 2] <> lower_pairs 3
  /\ Z.of_nat (length [1; 2]) <> choose2 (3 - 2) + (3 - 2).
Proof.
  split; [reflexivity|]. split; [discriminate|]. vm_compute. discriminate.
Qed.

(** C2.  For every [n <= 2] the builder returns exactly one pair, source
    0 and target 0. *)
Theorem pair_indices_degenerate (n : Z) :
  n <= 2 -> pair_indices n = Some ([0], [0]).
Proof.
  intros Hn. unfold pair_indices, src_nodes_indices, tgt_nodes_indices.
  assert (Hlt : (2 <? n) = false) by (apply Z.ltb_ge; exact Hn).
  rewrite Hlt. reflexivity.
Qed.

Lemma pair_indices_degenerate_witness :
  2 <= 2 /\ pair_indices 2 = Some ([0], [0]).
Proof. split; [lia|apply (@pair_indices_degenerate 2); lia]. Defined.

End PairIndexFacts.

(** ** The structural attention mask *)

Module MaskFacts.

Import Py Tensor Mask.

(** *** Index enumeration *)

Lemma in_indices2 (n m i j : nat) :
  In (i, j) (indices2 n m) <-> i < n /\ j < m.
Proof.
  unfold indices2. rewrite in_flat_map. split.
  - intros [k [Hk H]]. apply in_seq in Hk. apply in_map_iff in H.
    destruct H as [x [Hx H]]. apply in_seq in H. inversion Hx; subst. lia.
  - intros [Hi Hj]. exists i. split; [apply in_seq; lia|].
    apply in_map_iff. exists j. split; [reflexivity|apply in_seq; lia].
Qed.

Lemma in_indices3 (b n m k i j : nat) :
  In (k, i, j) (indices3 b n m) <-> k < b /\ i < n /\ j < m.
Proof.
  unfold indices3. rewrite in_flat_map. split.
  - intros [x [Hx H]]. apply in_seq in Hx. apply in_map_iff in H.
    destruct H as [[i' j'] [E H]]. apply in_indices2 in H.
    cbn in E. inversion E; subst. lia.
  - intros [Hk Hij]. exists k. split; [apply in_seq; lia|].
    apply in_map_iff. exists (i, j). split; [reflexivity|].
    now apply in_indices2.
Qed.

Lemma in_where2 (t : t2 bool) (i j : nat) :
  In (i, j) (where2 t) <-> get2 t i j = Some true.
Proof.
  unfold where2, get2. rewrite filter_In, in_indices2. cbn [fst snd].
  split.
  - intros [[Hi Hj] H]. apply Nat.ltb_lt in Hi, Hj. now rewrite Hi, Hj, H.
  - destruct (i <? rows t) eqn:Hi; [|discriminate].
    destruct (j <? cols t) eqn:Hj; [|discriminate]. cbn.
    apply Nat.ltb_lt in Hi, Hj. intros H. inversion H. auto.
Qed.

Lemma in_where3 (t : t3 bool) (b i j : nat) :
  In (b, i, j) (where3 t) <-> get3 t b i j = Some true.
Proof.
  unfold where3, get3. rewrite filter_In, in_indices3. cbn [fst snd].
  split.
  - intros [[Hb [Hi Hj]] H]. apply Nat.ltb_lt in Hb, Hi, Hj.
    now rewrite Hb, Hi, Hj, H.
  - destruct (b <? dim0 t) eqn:Hb; [|discriminate].
    destruct (i <? dim1 t) eqn:Hi; [|discriminate].
    destruct (j <? dim2 t) eqn:Hj; [|discriminate]. cbn.
    apply Nat.ltb_lt in Hb, Hi, Hj. intros H. inversion H. auto.
Qed.

Lemma existsb_false (X : Type) (f : X -> bool) (l : list X) :
  (forall x, In x l -> f x = false) -> existsb f l = false.
Proof.
  intros H. destruct (existsb f l) eqn:E; [|reflexivity].
  apply existsb_exists in E. destruct E as [x [Hx Hf]].
  rewrite (H x Hx) in Hf. discriminate.
Qed.

(** *** A loop over a filtered list ignores the entries whose body does
    nothing *)

Lemma foldM_filter_skip (S X : Type) (f : S -> X -> option S)
    (p q : X -> bool) (l : list X) :
  (forall x, In x l -> p x <> q x -> forall s, f s x = Some s) ->
  forall s, foldM f (filter p l) s = foldM f (filter q l) s.
Proof.
  induction l as [|x l IH]; intros H s; [reflexivity|].
  assert (IH' : forall s, foldM f (filter p l) s = foldM f (filter q l) s).
  { apply IH. intros y Hy. apply H. now right. }
  cbn [filter].
  destruct (p x) eqn:Hp, (q x) eqn:Hq; cbn [foldM].
  - destruct (f s x); cbn [bind]; [apply IH'|reflexivity].
  - rewrite (H x (or_introl eq_refl)) by congruence. cbn [bind]. apply IH'.
  - rewrite (H x (or_introl eq_refl)) by congruence. cbn [bind]. apply IH'.
  - apply IH'.
Qed.

(** *** The pad loop *)

Lemma pad_isolate_at (m : t3 bool) (bp : nat * nat) (b i j : nat) :
  at3 (pad_isolate m bp) b i j = at3 m b i j && negb (hits b i j bp).
Proof.
  unfold pad_isolate, hits. cbn.
  destruct (b =? fst bp), (i =? snd bp), (j =? snd bp), (at3 m b i j);
    reflexivity.
Qed.

Lemma pad_loop_at (l : list (nat * nat)) (m : t3 bool) (b i j : nat) :
  at3 (fold_left pad_isolate l m) b i j
  = at3 m b i j && negb (existsb (hits b i j) l).
Proof.
  revert m. induction l as [|bp l IH]; intros m; cbn [fold_left existsb].
  - now rewrite andb_true_r.
  - rewrite IH, pad_isolate_at.
    destruct (at3 m b i j), (hits b i j bp), (existsb (hits b i j) l);
      reflexivity.
Qed.

Lemma pad_loop_dims (l : list (nat * nat)) (m : t3 bool) :
  dim0 (fold_left pad_isolate l m) = dim0 m
  /\ dim1 (fold_left pad_isolate l m) = dim1 m
  /\ dim2 (fold_left pad_isolate l m) = dim2 m.
Proof.
  revert m. induction l as [|bp l IH]; intros m; cbn [fold_left]; [auto|].
  destruct (IH (pad_isolate m bp)) as [H0 [H1 H2]].
  rewrite H0, H1, H2. auto.
Qed.

(** *** The adjacency loop *)

Lemma in_span_out_of_table (np : NodePos) (tl n b u i : nat)
    (npb : list (Z * Z)) :
  nth_error np b = Some npb -> length npb <= u -> in_span np tl n b u i = false.
Proof.
  intros Hb Hu. unfold in_span. rewrite Hb.
  apply nth_error_None in Hu. now rewrite Hu.
Qed.

Lemma paint_step (tl : nat) (np : NodePos) (m m' : t3 bool)
    (buv : nat * nat * nat) :
  paint tl np m buv = Some m' ->
  (dim0 m' = dim0 m /\ dim1 m' = dim1 m /\ dim2 m' = dim2 m)
  /\ forall b i j,
       at3 m' b i j = at3 m b i j || painted np tl (dim1 m) (dim2 m) buv b i j.
Proof.
  destruct buv as [[b0 u] v]. unfold paint, painted. cbn [fst snd].
  destruct (nth_error np b0) as [npb|] eqn:Hb; cbn [bind]; [|discriminate].
  destruct ((length npb <=? u) || (length npb <=? v)) eqn:Hc.
  - intros H. inversion H; subst m'. split; [auto|]. intros b i j.
    apply orb_true_iff in Hc. destruct Hc as [Hc|Hc]; apply Nat.leb_le in Hc.
    + rewrite (@in_span_out_of_table np tl (dim1 m) b0 u i npb Hb Hc).
      now rewrite andb_false_r, orb_false_r.
    + rewrite (@in_span_out_of_table np tl (dim2 m) b0 v j npb Hb Hc).
      now rewrite andb_false_r, orb_false_r.
  - unfold in_span. rewrite Hb.
    destruct (nth_error npb u) as [su|]; cbn [bind]; [|discriminate].
    destruct (nth_error npb v) as [sv|]; cbn [bind]; [|discriminate].
    destruct (b0 <? dim0 m); [|discriminate].
    intros H. inversion H; subst m'. split; [cbn; auto|]. intros b i j. cbn.
    destruct (b =? b0); cbn; [|now rewrite orb_false_r].
    destruct (in_slice _ _ _ i && in_slice _ _ _ j), (at3 m b i j); reflexivity.
Qed.

Lemma paint_loop (tl : nat) (np : NodePos) (l : list (nat * nat * nat)) :
  forall m m', foldM (paint tl np) l m = Some m' ->
  (dim0 m' = dim0 m /\ dim1 m' = dim1 m /\ dim2 m' = dim2 m)
  /\ forall b i j,
       at3 m' b i j
       = at3 m b i j
         || existsb (fun buv => painted np tl (dim1 m) (dim2 m) buv b i j) l.
Proof.
  induction l as [|buv l IH]; intros m m' H; cbn [foldM existsb] in *.
  - inversion H; subst. split; [auto|]. intros. now rewrite orb_false_r.
  - destruct (paint tl np m buv) as [m1|] eqn:E; cbn [bind] in H;
      [|discriminate].
    apply paint_step in E. destruct E as [[E0 [E1 E2]] E].
    apply IH in H. destruct H as [[H0 [H1 H2]] H].
    split; [rewrite H0, H1, H2; auto|]. intros b i j.
    rewrite H, E, E1, E2. now rewrite orb_assoc.
Qed.

(** *** The mask before the adjacency loop *)

(** The value lines 38-41 give to the entry [(i, j)] of every batch
    element of a mask over [seq_len] tokens. *)
Lemma base_at (bsz seq_len tl b i j : nat) :
  at3 (assign3 (fun _ i j => i =? j) true
         (assign3 (fun _ _ j => in_slice seq_len 0 (Z.of_nat tl) j) true
            (assign3 (fun _ i _ => in_slice seq_len 0 (Z.of_nat tl) i) true
               (zeros3 bsz seq_len seq_len)))) b i j
  = (i =? j) || in_slice seq_len 0 (Z.of_nat tl) j
    || in_slice seq_len 0 (Z.of_nat tl) i.
Proof.
  cbn. destruct (i =? j), (in_slice seq_len 0 (Z.of_nat tl) j),
         (in_slice seq_len 0 (Z.of_nat tl) i); reflexivity.
Qed.

Lemma in_text_slice (seq_len tl i : nat) :
  in_slice seq_len 0 (Z.of_nat tl) i = true <-> i < tl /\ i < seq_len.
Proof.
  unfold in_slice, slice_bound.
  destruct (Z.of_nat tl <? 0)%Z eqn:E; [apply Z.ltb_lt in E; lia|].
  cbn [Z.ltb Z.compare]. rewrite andb_true_iff, Z.leb_le, Z.ltb_lt. lia.
Qed.

(** The whole builder, entry by entry. *)
Lemma get_attention_mask_at (adj : t3 bool) (np : NodePos) (ids : t2 Z)
    (tl : nat) (m : t3 bool) :
  get_attention_mask adj np ids tl = Some m ->
  (dim0 m = rows ids /\ dim1 m = cols ids /\ dim2 m = cols ids)
  /\ forall b i j,
       at3 m b i j
       = ((i =? j) || in_slice (cols ids) 0 (Z.of_nat tl) j
          || in_slice (cols ids) 0 (Z.of_nat tl) i)
         && negb (existsb (hits b i j)
                    (where2 (map2 (fun x => (x =? 0)%Z) ids)))
         || existsb (fun buv => painted np tl (cols ids) (cols ids) buv b i j)
              (where3 adj).
Proof.
  unfold get_attention_mask. intros H. apply paint_loop in H.
  destruct H as [[H0 [H1 H2]] H].
  destruct (pad_loop_dims (where2 (map2 (fun x => (x =? 0)%Z) ids))
    (assign3 (fun _ i j => i =? j) true
       (assign3 (fun _ _ j => in_slice (cols ids) 0 (Z.of_nat tl) j) true
          (assign3 (fun _ i _ => in_slice (cols ids) 0 (Z.of_nat tl) i) true
             (zeros3 (rows ids) (cols ids) (cols ids))))))
    as [P0 [P1 P2]].
  rewrite P0 in H0. rewrite P1 in H1, H. rewrite P2 in H2, H.
  cbn in H0, H1, H2. split; [auto|]. intros b i j.
  rewrite H, pad_loop_at, base_at. reflexivity.
Qed.

(** *** Pad positions and the pad loop *)

Lemma pad_hits (ids : t2 Z) (b p i j : nat) :
  get2 ids b p = Some 0%Z -> i = p \/ j = p ->
  existsb (hits b i j) (where2 (map2 (fun x => (x =? 0)%Z) ids)) = true.
Proof.
  intros Hp Hij. apply existsb_exists. exists (b, p). split.
  - apply in_where2. unfold get2 in *. cbn [rows cols at2 map2].
    destruct ((b <? rows ids) && (p <? cols ids)); [|discriminate].
    inversion Hp as [E]. now rewrite E.
  - unfold hits. cbn [fst snd]. rewrite Nat.eqb_refl. cbn.
    apply orb_true_iff. destruct Hij as [->| ->]; rewrite Nat.eqb_refl; auto.
Qed.

Lemma nonpad_no_hits (ids : t2 Z) (b i j : nat) :
  at2 ids b i <> 0%Z -> at2 ids b j <> 0%Z ->
  existsb (hits b i j) (where2 (map2 (fun x => (x =? 0)%Z) ids)) = false.
Proof.
  intros Hi Hj. apply existsb_false. intros [b' p] Hin.
  apply in_where2 in Hin. unfold get2 in Hin. cbn [rows cols at2 map2] in Hin.
  destruct ((b' <? rows ids) && (p <? cols ids)); [|discriminate].
  inversion Hin as [E]. apply Z.eqb_eq in E.
  unfold hits. cbn [fst snd].
  destruct (b =? b') eqn:Eb; [|reflexivity]. apply Nat.eqb_eq in Eb. subst b'.
  destruct (i =? p) eqn:Ei; [apply Nat.eqb_eq in Ei; congruence|].
  destruct (j =? p) eqn:Ej; [apply Nat.eqb_eq in Ej; congruence|].
  reflexivity.
Qed.

Lemma get3_in_shape (A : Type) (t : t3 A) (b i j : nat) :
  b < dim0 t -> i < dim1 t -> j < dim2 t -> get3 t b i j = Some (at3 t b i j).
Proof.
  intros Hb Hi Hj. unfold get3.
  apply Nat.ltb_lt in Hb, Hi, Hj. now rewrite Hb, Hi, Hj.
Qed.

Lemma get2_Some (A : Type) (t : t2 A) (i j : nat) (x : A) :
  get2 t i j = Some x -> i < rows t /\ j < cols t /\ at2 t i j = x.
Proof.
  unfold get2. destruct (i <? rows t) eqn:Hi; [|discriminate].
  destruct (j <? cols t) eqn:Hj; [|discriminate]. cbn.
  apply Nat.ltb_lt in Hi, Hj. intros H. inversion H. auto.
Qed.

Lemma get3_Some (A : Type) (t : t3 A) (b i j : nat) (x : A) :
  get3 t b i j = Some x ->
  b < dim0 t /\ i < dim1 t /\ j < dim2 t /\ at3 t b i j = x.
Proof.
  unfold get3. destruct (b <? dim0 t) eqn:Hb; [|discriminate].
  destruct (i <? dim1 t) eqn:Hi; [|discriminate].
  destruct (j <? dim2 t) eqn:Hj; [|discriminate]. cbn.
  apply Nat.ltb_lt in Hb, Hi, Hj. intros H. inversion H. auto.
Qed.

(** C3, as the code has it.  When no node span of batch element [b]
    contains the pad position [p], row [p] and column [p] of the mask of
    [b] are false everywhere, the diagonal entry included. *)
Theorem pad_isolation (adj : t3 bool) (np : NodePos) (ids : t2 Z) (tl : nat)
    (m : t3 bool) (b p : nat) :
  get_attention_mask adj np ids tl = Some m ->
  get2 ids b p = Some 0%Z ->
  (forall u, in_span np tl (cols ids) b u p = false) ->
  forall k, k < cols ids ->
    get3 m b p k = Some false /\ get3 m b k p = Some false.
Proof.
  intros Hm Hp Hspan k Hk.
  destruct (get_attention_mask_at _ _ _ _ Hm) as [[D0 [D1 D2]] At].
  destruct (get2_Some _ _ _ Hp) as [Hb [Hp' _]].
  assert (Hpaint : forall i j, i = p \/ j = p ->
            existsb (fun buv => painted np tl (cols ids) (cols ids) buv b i j)
                    (where3 adj) = false).
  { intros i j Hij. apply existsb_false. intros [[b' u] v] _.
    unfold painted. cbn [fst snd].
    destruct (b =? b') eqn:Eb; [|reflexivity].
    apply Nat.eqb_eq in Eb. subst b'.
    destruct Hij as [->| ->]; rewrite Hspan; cbn; [reflexivity|].
    now rewrite andb_false_r. }
  split; (rewrite get3_in_shape by lia); f_equal; rewrite At.
  - rewrite (Hpaint p k (or_introl eq_refl)).
    rewrite (@pad_hits ids b p p k Hp (or_introl eq_refl)).
    now rewrite andb_false_r.
  - rewrite (Hpaint k p (or_intror eq_refl)).
    rewrite (@pad_hits ids b p k p Hp (or_intror eq_refl)).
    now rewrite andb_false_r.
Qed.

Lemma pad_isolation_witness :
  exists m,
    get_attention_mask one_self_loop span_one_token ids_trailing_pad 1 = Some m
    /\ get2 ids_trailing_pad 0 2 = Some 0%Z
    /\ get3 m 0 2 0 = Some false /\ get3 m 0 0 2 = Some false.
Proof.
  eexists. split; [reflexivity|]. split; [reflexivity|].
  apply (@pad_isolation one_self_loop span_one_token ids_trailing_pad 1 _ 0 2).
  - reflexivity.
  - reflexivity.
  - intros [|u]; [reflexivity|]. unfold in_span, span_one_token.
    cbn [nth_error]. now destruct u.
  - cbn. lia.
Defined.

(** C3 as stated fails when a node span contains a pad position: with
    tokens [5; 7; 0], one text token and a node covering both graph
    tokens, the pad position 2 sees itself and position 1. *)
Lemma pad_inside_span_repainted :
  exists m,
    get_attention_mask one_self_loop span_two_tokens ids_trailing_pad 1 = Some m
    /\ get2 ids_trailing_pad 0 2 = Some 0%Z
    /\ get3 m 0 2 2 = Some true
    /\ get3 m 0 2 1 = Some true
    /\ get3 m 0 1 2 = Some true.
Proof. eexists. split; [reflexivity|]. repeat split. Qed.

(** C4, as the code has it.  A text row or a text column entry is true
    whenever neither its row position nor its column position is a pad. *)
Theorem text_visibility (adj : t3 bool) (np : NodePos) (ids : t2 Z)
    (tl : nat) (m : t3 bool) (b i j : nat) :
  get_attention_mask adj np ids tl = Some m ->
  b < rows ids -> i < cols ids -> j < cols ids ->
  at2 ids b i <> 0%Z -> at2 ids b j <> 0%Z ->
  i < tl \/ j < tl ->
  get3 m b i j = Some true.
Proof.
  intros Hm Hb Hi Hj Pi Pj Ht.
  destruct (get_attention_mask_at _ _ _ _ Hm) as [[D0 [D1 D2]] At].
  rewrite get3_in_shape by lia. f_equal. rewrite At.
  rewrite (nonpad_no_hits _ _ _ _ Pi Pj). cbn [negb]. rewrite andb_true_r.
  apply orb_true_iff. left. apply orb_true_iff.
  destruct Ht as [Ht|Ht].
  - right. apply in_text_slice. lia.
  - left. apply orb_true_iff. right. apply in_text_slice. lia.
Qed.

Lemma text_visibility_witness :
  exists m,
    get_attention_mask one_self_loop span_one_token ids_trailing_pad 1 = Some m
    /\ get3 m 0 0 1 = Some true.
Proof.
  eexists. split; [reflexivity|].
  apply (@text_visibility one_self_loop span_one_token ids_trailing_pad 1 _ 0 0 1);
    try reflexivity; cbn; try lia; discriminate.
Defined.

(** C4 as stated fails on a pad column: with tokens [5; 7; 0] and one
    text token, row 0 is a text row and its entry in column 2 is false. *)
Lemma text_row_cleared_at_pad :
  exists m,
    get_attention_mask one_self_loop span_one_token ids_trailing_pad 1 = Some m
    /\ 0 < 1
    /\ get3 m 0 0 2 = Some false
    /\ get3 m 0 2 0 = Some false.
Proof. eexists. split; [reflexivity|]. repeat split. lia. Qed.

(** C5, as the code has it.  When the adjacency indicator holds only
    self-loops, a true entry outside the text rows and columns is on the
    diagonal or has its row and its column inside the span of one node. *)
Theorem self_loops_paint_node_blocks (adj : t3 bool) (np : NodePos)
    (ids : t2 Z) (tl : nat) (m : t3 bool) (b i j : nat) :
  (forall b' u v, get3 adj b' u v = Some true -> u = v) ->
  get_attention_mask adj np ids tl = Some m ->
  get3 m b i j = Some true ->
  tl <= i -> tl <= j ->
  i = j
  \/ exists u, in_span np tl (cols ids) b u i = true
               /\ in_span np tl (cols ids) b u j = true.
Proof.
  intros Hdiag Hm Hget Hi Hj.
  destruct (get_attention_mask_at _ _ _ _ Hm) as [_ At].
  apply get3_Some in Hget. destruct Hget as [_ [_ [_ Hget]]].
  rewrite At in Hget. apply orb_true_iff in Hget. destruct Hget as [H|H].
  - left. apply andb_true_iff in H. destruct H as [H _].
    apply orb_true_iff in H. destruct H as [H|H].
    + apply orb_true_iff in H. destruct H as [H|H].
      * now apply Nat.eqb_eq.
      * apply in_text_slice in H. lia.
    + apply in_text_slice in H. lia.
  - right. apply existsb_exists in H. destruct H as [[[b' u] v] [Hin H]].
    apply in_where3 in Hin. apply Hdiag in Hin. subst v.
    unfold painted in H. cbn [fst snd] in H.
    apply andb_true_iff in H. destruct H as [H Hv].
    apply andb_true_iff in H. destruct H as [Hb Hu].
    apply Nat.eqb_eq in Hb. subst b'. exists u. auto.
Qed.

Lemma self_loops_paint_node_blocks_witness :
  exists m,
    get_attention_mask one_self_loop span_two_tokens ids_no_pad 1 = Some m
    /\ (1 = 2
        \/ exists u, in_span span_two_tokens 1 (cols ids_no_pad) 0 u 1 = true
                     /\ in_span span_two_tokens 1 (cols ids_no_pad) 0 u 2 = true).
Proof.
  eexists. split; [reflexivity|].
  eapply (@self_loops_paint_node_blocks one_self_loop span_two_tokens
            ids_no_pad 1 _ 0 1 2).
  - intros b' u v H. apply get3_Some in H. cbn in H. lia.
  - reflexivity.
  - reflexivity.
  - lia.
  - lia.
Defined.

(** C5 as stated fails for a node of two tokens: the adjacency indicator
    holds the self-loop only, yet the entry (1, 2), outside the text
    block and off the diagonal, is true. *)
Lemma self_loop_paints_off_diagonal :
  exists m,
    get_attention_mask one_self_loop span_two_tokens ids_no_pad 1 = Some m
    /\ where3 one_self_loop = [(0, 0, 0)]
    /\ get3 m 0 1 2 = Some true
    /\ 1 <= 1 /\ 1 <= 2 /\ 1 <> 2.
Proof. eexists. split; [reflexivity|]. repeat split; lia. Qed.

(** C10.  An adjacency entry [(u, v)] of batch element [b] with [u] or
    [v] outside the node-position table of [b] paints nothing, and the
    mask is the one built from the indicator without that entry. *)
Theorem out_of_table_entry_skipped (adj : t3 bool) (np : NodePos)
    (ids : t2 Z) (tl b u v : nat) (npb : list (Z * Z)) :
  nth_error np b = Some npb ->
  length npb <= u \/ length npb <= v ->
  (forall m, paint tl np m (b, u, v) = Some m)
  /\ get_attention_mask (clear_entry adj b u v) np ids tl
     = get_attention_mask adj np ids tl.
Proof.
  intros Hb Huv.
  assert (Hskip : forall m, paint tl np m (b, u, v) = Some m).
  { intros m. unfold paint. cbn [fst snd]. rewrite Hb. cbn [bind].
    assert (E : (length npb <=? u) || (length npb <=? v) = true).
    { apply orb_true_iff. destruct Huv; [left|right]; now apply Nat.leb_le. }
    now rewrite E. }
  split; [exact Hskip|].
  unfold get_attention_mask, where3, clear_entry.
  cbn [dim0 dim1 dim2 at3 assign3].
  apply foldM_filter_skip. intros [[b' u'] v'] _ Hne s. cbn [fst snd] in Hne.
  destruct ((b' =? b) && (u' =? u) && (v' =? v)) eqn:E; [|congruence].
  apply andb_true_iff in E. destruct E as [E Ev].
  apply andb_true_iff in E. destruct E as [Eb Eu].
  apply Nat.eqb_eq in Eb, Eu, Ev. subst. apply Hskip.
Qed.

Lemma out_of_table_entry_skipped_witness :
  get3 two_nodes_adjacent 0 1 0 = Some true
  /\ (forall m, paint 1 span_one_token m (0, 1, 0) = Some m)
  /\ get_attention_mask (clear_entry two_nodes_adjacent 0 1 0)
       span_one_token ids_trailing_pad 1
     = get_attention_mask two_nodes_adjacent span_one_token ids_trailing_pad 1.
Proof.
  split; [reflexivity|].
  apply (@out_of_table_entry_skipped two_nodes_adjacent span_one_token
           ids_trailing_pad 1 0 1 0 [(0, 1)%Z]).
  - reflexivity.
  - left. cbn. lia.
Defined.

(** *** The builder returns a mask *)

Lemma foldM_total (S X : Type) (f : S -> X -> option S) (I : S -> Prop)
    (l : list X) :
  (forall s x, In x l -> I s -> exists s', f s x = Some s' /\ I s') ->
  forall s, I s -> exists s', foldM f l s = Some s'.
Proof.
  induction l as [|x l IH]; intros H s Hs; cbn [foldM]; [eauto|].
  destruct (H s x (or_introl eq_refl) Hs) as [s1 [E H1]].
  rewrite E. cbn [bind]. apply IH; [|exact H1].
  intros s2 y Hy. apply H. now right.
Qed.

Lemma paint_total (tl : nat) (np : NodePos) (m : t3 bool) (b u v : nat) :
  b < length np -> b < dim0 m -> exists m', paint tl np m (b, u, v) = Some m'.
Proof.
  intros Hnp Hb. unfold paint. cbn [fst snd].
  destruct (nth_error np b) as [npb|] eqn:E;
    [|apply nth_error_None in E; lia].
  cbn [bind]. destruct ((length npb <=? u) || (length npb <=? v)) eqn:G;
    [eauto|].
  apply orb_false_iff in G. destruct G as [Gu Gv].
  apply Nat.leb_gt in Gu, Gv.
  destruct (nth_error npb u) eqn:Eu; [|apply nth_error_None in Eu; lia].
  destruct (nth_error npb v) eqn:Ev; [|apply nth_error_None in Ev; lia].
  cbn [bind]. apply Nat.ltb_lt in Hb. rewrite Hb. eauto.
Qed.

(** When every batch element of the adjacency indicator has a
    node-position table and a row of token ids, no index is out of range
    and the builder returns a mask. *)
Lemma get_attention_mask_total (adj : t3 bool) (np : NodePos) (ids : t2 Z)
    (tl : nat) :
  dim0 adj <= length np -> dim0 adj <= rows ids ->
  exists m, get_attention_mask adj np ids tl = Some m.
Proof.
  intros Hnp Hids. unfold get_attention_mask.
  apply foldM_total with (I := fun m => dim0 m = rows ids).
  - intros m [[b u] v] Hin Hm. apply in_where3 in Hin.
    apply get3_Some in Hin. destruct Hin as [Hb _].
    destruct (@paint_total tl np m b u v) as [m' E]; try lia.
    exists m'. split; [exact E|].
    apply paint_step in E. destruct E as [[E0 _] _]. congruence.
  - destruct (pad_loop_dims (where2 (map2 (fun x => (x =? 0)%Z) ids))
      (assign3 (fun _ i j => i =? j) true
         (assign3 (fun _ _ j => in_slice (cols ids) 0 (Z.of_nat tl) j) true
            (assign3 (fun _ i _ => in_slice (cols ids) 0 (Z.of_nat tl) i) true
               (zeros3 (rows ids) (cols ids) (cols ids))))))
      as [P0 _].
    rewrite P0. reflexivity.
Qed.

End MaskFacts.

(** ** Attention over masked memory *)

Module AttnFacts.

Import Tensor Fl NN Attn.

Lemma bind_Some (A B : Type) (m : option A) (k : A -> option B) (y : B) :
  bind m k = Some y -> exists x, m = Some x /\ k x = Some y.
Proof. destruct m as [x|]; cbn; [eauto|discriminate]. Qed.

Lemma masked_fill_neginf_at (align : t3 fl) (mask : t2 bool) (r : t3 xfl) :
  masked_fill_neginf align mask = Some r ->
  dim2 r = dim2 align
  /\ forall b t s,
       at3 r b t s
       = if excluded mask b s then XNegInf else XVal (at3 align b t s).
Proof.
  unfold masked_fill_neginf.
  destruct (broadcastable _ _ && broadcastable _ _); [|discriminate].
  intros H. inversion H; subst r. cbn. auto.
Qed.

Lemma softmax_row_masked (n : nat) (row : nat -> xfl) (s s' : nat) :
  row s = XNegInf ->
  s' < n -> is_neginf (row s') = false ->
  (forall k, k < n -> is_nan (row k) = false) ->
  softmax_row n row s = Num 0.
Proof.
  intros Hs Hs' Hv Hnan. unfold softmax_row.
  assert (E1 : existsb (fun k => is_nan (row k)) (seq 0 n) = false).
  { destruct (existsb _ _) eqn:E; [|reflexivity].
    apply existsb_exists in E. destruct E as [k [Hk E]].
    apply in_seq in Hk. rewrite Hnan in E by lia. discriminate. }
  assert (E2 : forallb (fun k => is_neginf (row k)) (seq 0 n) = false).
  { destruct (forallb _ _) eqn:E; [|reflexivity].
    rewrite forallb_forall in E.
    rewrite (E s') in Hv by (apply in_seq; lia). discriminate. }
  rewrite E1, E2, Hs. cbn. f_equal. unfold Rdiv. apply Rmult_0_l.
Qed.

Lemma softmax_row_all_masked (n : nat) (row : nat -> xfl) (s : nat) :
  (forall k, k < n -> row k = XNegInf) -> softmax_row n row s = NaN.
Proof.
  intros H. unfold softmax_row.
  assert (E : forallb (fun k => is_neginf (row k)) (seq 0 n) = true).
  { apply forallb_forall. intros k Hk. apply in_seq in Hk.
    now rewrite H by lia. }
  rewrite E. now rewrite orb_true_r.
Qed.

(** C9, as the code has it.  A memory position excluded by the mask
    receives the score [-inf]; its attention weight is exactly 0 when
    some position of the same batch element is not excluded and no score
    of the step is NaN. *)
Theorem masked_position_weight (a : Attention) (inputs mems : t3 fl)
    (mm : MemMasks) (align : t3 xfl) (mask : t2 bool) (h w : t3 fl)
    (b t s : nat) :
  masked_align a inputs mems (Some mm) = Some align ->
  mask_of mm (dim2 align) = Some mask ->
  forward a inputs mems (Some mm) = Some (h, w) ->
  excluded mask b s = true ->
  at3 align b t s = XNegInf
  /\ ((exists s', s' < dim2 align /\ excluded mask b s' = false) ->
      (forall k, k < dim2 align -> at3 align b t k <> XVal NaN) ->
      at3 w b t s = Num 0).
Proof.
  intros Ha Hmask Hf Hex.
  assert (Hw : w = softmax align).
  { unfold forward in Hf. rewrite Ha in Hf. cbn [bind] in Hf.
    apply bind_Some in Hf. destruct Hf as [c [_ Hf]].
    apply bind_Some in Hf. destruct Hf as [x [_ Hf]].
    apply bind_Some in Hf. destruct Hf as [y [_ Hf]].
    now inversion Hf. }
  unfold masked_align in Ha.
  apply bind_Some in Ha. destruct Ha as [al [_ Ha]].
  apply bind_Some in Ha. destruct Ha as [mask' [Hmask' Ha]].
  apply masked_fill_neginf_at in Ha. destruct Ha as [Hd At].
  rewrite Hd in Hmask. rewrite Hmask in Hmask'. inversion Hmask'; subst mask'.
  assert (Hs : at3 align b t s = XNegInf) by (now rewrite At, Hex).
  split; [exact Hs|].
  intros [s' [Hs' Hv]] Hnan. subst w. cbn [at3 softmax].
  apply softmax_row_masked with (s' := s'); auto.
  - rewrite At, Hv. reflexivity.
  - intros k Hk. specialize (Hnan k Hk).
    destruct (at3 align b t k) as [[x|]|]; cbn; congruence.
Qed.

Lemma masked_position_weight_witness :
  exists align h w,
    masked_align zero_attention (zeros_fl 1) (zeros_fl 2) (Some second_masked)
    = Some align
    /\ forward zero_attention (zeros_fl 1) (zeros_fl 2) (Some second_masked)
       = Some (h, w)
    /\ at3 align 0 0 1 = XNegInf
    /\ at3 w 0 0 1 = Num 0.
Proof.
  do 3 eexists. split; [reflexivity|]. split; [reflexivity|].
  pose proof (@masked_position_weight zero_attention (zeros_fl 1) (zeros_fl 2)
                second_masked _ _ _ _ 0 0 1
                eq_refl eq_refl eq_refl eq_refl) as [H1 H2].
  split; [exact H1|]. apply H2.
  - exists 0. split; [cbn; lia|reflexivity].
  - intros [|[|k]] Hk; cbn; try discriminate. cbn in Hk. lia.
Defined.

(** C9 as stated fails when every memory position of a batch element is
    excluded: the single position is masked, its score is [-inf], and
    its attention weight is NaN, not 0.  It also fails when a score of
    the step is NaN: with a NaN memory and the second of two positions
    masked, the weight of the masked position is NaN. *)
Lemma all_masked_weight_nan :
  (exists h w,
     forward zero_attention (zeros_fl 1) (zeros_fl 1) (Some all_masked)
     = Some (h, w)
     /\ mask_of all_masked 1 = Some (of_list2 false [[false]])
     /\ excluded (of_list2 false [[false]]) 0 0 = true
     /\ at3 w 0 0 0 = NaN
     /\ at3 w 0 0 0 <> Num 0)
  /\ (exists h w,
        forward zero_attention (zeros_fl 1) (nan_fl 2) (Some second_masked)
        = Some (h, w)
        /\ mask_of second_masked 2 = Some (of_list2 false [[true; false]])
        /\ excluded (of_list2 false [[true; false]]) 0 1 = true
        /\ at3 w 0 0 1 = NaN
        /\ at3 w 0 0 1 <> Num 0).
Proof.
  split; do 2 eexists; (split; [reflexivity|]); repeat split;
    cbn; discriminate.
Qed.

End AttnFacts.

(** ** Weight tying in the decoder *)

Module DecFacts.

Import Tensor Fl NN Attn Dec.

Section WithTorch.

Context {T : Torch}.

(** [F.linear] is the product with the transposed weight. *)
Lemma F_linear_matmul_transpose (x : t3 fl) (w : t2 fl) :
  F_linear x w = matmul x (transpose w).
Proof. reflexivity. Qed.

Lemma F_linear_Some (x : t3 fl) (w : t2 fl) (y : t3 fl) :
  F_linear x w = Some y ->
  dim2 y = rows w
  /\ forall b t k,
       at3 y b t k = fsum (cols w) (fun d => fmul (at3 x b t d) (at2 w k d)).
Proof.
  unfold F_linear. destruct (dim2 x =? cols w); [|discriminate].
  intros H. inversion H; subst y. cbn. auto.
Qed.

Lemma Embeddings_forward_at (e : Embeddings) (x : t2 Z) (emb : t3 fl) :
  Embeddings_forward e x = Some emb ->
  forall b t d,
    at3 emb b t d
    = fmul (at2 (lut_weight e) (Z.to_nat (at2 x b t)) d)
           (Num (sqrt (INR (d_model e)))).
Proof.
  unfold Embeddings_forward.
  destruct (ids_in_range _ _); [|discriminate].
  intros H. inversion H; subst emb. reflexivity.
Qed.

(** C7.  The node logits are the attention output (after the optional
    resizing and dropout) times the transpose of [node_embeds.lut.weight],
    the matrix whose rows the input embedding lookup returns. *)
Theorem node_logits_weight_tied (dec : Decoder) (enc : EncInfo) (nodes : t2 Z)
    (lens : t1) (init0 : option Hidden) (rnn : t3 fl) (h : Hidden)
    (logits : t3 fl) :
  node_forward dec enc nodes lens init0 = Some (rnn, h, logits) ->
  exists emb hid,
    Embeddings_forward (node_embeds dec) nodes = Some emb
    /\ (forall b t d,
          at3 emb b t d
          = fmul (at2 (lut_weight (node_embeds dec)) (Z.to_nat (at2 nodes b t)) d)
                 (Num (sqrt (INR (d_model (node_embeds dec))))))
    /\ node_hidden dec enc nodes lens init0 = Some (rnn, h, hid)
    /\ matmul (dropout hid) (transpose (lut_weight (node_embeds dec)))
       = Some logits
    /\ dim2 logits = rows (lut_weight (node_embeds dec))
    /\ forall b t k,
         at3 logits b t k
         = fsum (cols (lut_weight (node_embeds dec)))
             (fun d => fmul (at3 (dropout hid) b t d)
                            (at2 (lut_weight (node_embeds dec)) k d)).
Proof.
  intros H. unfold node_forward in H.
  apply AttnFacts.bind_Some in H. destruct H as [[[rnn' h'] hid] [Hh H]].
  apply AttnFacts.bind_Some in H. destruct H as [out [Hl H]].
  cbn [fst snd] in *. inversion H; subst rnn' h' out. clear H.
  assert (He : exists emb, Embeddings_forward (node_embeds dec) nodes = Some emb).
  { unfold node_hidden in Hh.
    apply AttnFacts.bind_Some in Hh. destruct Hh as [emb [He _]]. eauto. }
  destruct He as [emb He]. exists emb, hid.
  split; [exact He|].
  split; [exact (Embeddings_forward_at _ _ He)|].
  split; [exact Hh|].
  split; [rewrite <- F_linear_matmul_transpose; exact Hl|].
  exact (F_linear_Some _ _ Hl).
Qed.

Lemma edge_forward_projection (dec : Decoder) (enc : EncInfo) (edges : t2 Z)
    (src tgt : t3 fl) (init0 : option Hidden) (rnn : t3 fl) (h : Hidden)
    (logits : t3 fl) :
  edge_forward dec enc edges src tgt init0 = Some (rnn, h, logits) ->
  exists hid, F_linear (dropout hid) (lut_weight (edge_embeds dec)) = Some logits.
Proof.
  intros H. unfold edge_forward in H.
  apply AttnFacts.bind_Some in H. destruct H as [e1 [_ H]].
  apply AttnFacts.bind_Some in H. destruct H as [e2 [_ H]].
  apply AttnFacts.bind_Some in H. destruct H as [ri [_ H]].
  apply AttnFacts.bind_Some in H. destruct H as [rh [_ H]].
  apply AttnFacts.bind_Some in H. destruct H as [ca [_ H]].
  apply AttnFacts.bind_Some in H. destruct H as [hid [_ H]].
  apply AttnFacts.bind_Some in H. destruct H as [out [Hl H]].
  inversion H; subst. eauto.
Qed.

(** C8, as the code has it.  In a model built by [GraphTrans.__init__]
    the edge embedding table is the node embedding table, and the edge
    logits, projected through it, have one score per node symbol. *)
Theorem edge_logits_width (args : Args) (node_dict edge_dict : Dictionary)
    (enc : EncInfo) (edges : t2 Z) (src tgt : t3 fl) (init0 : option Hidden)
    (rnn : t3 fl) (h : Hidden) (logits : t3 fl) :
  edge_forward (graph_dec (GraphTrans_new args node_dict edge_dict))
    enc edges src tgt init0 = Some (rnn, h, logits) ->
  edge_embeds (graph_dec (GraphTrans_new args node_dict edge_dict))
  = node_embeds (graph_dec (GraphTrans_new args node_dict edge_dict))
  /\ (exists hid,
        matmul (dropout hid)
          (transpose (lut_weight
             (edge_embeds (graph_dec (GraphTrans_new args node_dict edge_dict)))))
        = Some logits)
  /\ dim2 logits = dict_len node_dict.
Proof.
  intros H. split; [reflexivity|].
  destruct (edge_forward_projection _ _ _ _ _ _ H) as [hid Hl].
  split.
  - exists hid. rewrite <- F_linear_matmul_transpose. exact Hl.
  - apply F_linear_Some in Hl. destruct Hl as [Hd _]. exact Hd.
Qed.

End WithTorch.

Lemma node_logits_weight_tied_witness :
  match node_forward (T := sample_torch)
          (graph_dec (GraphTrans_new sample_args three_nodes two_edges))
          sample_enc (of_list2 0%Z [[1; 2]]%Z) (mk1 1 (fun _ => 2%Z)) None
  with
  | Some r =>
      dim2 (snd r)
      = rows (lut_weight (node_embeds (T := sample_torch)
          (graph_dec (GraphTrans_new sample_args three_nodes two_edges))))
  | None => False
  end.
Proof.
  destruct (node_forward (T := sample_torch)
              (graph_dec (GraphTrans_new sample_args three_nodes two_edges))
              sample_enc (of_list2 0%Z [[1; 2]]%Z) (mk1 1 (fun _ => 2%Z)) None)
    as [[[rnn h] logits]|] eqn:E; [|discriminate E].
  destruct (node_logits_weight_tied _ _ _ _ _ E)
    as [emb [hid [_ [_ [_ [_ [Hd _]]]]]]].
  exact Hd.
Defined.

Lemma edge_logits_width_witness :
  match edge_forward (T := sample_torch)
          (graph_dec (GraphTrans_new sample_args three_nodes two_edges))
          sample_enc (of_list2 0%Z [[1]]%Z) (zeros_fl 1) (zeros_fl 1) None
  with
  | Some r => dim2 (snd r) = dict_len three_nodes
  | None => False
  end.
Proof.
  destruct (edge_forward (T := sample_torch)
              (graph_dec (GraphTrans_new sample_args three_nodes two_edges))
              sample_enc (of_list2 0%Z [[1]]%Z) (zeros_fl 1) (zeros_fl 1) None)
    as [[[rnn h] logits]|] eqn:E; [|discriminate E].
  exact (proj2 (proj2 (edge_logits_width _ _ _ _ _ _ _ _ E))).
Defined.

(** C8 as stated fails when the dictionaries differ in size: with three
    node symbols and two edge symbols the edge logits have width 3. *)
Lemma edge_logits_not_edge_vocab :
  match edge_forward (T := sample_torch)
          (graph_dec (GraphTrans_new sample_args three_nodes two_edges))
          sample_enc (of_list2 0%Z [[1]]%Z) (zeros_fl 1) (zeros_fl 1) None
  with
  | Some r => dim2 (snd r) = 3 /\ dim2 (snd r) <> dict_len two_edges
  | None => False
  end.
Proof.
  destruct (edge_forward (T := sample_torch)
              (graph_dec (GraphTrans_new sample_args three_nodes two_edges))
              sample_enc (of_list2 0%Z [[1]]%Z) (zeros_fl 1) (zeros_fl 1) None)
    as [[[rnn h] logits]|] eqn:E; [|discriminate E].
  assert (Hd : dim2 logits = 3).
  { destruct (edge_forward_projection _ _ _ _ _ _ E) as [hid Hl].
    apply F_linear_Some in Hl. destruct Hl as [Hd _]. exact Hd. }
  cbn [snd]. rewrite Hd. split; [reflexivity|]. cbn. discriminate.
Qed.

End DecFacts.

(** ** The loss *)

Module LossFacts.

Import Tensor Fl NN Attn Dec Loss.

(** *** Sums *)

Lemma fadd_assoc (a b c : fl) : fadd (fadd a b) c = fadd a (fadd b c).
Proof.
  destruct a, b, c; cbn; try reflexivity. f_equal. apply Rplus_assoc.
Qed.

Lemma fadd_0_l (a : fl) : fadd (Num 0%R) a = a.
Proof. destruct a; cbn; [f_equal; apply Rplus_0_l|reflexivity]. Qed.

Lemma fadd_0_r (a : fl) : fadd a (Num 0%R) = a.
Proof. destruct a; cbn; [f_equal; apply Rplus_0_r|reflexivity]. Qed.

Lemma fsum_ext (n : nat) (f g : nat -> fl) :
  (forall k, k < n -> f k = g k) -> fsum n f = fsum n g.
Proof.
  induction n as [|n IH]; intros H; cbn [fsum]; [reflexivity|].
  rewrite IH by (intros k Hk; apply H; lia). now rewrite H by lia.
Qed.

Lemma fsum_add (n m : nat) (f : nat -> fl) :
  fsum (n + m) f = fadd (fsum n f) (fsum m (fun k => f (n + k))).
Proof.
  induction m as [|m IH].
  - rewrite Nat.add_0_r. cbn [fsum]. now rewrite fadd_0_r.
  - rewrite Nat.add_succ_r. cbn [fsum]. rewrite IH. apply fadd_assoc.
Qed.

Lemma fsum_zero (n : nat) (f : nat -> fl) :
  (forall k, k < n -> f k = Num 0%R) -> fsum n f = Num 0%R.
Proof.
  induction n as [|n IH]; intros H; cbn [fsum]; [reflexivity|].
  rewrite IH by (intros k Hk; apply H; lia). rewrite H by lia.
  apply fadd_0_l.
Qed.

(** A sum over the flattened positions is the double sum over rows and
    columns. *)
Lemma fsum_flat (B T : nat) (g : nat -> nat -> fl) :
  fsum (B * T) (fun k => g (k / T) (k mod T))
  = fsum B (fun b => fsum T (fun t => g b t)).
Proof.
  induction B as [|B IH]; [reflexivity|].
  rewrite Nat.mul_succ_l, fsum_add, IH. cbn [fsum]. f_equal.
  apply fsum_ext. intros k Hk.
  assert (HT : T <> 0) by lia.
  rewrite (Nat.div_add_l B T k HT), (Nat.div_small k T Hk), Nat.add_0_r.
  rewrite (Nat.add_comm (B * T) k), Nat.Div0.mod_add, (Nat.mod_small k T Hk).
  reflexivity.
Qed.

(** *** Loops *)

Lemma foldM_app (S X : Type) (f : S -> X -> option S) (l1 l2 : list X) (s : S) :
  foldM f (l1 ++ l2) s = (s' <- foldM f l1 s ;; foldM f l2 s').
Proof.
  revert s. induction l1 as [|x l1 IH]; intros s; cbn [app foldM bind].
  - reflexivity.
  - destruct (f s x); cbn [bind]; [apply IH|reflexivity].
Qed.

Lemma foldM_sum (N : nat) (term : nat -> option fl) (tm : nat -> fl) :
  (forall n, n < N -> term n = Some (tm n)) ->
  foldM (fun acc n => t <- term n ;; Some (fadd acc t)) (seq 0 N) (Num 0%R)
  = Some (fsum N tm).
Proof.
  induction N as [|N IH]; intros H; [reflexivity|].
  rewrite seq_S, foldM_app, IH by (intros n Hn; apply H; lia).
  cbn [bind foldM Nat.add]. rewrite H by lia. reflexivity.
Qed.

(** *** Views *)

Lemma flat3_row (x : t3 fl) (n j : nat) :
  j < dim2 x ->
  flat3 x (n * dim2 x + j) = at3 x (n / dim1 x) (n mod dim1 x) j.
Proof.
  intros Hj. unfold flat3.
  assert (HC : dim2 x <> 0) by lia.
  rewrite (Nat.mul_comm (dim1 x) (dim2 x)), <- Nat.Div0.div_div.
  rewrite (Nat.div_add_l n (dim2 x) j HC), (Nat.div_small j _ Hj), Nat.add_0_r.
  rewrite (Nat.add_comm (n * dim2 x) j), Nat.Div0.mod_add, (Nat.mod_small j _ Hj).
  reflexivity.
Qed.

Lemma view_rows_shaped (x : t3 fl) (B T : nat) :
  dim0 x = B -> dim1 x = T -> 0 < B * T ->
  view_rows x (B * T)
  = Some (mk2 (B * T) (dim2 x) (fun i j => flat3 x (i * dim2 x + j))).
Proof.
  intros H0 H1 Hpos. unfold view_rows, numel3. rewrite H0, H1.
  assert (Hn : B * T <> 0) by lia.
  apply Nat.eqb_neq in Hn as Hn'. rewrite Hn'.
  rewrite (Nat.mul_comm (B * T) (dim2 x)), Nat.Div0.mod_mul.
  rewrite Nat.div_mul by exact Hn. reflexivity.
Qed.

Lemma xent_at_ext (c : nat) (row row' : nat -> fl) (y : nat) :
  (forall k, k < c -> row k = row' k) -> y < c ->
  xent_at c row y = xent_at c row' y.
Proof.
  intros H Hy. unfold xent_at. rewrite (H y Hy). f_equal. f_equal.
  apply fsum_ext. intros k Hk. now rewrite H.
Qed.

(** *** One branch of the loss *)

Lemma position_term (l : CrossEntropyLoss) (y : t2 Z) (x : t3 fl) (n : nat) :
  dim1 x = cols y ->
  labels_ok (ignore_index l) (dim2 x) y ->
  n < rows y * cols y ->
  xent_term l (dim2 x) (fun j => flat3 x (n * dim2 x + j)) (flat2 y n)
  = Some (position_loss (ignore_index l) y x (n / cols y) (n mod cols y)).
Proof.
  intros H1 Hok Hn. unfold xent_term, position_loss, flat2.
  assert (HT : cols y <> 0) by (intros E; rewrite E in Hn; lia).
  assert (Hb : n / cols y < rows y).
  { apply Nat.Div0.div_lt_upper_bound. lia. }
  assert (Ht : n mod cols y < cols y) by (apply Nat.mod_upper_bound; exact HT).
  destruct (Z.eqb_spec (at2 y (n / cols y) (n mod cols y)) (ignore_index l))
    as [E|E]; [reflexivity|].
  destruct (Hok _ _ Hb Ht) as [Hp|Hr]; [contradiction|].
  assert (Hc : ((0 <=? at2 y (n / cols y) (n mod cols y))%Z
                && (at2 y (n / cols y) (n mod cols y) <? Z.of_nat (dim2 x))%Z)
               = true).
  { apply andb_true_iff. split; [apply Z.leb_le|apply Z.ltb_lt]; lia. }
  rewrite Hc. f_equal. apply xent_at_ext; [|lia].
  intros k Hk. rewrite flat3_row by exact Hk. now rewrite H1.
Qed.

Lemma branch_value (l : CrossEntropyLoss) (y : t2 Z) (x : t3 fl) :
  dim0 x = rows y -> dim1 x = cols y -> 0 < rows y * cols y ->
  labels_ok (ignore_index l) (dim2 x) y ->
  CrossEntropyLoss_forward l
    (mk2 (rows y * cols y) (dim2 x) (fun i j => flat3 x (i * dim2 x + j)))
    (mk1 (rows y * cols y) (flat2 y))
  = Some (branch_loss (ignore_index l) y x).
Proof.
  intros H0 H1 Hpos Hok. unfold CrossEntropyLoss_forward.
  cbn [rows cols at2 len1 at1]. rewrite Nat.eqb_refl.
  rewrite (@foldM_sum (rows y * cols y) _
             (fun n => position_loss (ignore_index l) y x
                         (n / cols y) (n mod cols y))).
  - f_equal. unfold branch_loss.
    apply (fsum_flat (rows y) (cols y)
             (fun b t => position_loss (ignore_index l) y x b t)).
  - intros n Hn. now apply position_term.
Qed.

(** A branch whose labels are all pad sums to 0. *)
Lemma branch_all_pad (pad : Z) (y : t2 Z) (x : t3 fl) :
  (forall b t, b < rows y -> t < cols y -> at2 y b t = pad) ->
  branch_loss pad y x = Num 0%R.
Proof.
  intros H. unfold branch_loss. apply fsum_zero. intros b Hb.
  apply fsum_zero. intros t Ht. unfold position_loss.
  rewrite (H b t Hb Ht), Z.eqb_refl. reflexivity.
Qed.

Section WithTorch.

Context {T : Torch}.

(** C6.  On a batch of [bsz] elements the loss is the sum of the
    cross-entropies of the node positions whose label is not the node
    pad id, plus the same sum over the edge positions, divided by [bsz];
    a branch whose labels are all pad adds 0. *)
Theorem compute_loss_value (self : GraphTrans) (nodes : t2 Z)
    (node_outputs : t3 fl) (edges : t2 Z) (edge_outputs : t3 fl) :
  dim0 node_outputs = rows nodes -> dim1 node_outputs = cols nodes ->
  rows edges = rows nodes ->
  dim0 edge_outputs = rows nodes -> dim1 edge_outputs = cols edges ->
  0 < rows nodes -> 0 < cols nodes -> 0 < cols edges ->
  labels_ok (ignore_index (node_xent self)) (dim2 node_outputs) nodes ->
  labels_ok (ignore_index (edge_xent self)) (dim2 edge_outputs) edges ->
  compute_loss self nodes node_outputs edges edge_outputs
  = Some (fdiv (fadd (branch_loss (ignore_index (node_xent self)) nodes node_outputs)
                     (branch_loss (ignore_index (edge_xent self)) edges edge_outputs))
               (Num (INR (rows nodes))))
  /\ ((forall b t, b < rows nodes -> t < cols nodes ->
         at2 nodes b t = ignore_index (node_xent self)) ->
      branch_loss (ignore_index (node_xent self)) nodes node_outputs = Num 0%R)
  /\ ((forall b t, b < rows edges -> t < cols edges ->
         at2 edges b t = ignore_index (edge_xent self)) ->
      branch_loss (ignore_index (edge_xent self)) edges edge_outputs = Num 0%R).
Proof.
  intros N0 N1 E E0 E1 Hb Ht He Hn Hed.
  split; [|split; apply branch_all_pad].
  unfold compute_loss, view_flat.
  rewrite Nat.eqb_refl. cbn [bind].
  rewrite (@view_rows_shaped node_outputs (rows nodes) (cols nodes) N0 N1)
    by nia.
  cbn [bind].
  rewrite (@branch_value (node_xent self) nodes node_outputs N0 N1)
    by (nia || exact Hn).
  cbn [bind].
  rewrite <- E. rewrite <- E in E0.
  rewrite Nat.eqb_refl. cbn [bind].
  rewrite (@view_rows_shaped edge_outputs (rows edges) (cols edges) E0 E1)
    by nia.
  cbn [bind].
  rewrite (@branch_value (edge_xent self) edges edge_outputs E0 E1)
    by (nia || exact Hed).
  cbn [bind]. reflexivity.
Qed.

End WithTorch.

Lemma compute_loss_value_witness :
  compute_loss (T := sample_torch)
    (GraphTrans_new sample_args three_nodes two_edges)
    sample_labels sample_logits sample_labels sample_logits
  = Some (fdiv (fadd (branch_loss 0 sample_labels sample_logits)
                     (branch_loss 0 sample_labels sample_logits))
               (Num (INR 1))).
Proof.
  assert (Hok : labels_ok 0 2 sample_labels).
  { intros b t Hb Ht. cbn in Hb, Ht.
    assert (b = 0) by lia. subst b.
    destruct t as [|[|t]]; [right|left|lia]; cbn; lia. }
  apply (@compute_loss_value sample_torch
           (GraphTrans_new sample_args three_nodes two_edges)
           sample_labels sample_logits sample_labels sample_logits
           eq_refl eq_refl eq_refl eq_refl eq_refl
           Nat.lt_0_1 Nat.lt_0_2 Nat.lt_0_2 Hok Hok).
Defined.

End LossFacts.

(** ** More on the structural attention mask *)

Module MaskExtra.

Import Py Tensor Mask MaskFacts.

Lemma no_hits_nonpad (ids : t2 Z) (b i j : nat) :
  b < rows ids -> i < cols ids -> j < cols ids ->
  existsb (hits b i j) (where2 (map2 (fun x => (x =? 0)%Z) ids)) = false ->
  at2 ids b i <> 0%Z /\ at2 ids b j <> 0%Z.
Proof.
  intros Hb Hi Hj H.
  assert (G : forall p, p < cols ids -> i = p \/ j = p -> at2 ids b p <> 0%Z).
  { intros p Hp Hij E.
    assert (Hg : get2 ids b p = Some 0%Z).
    { unfold get2. apply Nat.ltb_lt in Hb, Hp. now rewrite Hb, Hp, E. }
    rewrite (@pad_hits ids b p i j Hg Hij) in H. discriminate. }
  split; [apply (G i Hi)|apply (G j Hj)]; auto.
Qed.

(** When an entry of the mask is true. *)
Lemma mask_entry_spec (adj : t3 bool) (np : NodePos) (ids : t2 Z) (tl : nat)
    (m : t3 bool) (b i j : nat) :
  get_attention_mask adj np ids tl = Some m ->
  get3 m b i j = Some true <->
  b < rows ids /\ i < cols ids /\ j < cols ids
  /\ (((i = j \/ i < tl \/ j < tl)
       /\ at2 ids b i <> 0%Z /\ at2 ids b j <> 0%Z)
      \/ exists u v,
           get3 adj b u v = Some true
           /\ in_span np tl (cols ids) b u i = true
           /\ in_span np tl (cols ids) b v j = true).
Proof.
  intros Hm.
  destruct (get_attention_mask_at _ _ _ _ Hm) as [[D0 [D1 D2]] At].
  split.
  - intros H. apply get3_Some in H. destruct H as [Hb [Hi [Hj H]]].
    rewrite D0 in Hb. rewrite D1 in Hi. rewrite D2 in Hj.
    split; [exact Hb|]. split; [exact Hi|]. split; [exact Hj|].
    rewrite At in H. apply orb_true_iff in H. destruct H as [H|H].
    + left. apply andb_true_iff in H. destruct H as [Hbase Hpad].
      apply negb_true_iff in Hpad.
      split; [|exact (@no_hits_nonpad ids b i j Hb Hi Hj Hpad)].
      apply orb_true_iff in Hbase. destruct Hbase as [Hbase|Hbase].
      * apply orb_true_iff in Hbase. destruct Hbase as [E|E].
        -- left. now apply Nat.eqb_eq.
        -- right. right. apply in_text_slice in E. lia.
      * right. left. apply in_text_slice in Hbase. lia.
    + right. apply existsb_exists in H. destruct H as [[[b' u] v] [Hin H]].
      apply in_where3 in Hin. unfold painted in H. cbn [fst snd] in H.
      apply andb_true_iff in H. destruct H as [H Hv].
      apply andb_true_iff in H. destruct H as [Eb Hu].
      apply Nat.eqb_eq in Eb. subst b'. exists u, v. auto.
  - intros [Hb [Hi [Hj H]]]. rewrite get3_in_shape by lia. f_equal.
    rewrite At. apply orb_true_iff. destruct H as [[Hbase [Pi Pj]]|H].
    + left. rewrite (@nonpad_no_hits ids b i j Pi Pj). cbn [negb].
      rewrite andb_true_r. apply orb_true_iff.
      destruct Hbase as [E|[E|E]].
      * left. apply orb_true_iff. left. now apply Nat.eqb_eq.
      * right. apply in_text_slice. lia.
      * left. apply orb_true_iff. right. apply in_text_slice. lia.
    + right. destruct H as [u [v [Hadj [Hu Hv]]]].
      apply existsb_exists. exists (b, u, v). split.
      * now apply in_where3.
      * unfold painted. cbn [fst snd]. now rewrite Nat.eqb_refl, Hu, Hv.
Qed.

Lemma mask_dims (adj : t3 bool) (np : NodePos) (ids : t2 Z) (tl : nat)
    (m : t3 bool) :
  get_attention_mask adj np ids tl = Some m ->
  dim0 m = rows ids /\ dim1 m = cols ids /\ dim2 m = cols ids.
Proof. intros Hm. exact (proj1 (get_attention_mask_at _ _ _ _ Hm)). Qed.

(** Two masks with the same true entries and the same shape read the
    same everywhere. *)
Lemma get3_bool_eq (m m' : t3 bool) (b i j : nat) :
  dim0 m = dim0 m' -> dim1 m = dim1 m' -> dim2 m = dim2 m' ->
  (get3 m b i j = Some true <-> get3 m' b i j = Some true) ->
  get3 m b i j = get3 m' b i j.
Proof.
  unfold get3. intros E0 E1 E2 H. rewrite <- E0, <- E1, <- E2 in *.
  destruct ((b <? dim0 m) && (i <? dim1 m) && (j <? dim2 m)); [|reflexivity].
  destruct (at3 m b i j), (at3 m' b i j); try reflexivity.
  - destruct H as [H _]. specialize (H eq_refl). discriminate.
  - destruct H as [_ H]. specialize (H eq_refl). discriminate.
Qed.

(** X1.  The mask has the shape (bsz, seq_len, seq_len), and an entry is
    true exactly when its two positions are non-pad and equal or one of
    them is a text position, or when an adjacency entry of the batch
    element has the row position in its first node's span and the column
    position in its second node's span. *)
Theorem mask_true_iff (adj : t3 bool) (np : NodePos) (ids : t2 Z) (tl : nat)
    (m : t3 bool) :
  get_attention_mask adj np ids tl = Some m ->
  (dim0 m = rows ids /\ dim1 m = cols ids /\ dim2 m = cols ids)
  /\ forall b i j,
       get3 m b i j = Some true <->
       b < rows ids /\ i < cols ids /\ j < cols ids
       /\ (((i = j \/ i < tl \/ j < tl)
            /\ at2 ids b i <> 0%Z /\ at2 ids b j <> 0%Z)
           \/ exists u v,
                get3 adj b u v = Some true
                /\ in_span np tl (cols ids) b u i = true
                /\ in_span np tl (cols ids) b v j = true).
Proof.
  intros Hm. split; [exact (mask_dims _ _ _ _ Hm)|].
  intros b i j. exact (mask_entry_spec _ _ _ _ b i j Hm).
Qed.

Lemma mask_true_iff_witness :
  exists m,
    get_attention_mask one_self_loop span_two_tokens ids_trailing_pad 1 = Some m
    /\ dim1 m = 3
    /\ get3 m 0 1 2 = Some true.
Proof.
  eexists. split; [reflexivity|].
  destruct (@mask_true_iff one_self_loop span_two_tokens ids_trailing_pad 1 _
              eq_refl) as [[_ [D1 _]] H].
  split; [exact D1|]. apply H. cbn. repeat split; try lia.
  right. exists 0, 0. repeat split.
Defined.

(** X2.  A symmetric adjacency indicator gives a symmetric mask. *)
Theorem mask_symmetric (adj : t3 bool) (np : NodePos) (ids : t2 Z) (tl : nat)
    (m : t3 bool) :
  (forall b u v, get3 adj b u v = Some true -> get3 adj b v u = Some true) ->
  get_attention_mask adj np ids tl = Some m ->
  forall b i j, get3 m b i j = get3 m b j i.
Proof.
  intros Hsym Hm b i j.
  assert (Hswap : forall i j, get3 m b i j = Some true -> get3 m b j i = Some true).
  { intros i' j' H. apply (mask_entry_spec _ _ _ _ b i' j' Hm) in H.
    apply (mask_entry_spec _ _ _ _ b j' i' Hm).
    destruct H as [Hb [Hi [Hj H]]]. repeat (split; [assumption|]).
    destruct H as [[Hbase [Pi Pj]]|[u [v [Ha [Hu Hv]]]]].
    - left. split; [|auto]. destruct Hbase as [E|[E|E]]; auto.
    - right. exists v, u. auto. }
  destruct (mask_dims _ _ _ _ Hm) as [D0 [D1 D2]].
  pose proof (Hswap i j) as H1. pose proof (Hswap j i) as H2.
  unfold get3 in *. rewrite D1, D2 in *.
  destruct (b <? dim0 m); cbn [andb] in *; [|reflexivity].
  rewrite (andb_comm (j <? cols ids)) in *.
  destruct ((i <? cols ids) && (j <? cols ids)); [|reflexivity].
  destruct (at3 m b i j), (at3 m b j i); try reflexivity.
  - specialize (H1 eq_refl). discriminate.
  - specialize (H2 eq_refl). discriminate.
Qed.

Lemma mask_symmetric_witness :
  exists m,
    get_attention_mask one_self_loop span_two_tokens ids_trailing_pad 1 = Some m
    /\ get3 m 0 1 2 = get3 m 0 2 1.
Proof.
  eexists. split; [reflexivity|].
  apply (@mask_symmetric one_self_loop span_two_tokens ids_trailing_pad 1);
    [|reflexivity].
  intros b u v H. apply get3_Some in H. cbn in H.
  assert (b = 0 /\ u = 0 /\ v = 0) as [-> [-> ->]] by lia. reflexivity.
Defined.

(** X3.  Setting more adjacency entries never hides a visible pair. *)
Theorem mask_monotone (adj adj' : t3 bool) (np : NodePos) (ids : t2 Z)
    (tl : nat) (m m' : t3 bool) :
  (forall b u v, get3 adj b u v = Some true -> get3 adj' b u v = Some true) ->
  get_attention_mask adj np ids tl = Some m ->
  get_attention_mask adj' np ids tl = Some m' ->
  forall b i j, get3 m b i j = Some true -> get3 m' b i j = Some true.
Proof.
  intros Hsub Hm Hm' b i j H.
  apply (mask_entry_spec _ _ _ _ b i j Hm) in H.
  apply (mask_entry_spec _ _ _ _ b i j Hm').
  destruct H as [Hb [Hi [Hj H]]]. repeat (split; [assumption|]).
  destruct H as [H|[u [v [Ha H]]]]; [left; exact H|].
  right. exists u, v. split; [apply Hsub; exact Ha|exact H].
Qed.

Lemma mask_monotone_witness :
  exists m m',
    get_attention_mask one_self_loop span_two_tokens ids_no_pad 1 = Some m
    /\ get_attention_mask two_nodes_adjacent span_two_tokens ids_no_pad 1
       = Some m'
    /\ get3 m 0 1 2 = Some true
    /\ get3 m' 0 1 2 = Some true.
Proof.
  do 2 eexists. split; [reflexivity|]. split; [reflexivity|].
  split; [reflexivity|].
  eapply (@mask_monotone one_self_loop two_nodes_adjacent span_two_tokens
            ids_no_pad 1);
    [|reflexivity|reflexivity|reflexivity].
  intros b u v H. apply get3_Some in H. cbn in H.
  assert (b = 0 /\ u = 0 /\ v = 0) as [-> [-> ->]] by lia. reflexivity.
Defined.

(** X4.  When the adjacency indicator has no more batch elements than
    the node-position table and the token ids, the builder raises
    nothing and returns a mask of shape (bsz, seq_len, seq_len). *)
Theorem mask_returned (adj : t3 bool) (np : NodePos) (ids : t2 Z) (tl : nat) :
  dim0 adj <= length np -> dim0 adj <= rows ids ->
  exists m,
    get_attention_mask adj np ids tl = Some m
    /\ dim0 m = rows ids /\ dim1 m = cols ids /\ dim2 m = cols ids.
Proof.
  intros Hnp Hids.
  destruct (get_attention_mask_total adj np ids tl Hnp Hids) as [m Hm].
  exists m. split; [exact Hm|exact (mask_dims _ _ _ _ Hm)].
Qed.

Lemma mask_returned_witness :
  exists m,
    get_attention_mask two_nodes_adjacent span_one_token ids_trailing_pad 1
    = Some m
    /\ dim0 m = 1 /\ dim1 m = 3 /\ dim2 m = 3.
Proof.
  apply (@mask_returned two_nodes_adjacent span_one_token ids_trailing_pad 1);
    cbn; lia.
Defined.

Lemma foldM_raises (S X : Type) (f : S -> X -> option S) (I : S -> Prop)
    (x : X) (l : list X) :
  (forall s y s', I s -> f s y = Some s' -> I s') ->
  (forall s, I s -> f s x = None) ->
  In x l -> forall s, I s -> foldM f l s = None.
Proof.
  intros Hpres Hfail. induction l as [|y l IH]; intros Hin s Hs; [contradiction|].
  cbn [foldM]. destruct Hin as [->|Hin].
  - now rewrite Hfail.
  - destruct (f s y) as [s'|] eqn:E; cbn [bind]; [|reflexivity].
    apply IH; [exact Hin|]. exact (Hpres _ _ _ Hs E).
Qed.

(** X5.  A set adjacency entry of a batch element that has no
    node-position table, or that has both nodes in its table but no row
    of token ids, makes the builder raise. *)
Theorem mask_index_error (adj : t3 bool) (np : NodePos) (ids : t2 Z)
    (tl b u v : nat) :
  get3 adj b u v = Some true ->
  length np <= b
  \/ (rows ids <= b
      /\ exists npb, nth_error np b = Some npb
                     /\ u < length npb /\ v < length npb) ->
  get_attention_mask adj np ids tl = None.
Proof.
  intros Hadj Hbad. unfold get_attention_mask.
  apply foldM_raises with (I := fun m => dim0 m = rows ids) (x := (b, u, v)).
  - intros s y s' Hs E. apply paint_step in E. destruct E as [[E0 _] _].
    congruence.
  - intros s Hs. unfold paint. cbn [fst snd].
    destruct Hbad as [Hnp|[Hrows [npb [Hb [Hu Hv]]]]].
    + apply nth_error_None in Hnp. now rewrite Hnp.
    + rewrite Hb. cbn [bind].
      assert (G : (length npb <=? u) || (length npb <=? v) = false).
      { apply orb_false_iff. split; apply Nat.leb_gt; assumption. }
      rewrite G.
      destruct (nth_error npb u) eqn:Eu; [|apply nth_error_None in Eu; lia].
      destruct (nth_error npb v) eqn:Ev; [|apply nth_error_None in Ev; lia].
      cbn [bind]. rewrite Hs.
      assert (L : (b <? rows ids) = false) by (apply Nat.ltb_ge; exact Hrows).
      now rewrite L.
  - now apply in_where3.
  - destruct (pad_loop_dims (where2 (map2 (fun x => (x =? 0)%Z) ids))
      (assign3 (fun _ i j => i =? j) true
         (assign3 (fun _ _ j => in_slice (cols ids) 0 (Z.of_nat tl) j) true
            (assign3 (fun _ i _ => in_slice (cols ids) 0 (Z.of_nat tl) i) true
               (zeros3 (rows ids) (cols ids) (cols ids))))))
      as [P0 _].
    rewrite P0. reflexivity.
Qed.

Lemma mask_index_error_witness :
  get3 one_self_loop 0 0 0 = Some true
  /\ get_attention_mask one_self_loop [] ids_trailing_pad 1 = None.
Proof.
  split; [reflexivity|].
  apply (@mask_index_error one_self_loop [] ids_trailing_pad 1 0 0 0);
    [reflexivity|left; cbn; lia].
Defined.

End MaskExtra.

(** ** The encoder's adjacency indicator and mask *)

Module EncExtra.

Import Py Tensor Mask MaskFacts MaskExtra Enc.

Lemma in_slice_lt (len : nat) (a b : Z) (i : nat) :
  in_slice len a b i = true -> i < len.
Proof.
  unfold in_slice, slice_bound. intros H.
  apply andb_true_iff in H. destruct H as [_ H]. apply Z.ltb_lt in H.
  destruct (b <? 0)%Z eqn:E; [apply Z.ltb_lt in E|]; lia.
Qed.

Lemma in_span_lt (np : NodePos) (tl n b u i : nat) :
  in_span np tl n b u i = true -> i < n.
Proof.
  unfold in_span. destruct (nth_error np b) as [npb|]; [|discriminate].
  destruct (nth_error npb u) as [s|]; [|discriminate].
  apply in_slice_lt.
Qed.

Lemma adj_masks_Some (pad blank : Z) (edges : t3 Z) (adj : t3 bool) :
  adj_masks pad blank edges = Some adj ->
  dim2 edges <= dim1 edges
  /\ adj = assign3 (fun _ u v => (u =? v) && (u <? dim2 edges)) true
             (edge_masks pad blank edges).
Proof.
  unfold adj_masks. destruct (dim2 edges <=? dim1 edges) eqn:E; [|discriminate].
  apply Nat.leb_le in E. intros H. inversion H. auto.
Qed.



(** X7.  In the mask the encoder builds, all tokens of one node see one
    another, pad tokens included: the forced self-loop paints the whole
    square block of every node that has a position-table entry. *)
Theorem node_block_visible (pad blank : Z) (edges : t3 Z) (np : NodePos)
    (text_ids graph_ids : t2 Z) (m : t3 bool) (b u i j : nat) :
  encoder_attention_mask pad blank edges np text_ids graph_ids = Some m ->
  b < dim0 edges -> b < rows text_ids -> u < dim2 edges ->
  in_span np (cols text_ids) (cols text_ids + cols graph_ids) b u i = true ->
  in_span np (cols text_ids) (cols text_ids + cols graph_ids) b u j = true ->
  get3 m b i j = Some true.
Proof.
  intros Hm Hb Hb' Hu Hi Hj. unfold encoder_attention_mask in Hm.
  apply AttnFacts.bind_Some in Hm. destruct Hm as [adj [Hadj Hm]].
  apply AttnFacts.bind_Some in Hm. destruct Hm as [ids [Hids Hm]].
  unfold cat1 in Hids.
  destruct (rows text_ids =? rows graph_ids); [|discriminate].
  inversion Hids; subst ids. clear Hids.
  apply (mask_entry_spec _ _ _ _ b i j Hm). cbn [rows cols].
  split; [exact Hb'|].
  split; [exact (in_span_lt _ _ _ _ _ _ Hi)|].
  split; [exact (in_span_lt _ _ _ _ _ _ Hj)|].
  right. exists u, u. split; [|split; assumption].
  apply adj_masks_Some in Hadj. destruct Hadj as [Hd ->].
  rewrite get3_in_shape by (cbn [dim0 dim1 dim2 assign3 edge_masks]; lia).
  cbn [at3 assign3].
  rewrite Nat.eqb_refl. apply Nat.ltb_lt in Hu. now rewrite Hu.
Qed.

Lemma node_block_visible_witness :
  exists m,
    encoder_attention_mask 0 1 sample_edges sample_node_pos sample_text
      sample_graph = Some m
    /\ get2 sample_graph 0 2 = Some 0%Z
    /\ get3 m 0 2 3 = Some true
    /\ get3 m 0 3 3 = Some true.
Proof.
  eexists. split; [reflexivity|]. split; [reflexivity|].
  split;
    apply (@node_block_visible 0 1 sample_edges sample_node_pos sample_text
             sample_graph _ 0 1);
    try reflexivity; cbn; lia.
Defined.

(** X8.  For a batch element whose node spans contain no pad position,
    the diagonal of the structural mask is the plain validity mask
    [input_ids != 0]: a token sees itself exactly when it is not
    padding. *)
Theorem diagonal_is_validity (adj : t3 bool) (np : NodePos) (ids : t2 Z)
    (tl : nat) (m : t3 bool) (b : nat) :
  get_attention_mask adj np ids tl = Some m ->
  (forall p u, at2 ids b p = 0%Z -> in_span np tl (cols ids) b u p = false) ->
  forall i, get3 m b i i = get2 (get_full_attention_mask ids) b i.
Proof.
  intros Hm Hspan i.
  destruct (mask_dims _ _ _ _ Hm) as [D0 [D1 D2]].
  pose proof (mask_entry_spec _ _ _ _ b i i Hm) as Spec.
  unfold get2, get_full_attention_mask. cbn [rows cols at2 map2].
  destruct (b <? rows ids) eqn:Hb, (i <? cols ids) eqn:Hi; cbn [andb];
    try (unfold get3; rewrite D0, D1, D2, Hb, Hi; cbn [andb];
         now rewrite ?andb_false_r).
  apply Nat.ltb_lt in Hb, Hi.
  destruct (Z.eqb_spec (at2 ids b i) 0) as [E|E]; cbn [negb].
  - rewrite get3_in_shape by lia. f_equal.
    destruct (at3 m b i i) eqn:A; [|reflexivity].
    assert (G : get3 m b i i = Some true)
      by (rewrite get3_in_shape by lia; now rewrite A).
    apply Spec in G. destruct G as [_ [_ [_ [[_ [P _]]|[u [v [_ [Hu _]]]]]]]].
    + contradiction.
    + rewrite (Hspan i u E) in Hu. discriminate.
  - apply Spec. repeat (split; [assumption|]). left. auto.
Qed.

Lemma diagonal_is_validity_witness :
  exists m,
    get_attention_mask one_self_loop span_one_token ids_trailing_pad 1 = Some m
    /\ get3 m 0 2 2 = Some false
    /\ get3 m 0 1 1 = Some true.
Proof.
  eexists. split; [reflexivity|].
  pose proof (@diagonal_is_validity one_self_loop span_one_token
                ids_trailing_pad 1 _ 0 eq_refl) as H.
  assert (Hs : forall p u, at2 ids_trailing_pad 0 p = 0%Z ->
                 in_span span_one_token 1 (cols ids_trailing_pad) 0 u p = false).
  { intros p u Hp.
    destruct (in_span span_one_token 1 (cols ids_trailing_pad) 0 u p) eqn:E;
      [|reflexivity].
    apply in_span_lt in E as L. cbn in L.
    destruct p as [|[|[|p]]]; [discriminate Hp|discriminate Hp| |lia].
    destruct u as [|[|u]]; discriminate E. }
  specialize (H Hs).
  split; [exact (H 2)|exact (H 1)].
Defined.

End EncExtra.

(** ** More on the pair index tables *)

Module PairExtra.

Import Py PairIndex PairIndexFacts Tensor Fl Dec.
Local Open Scope Z_scope.

Lemma pair_indices_small (n : Z) : n <= 2 -> pair_indices n = Some ([0], [0]).
Proof.
  intros Hn. unfold pair_indices, src_nodes_indices, tgt_nodes_indices.
  assert (Hlt : (2 <? n) = false) by (apply Z.ltb_ge; exact Hn).
  rewrite Hlt. reflexivity.
Qed.

Lemma in_tables (n i j : Z) :
  2 < n -> In (i, j) (tables n) -> 0 <= i <= n - 1 /\ 0 <= j <= n - 1.
Proof.
  intros Hn H. unfold tables in H. apply in_app_or in H.
  destruct H as [H|[H|[]]].
  - apply in_lower_pairs in H. lia.
  - inversion H; subst. lia.
Qed.

Lemma combine_fst_snd (A B : Type) (l : list (A * B)) :
  combine (map fst l) (map snd l) = l.
Proof.
  induction l as [|[a b] l IH]; cbn; [reflexivity|now rewrite IH].
Qed.

(** X9.  For every length, negative ones included, the builder raises
    nothing and returns two tables of the same, positive size: the edge
    generator always gets at least one step. *)
Theorem pair_indices_nonempty (n : Z) :
  exists src tgt,
    pair_indices n = Some (src, tgt)
    /\ length src = length tgt
    /\ (1 <= length src)%nat.
Proof.
  destruct (Z.ltb_spec 2 n) as [Hn|Hn].
  - exists (map fst (tables n)), (map snd (tables n)).
    split; [exact (pair_indices_tables Hn)|].
    rewrite !length_map. split; [reflexivity|].
    unfold tables. rewrite length_app. cbn [length]. lia.
  - exists [0], [0]. split; [exact (pair_indices_small Hn)|].
    cbn. split; [reflexivity|lia].
Qed.

Lemma index_select1_ok (x : t3 fl) (idx : list Z) :
  index_select1 x idx <> None
  <-> forall k, In k idx -> 0 <= k < Z.of_nat (dim1 x).
Proof.
  unfold index_select1.
  destruct (forallb _ idx) eqn:E.
  - split; [|discriminate]. intros _ k Hk.
    rewrite forallb_forall in E. specialize (E k Hk).
    apply andb_true_iff in E. destruct E as [E1 E2].
    apply Z.leb_le in E1. apply Z.ltb_lt in E2. lia.
  - split; [congruence|]. intros H. exfalso.
    assert (F : forallb (fun k => (0 <=? k) && (k <? Z.of_nat (dim1 x))) idx
                = true).
    { apply forallb_forall. intros k Hk. specialize (H k Hk).
      apply andb_true_iff. split; [apply Z.leb_le|apply Z.ltb_lt]; lia. }
    congruence.
Qed.

(** X10.  Selecting the node states by the two tables (lines 510 and
    516) raises exactly when there is no node state at all. *)
Theorem pair_tables_selectable (x : t3 fl) (src tgt : list Z) :
  pair_indices (Z.of_nat (dim1 x)) = Some (src, tgt) ->
  (index_select1 x src <> None <-> (1 <= dim1 x)%nat)
  /\ (index_select1 x tgt <> None <-> (1 <= dim1 x)%nat).
Proof.
  intros H. destruct (Z.ltb_spec 2 (Z.of_nat (dim1 x))) as [Hn|Hn].
  - rewrite (pair_indices_tables Hn) in H. inversion H; subst src tgt.
    split; (split; [intros _; lia|intros _]); apply index_select1_ok;
      intros k Hk; apply in_map_iff in Hk; destruct Hk as [[i j] [E Hin]];
      cbn in E; subst; apply (@in_tables _ _ _ Hn) in Hin; lia.
  - rewrite (pair_indices_small Hn) in H. inversion H; subst src tgt.
    split; rewrite index_select1_ok; split.
    + intros G. specialize (G 0 (or_introl eq_refl)). lia.
    + intros G k [<-|[]]. lia.
    + intros G. specialize (G 0 (or_introl eq_refl)). lia.
    + intros G k [<-|[]]. lia.
Qed.

Lemma pair_tables_selectable_witness :
  pair_indices (Z.of_nat (dim1 (Attn.zeros_fl 3))) = Some ([1; 2], [0; 2])
  /\ index_select1 (Attn.zeros_fl 3) [1; 2] <> None
  /\ index_select1 (Attn.zeros_fl 3) [0; 2] <> None.
Proof.
  split; [reflexivity|].
  destruct (@pair_tables_selectable (Attn.zeros_fl 3) [1; 2] [0; 2] eq_refl)
    as [[_ H1] [_ H2]].
  split; [apply H1|apply H2]; cbn; lia.
Defined.

Lemma NoDup_map_in (A B : Type) (f : A -> B) (l : list A) :
  (forall a b, In a l -> In b l -> f a = f b -> a = b) ->
  NoDup l -> NoDup (map f l).
Proof.
  intros Hinj H. induction H as [|a l Hnin Hnd IH]; cbn; constructor.
  - intros Hin. apply in_map_iff in Hin. destruct Hin as [b [E Hb]].
    assert (b = a) by (apply Hinj; [now right|now left|exact E]).
    subst. contradiction.
  - apply IH. intros x y Hx Hy. apply Hinj; now right.
Qed.

Lemma NoDup_range (a b : Z) : NoDup (range a b).
Proof.
  unfold range. apply NoDup_map_in; [|apply seq_NoDup].
  intros x y _ _ E. lia.
Qed.

Lemma NoDup_lower_pairs (m : nat) : NoDup (lower_pairs (Z.of_nat m + 2)).
Proof.
  induction m as [|m IH]; [constructor|].
  rewrite lower_pairs_succ. apply NoDup_app.
  - exact IH.
  - apply NoDup_map_in; [|apply NoDup_range]. intros x y _ _ E. congruence.
  - intros [i j] Hin Hrow. apply in_lower_pairs in Hin.
    apply in_map_iff in Hrow. destruct Hrow as [k [E _]].
    inversion E. lia.
Qed.

(** X11.  No pair occurs twice in the tables. *)
Theorem pair_tables_distinct (n : Z) (src tgt : list Z) :
  pair_indices n = Some (src, tgt) -> NoDup (combine src tgt).
Proof.
  intros H. destruct (Z.ltb_spec 2 n) as [Hn|Hn].
  - rewrite (pair_indices_tables Hn) in H. inversion H; subst src tgt.
    rewrite combine_fst_snd. unfold tables. apply NoDup_app.
    + replace n with (Z.of_nat (Z.to_nat (n - 2)) + 2) by lia.
      apply NoDup_lower_pairs.
    + constructor; [intros []|constructor].
    + intros [i j] Hin [E|[]]. apply in_lower_pairs in Hin.
      inversion E. lia.
  - rewrite (pair_indices_small Hn) in H. inversion H; subst src tgt.
    cbn. constructor; [intros []|constructor].
Qed.

Lemma pair_tables_distinct_witness :
  pair_indices 5 = Some ([1; 2; 2; 3; 3; 3; 4], [0; 0; 1; 0; 1; 2; 4])
  /\ NoDup (combine [1; 2; 2; 3; 3; 3; 4] [0; 0; 1; 0; 1; 2; 4]).
Proof.
  split; [reflexivity|].
  apply (@pair_tables_distinct 5). reflexivity.
Defined.

End PairExtra.

(** ** More on the attention primitive *)

Module AttnExtra.

Import Tensor Fl NN Attn AttnFacts.
Local Open Scope R_scope.

Lemma rsum_nonneg (n : nat) (f : nat -> R) :
  (forall k, (k < n)%nat -> 0 <= f k) -> 0 <= rsum n f.
Proof.
  induction n as [|n IH]; intros H; cbn [rsum]; [lra|].
  assert (0 <= rsum n f) by (apply IH; intros k Hk; apply H; lia).
  assert (0 <= f n) by (apply H; lia). lra.
Qed.

Lemma rsum_pos (n : nat) (f : nat -> R) (s : nat) :
  (forall k, (k < n)%nat -> 0 <= f k) -> (s < n)%nat -> 0 < f s ->
  0 < rsum n f.
Proof.
  induction n as [|n IH]; intros H Hs Hpos; [lia|]. cbn [rsum].
  assert (0 <= rsum n f) by (apply rsum_nonneg; intros k Hk; apply H; lia).
  assert (0 <= f n) by (apply H; lia).
  destruct (Nat.eq_dec s n) as [->|Ne]; [lra|].
  assert (0 < rsum n f) by (apply IH; [intros k Hk; apply H; lia|lia|exact Hpos]).
  lra.
Qed.

Lemma rsum_div (n : nat) (f : nat -> R) (d : R) :
  rsum n (fun k => f k / d) = rsum n f / d.
Proof.
  induction n as [|n IH]; cbn [rsum]; [unfold Rdiv; now rewrite Rmult_0_l|].
  rewrite IH. unfold Rdiv. now rewrite Rmult_plus_distr_r.
Qed.

Lemma xexp_nonneg (s : xfl) : 0 <= xexp s.
Proof.
  destruct s as [[x|]|]; cbn; try lra. left. apply exp_pos.
Qed.

Lemma forward_weights (a : Attention) (inputs mems : t3 fl)
    (mm : option MemMasks) (h w : t3 fl) :
  forward a inputs mems mm = Some (h, w) ->
  exists align, masked_align a inputs mems mm = Some align /\ w = softmax align.
Proof.
  unfold forward. intros H.
  apply bind_Some in H. destruct H as [align [Ha H]].
  apply bind_Some in H. destruct H as [c [_ H]].
  apply bind_Some in H. destruct H as [x [_ H]].
  apply bind_Some in H. destruct H as [y [_ H]].
  exists align. split; [exact Ha|]. now inversion H.
Qed.

Lemma softmax_row_value (n : nat) (row : nat -> xfl) (s s' : nat) (x : R) :
  (s' < n)%nat -> row s' = XVal (Num x) ->
  (forall k, (k < n)%nat -> row k <> XVal NaN) ->
  softmax_row n row s = Num (xexp (row s) / rsum n (fun k => xexp (row k)))
  /\ 0 < rsum n (fun k => xexp (row k)).
Proof.
  intros Hs' Hv Hnan. unfold softmax_row.
  assert (E1 : existsb (fun k => is_nan (row k)) (seq 0 n) = false).
  { destruct (existsb _ _) eqn:E; [|reflexivity].
    apply existsb_exists in E. destruct E as [k [Hk E]].
    apply in_seq in Hk. specialize (Hnan k ltac:(lia)).
    destruct (row k) as [[y|]|]; cbn in E; congruence. }
  assert (E2 : forallb (fun k => is_neginf (row k)) (seq 0 n) = false).
  { destruct (forallb _ _) eqn:E; [|reflexivity].
    rewrite forallb_forall in E.
    specialize (E s' ltac:(apply in_seq; lia)). rewrite Hv in E. discriminate. }
  rewrite E1, E2. cbn [orb]. split; [reflexivity|].
  apply rsum_pos with (s := s'); [intros; apply xexp_nonneg|exact Hs'|].
  rewrite Hv. cbn. apply exp_pos.
Qed.

(** X12.  At a step with some unmasked numeric score and no NaN score,
    the attention weights over the memory are non-negative numbers that
    sum to 1. *)
Theorem attention_weights_distribution (a : Attention) (inputs mems : t3 fl)
    (mm : option MemMasks) (al : t3 xfl) (hh ww : t3 fl) (b t : nat) :
  forward a inputs mems mm = Some (hh, ww) ->
  masked_align a inputs mems mm = Some al ->
  (exists s x, (s < dim2 al)%nat /\ at3 al b t s = XVal (Num x)) ->
  (forall k, (k < dim2 al)%nat -> at3 al b t k <> XVal NaN) ->
  exists ws : nat -> R,
    (forall s, (s < dim2 ww)%nat -> at3 ww b t s = Num (ws s) /\ 0 <= ws s)
    /\ rsum (dim2 ww) ws = 1.
Proof.
  intros Hf Ha [s' [x [Hs' Hv]]] Hnan.
  apply forward_weights in Hf. destruct Hf as [al' [Ha' ->]].
  rewrite Ha in Ha'. inversion Ha'; subst al'. clear Ha'.
  cbn [dim2 softmax at3].
  set (D := rsum (dim2 al) (fun k => xexp (at3 al b t k))).
  assert (HD : 0 < D).
  { exact (proj2 (@softmax_row_value (dim2 al) (at3 al b t) 0%nat s' x Hs' Hv Hnan)). }
  exists (fun s => xexp (at3 al b t s) / D). split.
  - intros s _. split.
    + exact (proj1 (@softmax_row_value (dim2 al) (at3 al b t) s s' x Hs' Hv Hnan)).
    + apply Rmult_le_pos; [apply xexp_nonneg|].
      left. now apply Rinv_0_lt_compat.
  - rewrite rsum_div. fold D. unfold Rdiv. apply Rinv_r. lra.
Qed.

Lemma attention_weights_distribution_witness :
  exists (h w : t3 fl) (ws : nat -> R),
    forward zero_attention (zeros_fl 1) (zeros_fl 2) (Some second_masked)
    = Some (h, w)
    /\ (forall s, (s < 2)%nat -> at3 w 0 0 s = Num (ws s) /\ 0 <= ws s)
    /\ rsum 2 ws = 1.
Proof.
  destruct (@attention_weights_distribution zero_attention (zeros_fl 1)
              (zeros_fl 2) (Some second_masked) _ _ _ 0 0 eq_refl eq_refl)
    as [ws H].
  - exists 0%nat. eexists. split; [cbn; lia|reflexivity].
  - intros [|[|k]] Hk; cbn; try discriminate. cbn in Hk. lia.
  - do 2 eexists. exists ws. split; [reflexivity|exact H].
Defined.

Lemma Linear_forward_dims (l : Linear) (x y : t3 fl) :
  Linear_forward l x = Some y ->
  dim0 y = dim0 x /\ dim1 y = dim1 x /\ dim2 y = rows (weight l).
Proof.
  unfold Linear_forward, F_linear.
  destruct (dim2 x =? cols (weight l))%nat; [|discriminate].
  cbn [bind]. intros H. inversion H; subst y.
  destruct (bias l); cbn; auto.
Qed.

Lemma masked_align_dims (a : Attention) (inputs mems : t3 fl)
    (mm : option MemMasks) (al : t3 xfl) :
  masked_align a inputs mems mm = Some al ->
  dim0 al = dim0 mems /\ dim1 al = dim1 inputs /\ dim2 al = dim1 mems.
Proof.
  unfold masked_align. intros H.
  apply bind_Some in H. destruct H as [sc [Hs H]].
  assert (Hd : dim0 sc = dim0 mems /\ dim1 sc = dim1 inputs
               /\ dim2 sc = dim1 mems).
  { unfold score in Hs.
    apply bind_Some in Hs. destruct Hs as [wq [_ Hs]].
    apply bind_Some in Hs. destruct Hs as [uh [_ Hs]].
    destruct ((dim0 wq =? dim0 mems)%nat && (dim2 wq =? dim a)%nat
              && (dim2 uh =? dim a)%nat); [|discriminate].
    destruct ((dim a =? cols (weight (v a)))%nat
              && (rows (weight (v a)) =? 1)%nat); [|discriminate].
    inversion Hs. cbn. auto. }
  destruct mm as [mm|].
  - apply bind_Some in H. destruct H as [mask [_ H]].
    unfold masked_fill_neginf in H.
    destruct (broadcastable _ _ && broadcastable _ _); [|discriminate].
    inversion H. cbn. exact Hd.
  - inversion H. cbn. exact Hd.
Qed.

Lemma forward_dims (a : Attention) (inputs mems : t3 fl)
    (mm : option MemMasks) (h w : t3 fl) :
  forward a inputs mems mm = Some (h, w) ->
  (dim0 w = dim0 mems /\ dim1 w = dim1 inputs /\ dim2 w = dim1 mems)
  /\ (dim0 h = dim0 mems /\ dim1 h = dim1 inputs
      /\ dim2 h = rows (weight (linear_out a))).
Proof.
  unfold forward. intros H.
  apply bind_Some in H. destruct H as [al [Ha H]].
  apply masked_align_dims in Ha. destruct Ha as [A0 [A1 A2]].
  apply bind_Some in H. destruct H as [c [Hc H]].
  apply bind_Some in H. destruct H as [x [Hx H]].
  apply bind_Some in H. destruct H as [y [Hy H]].
  inversion H; subst y w. clear H. split; [cbn; auto|].
  apply Linear_forward_dims in Hy. destruct Hy as [Y0 [Y1 Y2]].
  unfold cat_last in Hx.
  destruct ((dim0 c =? dim0 inputs)%nat && (dim1 c =? dim1 inputs)%nat);
    [|discriminate].
  inversion Hx; subst x. clear Hx. cbn in Y0, Y1.
  unfold bmm in Hc. cbn [dim0 dim1 dim2 softmax] in Hc.
  destruct ((dim0 al =? dim0 mems)%nat && (dim2 al =? dim1 mems)%nat);
    [|discriminate].
  inversion Hc; subst c. clear Hc. cbn in Y0, Y1.
  rewrite Y0, Y1, Y2, A0, A1. auto.
Qed.

(** X13.  When the attention module returns, the weights have the shape
    (memory batch, query steps, memory positions) and the output has the
    shape (memory batch, query steps, rows of [linear_out]). *)
Theorem forward_shapes (a : Attention) (inputs mems : t3 fl)
    (mm : option MemMasks) (h w : t3 fl) :
  forward a inputs mems mm = Some (h, w) ->
  (dim0 w = dim0 mems /\ dim1 w = dim1 inputs /\ dim2 w = dim1 mems)
  /\ (dim0 h = dim0 mems /\ dim1 h = dim1 inputs
      /\ dim2 h = rows (weight (linear_out a))).
Proof. exact (@forward_dims a inputs mems mm h w). Qed.

Lemma forward_shapes_witness :
  exists h w : t3 fl,
    forward zero_attention (zeros_fl 1) (zeros_fl 2) (Some second_masked)
    = Some (h, w)
    /\ dim2 w = 2%nat /\ dim2 h = 1%nat.
Proof.
  do 2 eexists. split; [reflexivity|].
  destruct (@forward_shapes zero_attention (zeros_fl 1) (zeros_fl 2)
              (Some second_masked) _ _ eq_refl) as [[_ [_ W]] [_ [_ Hh]]].
  split; [exact W|exact Hh].
Defined.

(** *** Padding content does not reach the output *)

Lemma Linear_forward_at (l : Linear) (x y : t3 fl) :
  Linear_forward l x = Some y ->
  dim2 x = cols (weight l)
  /\ forall b t k,
       at3 y b t k
       = match bias l with
         | Some c =>
             fadd (fsum (cols (weight l))
                     (fun d => fmul (at3 x b t d) (at2 (weight l) k d))) (c k)
         | None =>
             fsum (cols (weight l))
               (fun d => fmul (at3 x b t d) (at2 (weight l) k d))
         end.
Proof.
  unfold Linear_forward, F_linear.
  destruct (Nat.eqb_spec (dim2 x) (cols (weight l))) as [E|E]; [|discriminate].
  cbn [bind]. intros H. inversion H; subst y. split; [exact E|].
  intros b t k. destruct (bias l); reflexivity.
Qed.

Lemma Linear_forward_ext (l : Linear) (x x' y y' : t3 fl) (b t : nat) :
  Linear_forward l x = Some y -> Linear_forward l x' = Some y' ->
  (forall d, (d < cols (weight l))%nat -> at3 x' b t d = at3 x b t d) ->
  forall k, at3 y' b t k = at3 y b t k.
Proof.
  intros H H' Hx k.
  apply Linear_forward_at in H, H'. destruct H as [_ H], H' as [_ H'].
  rewrite H, H'.
  assert (E : fsum (cols (weight l))
                (fun d => fmul (at3 x' b t d) (at2 (weight l) k d))
              = fsum (cols (weight l))
                  (fun d => fmul (at3 x b t d) (at2 (weight l) k d))).
  { apply LossFacts.fsum_ext. intros d Hd. now rewrite Hx. }
  now rewrite E.
Qed.

Lemma score_ext (a : Attention) (q m m' sc sc' : t3 fl) (b s : nat) :
  score a q m = Some sc -> score a q m' = Some sc' ->
  dim0 m' = dim0 m -> dim1 m' = dim1 m ->
  (forall d, (d < cols (weight (linear_c a)))%nat ->
     at3 m' b s d = at3 m b s d) ->
  forall t, at3 sc' b t s = at3 sc b t s.
Proof.
  unfold score. intros H H' E0 E1 Hm t.
  apply bind_Some in H. destruct H as [wq [Hq H]].
  apply bind_Some in H. destruct H as [uh [Hu H]].
  apply bind_Some in H'. destruct H' as [wq' [Hq' H']].
  apply bind_Some in H'. destruct H' as [uh' [Hu' H']].
  rewrite Hq in Hq'. inversion Hq'; subst wq'. clear Hq'.
  pose proof (Linear_forward_ext _ _ _ b s Hu Hu' Hm) as Huh.
  destruct ((dim0 wq =? dim0 m)%nat && (dim2 wq =? dim a)%nat
            && (dim2 uh =? dim a)%nat); [|discriminate].
  destruct ((dim0 wq =? dim0 m')%nat && (dim2 wq =? dim a)%nat
            && (dim2 uh' =? dim a)%nat); [|discriminate].
  destruct ((dim a =? cols (weight (v a)))%nat
            && (rows (weight (v a)) =? 1)%nat); [|discriminate].
  inversion H; subst sc. inversion H'; subst sc'. clear H H'.
  assert (E : fsum (dim a)
                (fun d => fmul (ftanh (fadd (at3 wq b t d) (at3 uh' b s d)))
                               (at2 (weight (v a)) 0 d))
              = fsum (dim a)
                  (fun d => fmul (ftanh (fadd (at3 wq b t d) (at3 uh b s d)))
                                 (at2 (weight (v a)) 0 d))).
  { apply LossFacts.fsum_ext. intros d _. now rewrite Huh. }
  destruct (bias (v a)); cbn; now rewrite E.
Qed.

Lemma rsum_ext (n : nat) (f g : nat -> R) :
  (forall k, (k < n)%nat -> f k = g k) -> rsum n f = rsum n g.
Proof.
  induction n as [|n IH]; intros H; cbn [rsum]; [reflexivity|].
  rewrite IH by (intros k Hk; apply H; lia). now rewrite H by lia.
Qed.

Lemma existsb_ext_in (A : Type) (f g : A -> bool) (l : list A) :
  (forall x, In x l -> f x = g x) -> existsb f l = existsb g l.
Proof.
  induction l as [|x l IH]; intros H; cbn; [reflexivity|].
  rewrite (H x (or_introl eq_refl)), IH; [reflexivity|].
  intros y Hy. apply H. now right.
Qed.

Lemma forallb_ext_in (A : Type) (f g : A -> bool) (l : list A) :
  (forall x, In x l -> f x = g x) -> forallb f l = forallb g l.
Proof.
  induction l as [|x l IH]; intros H; cbn; [reflexivity|].
  rewrite (H x (or_introl eq_refl)), IH; [reflexivity|].
  intros y Hy. apply H. now right.
Qed.

Lemma softmax_row_ext (n : nat) (row row' : nat -> xfl) (s : nat) :
  (forall k, (k < n)%nat -> row' k = row k) -> (s < n)%nat ->
  softmax_row n row' s = softmax_row n row s.
Proof.
  intros H Hs. unfold softmax_row.
  rewrite (@existsb_ext_in _ (fun k => is_nan (row' k))
             (fun k => is_nan (row k)))
    by (intros k Hk; apply in_seq in Hk; rewrite H by lia; reflexivity).
  rewrite (@forallb_ext_in _ (fun k => is_neginf (row' k))
             (fun k => is_neginf (row k)))
    by (intros k Hk; apply in_seq in Hk; rewrite H by lia; reflexivity).
  rewrite (@rsum_ext n (fun k => xexp (row' k)) (fun k => xexp (row k)))
    by (intros k Hk; now rewrite H).
  now rewrite (H s Hs).
Qed.

Lemma softmax_row_neginf (n : nat) (row : nat -> xfl) (s : nat) :
  row s = XNegInf ->
  softmax_row n row s = NaN \/ softmax_row n row s = Num 0.
Proof.
  intros H. unfold softmax_row.
  destruct (existsb _ _ || forallb _ _); [now left|right].
  rewrite H. cbn. f_equal. unfold Rdiv. apply Rmult_0_l.
Qed.

Lemma bidx_id (n i : nat) : (i < n)%nat -> bidx n i = i.
Proof.
  unfold bidx. destruct (Nat.eqb_spec n 1); [lia|reflexivity].
Qed.

Lemma score_cols (a : Attention) (q m sc : t3 fl) :
  score a q m = Some sc -> dim2 m = cols (weight (linear_c a)).
Proof.
  unfold score. intros H.
  apply bind_Some in H. destruct H as [wq [_ H]].
  apply bind_Some in H. destruct H as [uh [Hu _]].
  exact (proj1 (Linear_forward_at _ _ Hu)).
Qed.

Lemma masked_align_valid (a : Attention) (inputs mems : t3 fl) (mask : t2 bool)
    (al : t3 xfl) :
  masked_align a inputs mems (Some (Valid mask)) = Some al ->
  exists sc,
    score a inputs mems = Some sc
    /\ forall b t s,
         at3 al b t s
         = if excluded mask b s then XNegInf else XVal (at3 sc b t s).
Proof.
  unfold masked_align. intros H.
  apply bind_Some in H. destruct H as [sc [Hs H]]. cbn [mask_of bind] in H.
  exists sc. split; [exact Hs|].
  exact (proj2 (masked_fill_neginf_at _ _ H)).
Qed.

(** X14.  What the memory holds at masked positions does not reach the
    attention weights or the output: two memories that agree on the
    valid positions and hold numbers at the masked ones give the same
    weights and the same output. *)
Theorem masked_memory_irrelevant (a : Attention) (inputs mems mems' : t3 fl)
    (mask : t2 bool) (h w h' w' : t3 fl) :
  dim0 mems' = dim0 mems -> dim1 mems' = dim1 mems -> dim2 mems' = dim2 mems ->
  rows mask = dim0 mems -> cols mask = dim1 mems ->
  (forall b s d, (b < dim0 mems)%nat -> (s < dim1 mems)%nat ->
     (d < dim2 mems)%nat -> at2 mask b s = true ->
     at3 mems' b s d = at3 mems b s d) ->
  (forall b s d, (b < dim0 mems)%nat -> (s < dim1 mems)%nat ->
     (d < dim2 mems)%nat -> at2 mask b s = false ->
     exists x x', at3 mems b s d = Num x /\ at3 mems' b s d = Num x') ->
  forward a inputs mems (Some (Valid mask)) = Some (h, w) ->
  forward a inputs mems' (Some (Valid mask)) = Some (h', w') ->
  forall b t k, (b < dim0 mems)%nat ->
    (forall s, (s < dim1 mems)%nat -> at3 w' b t s = at3 w b t s)
    /\ at3 h' b t k = at3 h b t k.
Proof.
  intros D0 D1 D2 R C Hag Hfin Hf Hf' b t k Hb.
  unfold forward in Hf, Hf'.
  apply bind_Some in Hf. destruct Hf as [al [Ha Hf]].
  apply bind_Some in Hf. destruct Hf as [c [Hc Hf]].
  apply bind_Some in Hf. destruct Hf as [x [Hx Hf]].
  apply bind_Some in Hf. destruct Hf as [y [Hy Hf]].
  inversion Hf; subst y w. clear Hf.
  apply bind_Some in Hf'. destruct Hf' as [al' [Ha' Hf']].
  apply bind_Some in Hf'. destruct Hf' as [c' [Hc' Hf']].
  apply bind_Some in Hf'. destruct Hf' as [x' [Hx' Hf']].
  apply bind_Some in Hf'. destruct Hf' as [y' [Hy' Hf']].
  inversion Hf'; subst y' w'. clear Hf'.
  destruct (masked_align_dims _ _ _ _ Ha) as [_ [_ A2]].
  destruct (masked_align_dims _ _ _ _ Ha') as [_ [_ A2']].
  apply masked_align_valid in Ha, Ha'.
  destruct Ha as [sc [Hs At]], Ha' as [sc' [Hs' At']].
  pose proof (score_cols _ _ _ Hs) as Hcols.
  assert (Hmask : forall s, (s < dim1 mems)%nat ->
                    excluded mask b s = negb (at2 mask b s)).
  { intros s Hs0. unfold excluded. now rewrite !bidx_id by lia. }
  assert (Hal : forall s, (s < dim1 mems)%nat ->
                  at3 al' b t s = at3 al b t s).
  { intros s Hs0. rewrite At, At', (Hmask s Hs0).
    destruct (at2 mask b s) eqn:M; cbn [negb]; [|reflexivity].
    f_equal. apply (score_ext _ _ _ _ b s Hs Hs' D0 D1).
    intros d Hd. apply Hag; try assumption. lia. }
  assert (HW : forall s, (s < dim1 mems)%nat ->
                 at3 (softmax al') b t s = at3 (softmax al) b t s).
  { intros s Hs0. cbn [at3 softmax]. rewrite A2, A2', D1.
    apply softmax_row_ext; assumption. }
  split; [exact HW|].
  apply (Linear_forward_ext _ _ _ b t Hy Hy'). intros d _.
  unfold cat_last in Hx, Hx'.
  destruct ((dim0 c =? dim0 inputs)%nat && (dim1 c =? dim1 inputs)%nat);
    [|discriminate].
  destruct ((dim0 c' =? dim0 inputs)%nat && (dim1 c' =? dim1 inputs)%nat);
    [|discriminate].
  inversion Hx; subst x. inversion Hx'; subst x'. clear Hx Hx'.
  unfold bmm in Hc, Hc'.
  destruct ((dim0 (softmax al) =? dim0 mems)%nat
            && (dim2 (softmax al) =? dim1 mems)%nat); [|discriminate].
  destruct ((dim0 (softmax al') =? dim0 mems')%nat
            && (dim2 (softmax al') =? dim1 mems')%nat); [|discriminate].
  inversion Hc; subst c. inversion Hc'; subst c'. clear Hc Hc'.
  cbn [at3 dim2]. rewrite D2, D1.
  destruct (d <? dim2 mems)%nat eqn:Hd; [|reflexivity].
  apply Nat.ltb_lt in Hd.
  apply LossFacts.fsum_ext. intros s Hs0.
  pose proof (HW s Hs0) as E. cbn [at3 softmax] in E. rewrite E.
  destruct (at2 mask b s) eqn:M.
  - now rewrite (Hag b s d Hb Hs0 Hd M).
  - destruct (Hfin b s d Hb Hs0 Hd M) as [r [r' [-> ->]]].
    assert (N : at3 al b t s = XNegInf).
    { rewrite At, (Hmask s Hs0), M. reflexivity. }
    destruct (softmax_row_neginf (dim2 al) (at3 al b t) s N) as [-> | ->];
      cbn; [reflexivity|].
    f_equal. now rewrite !Rmult_0_l.
Qed.

Lemma masked_memory_irrelevant_witness :
  exists h w h' w' : t3 fl,
    forward zero_attention (zeros_fl 1) (zeros_fl 2) (Some second_masked)
    = Some (h, w)
    /\ forward zero_attention (zeros_fl 1) second_changed (Some second_masked)
       = Some (h', w')
    /\ at3 w' 0 0 0 = at3 w 0 0 0
    /\ at3 h' 0 0 0 = at3 h 0 0 0.
Proof.
  do 4 eexists. split; [reflexivity|]. split; [reflexivity|].
  assert (Hag : forall b s d, (b < 1)%nat -> (s < 2)%nat -> (d < 1)%nat ->
            at2 (of_list2 false [[true; false]]) b s = true ->
            at3 second_changed b s d = at3 (zeros_fl 2) b s d).
  { intros b s d Hb Hs Hd M. assert (b = 0%nat) by lia. subst b.
    destruct s as [|[|s]]; [reflexivity|discriminate M|lia]. }
  assert (Hfin : forall b s d, (b < 1)%nat -> (s < 2)%nat -> (d < 1)%nat ->
            at2 (of_list2 false [[true; false]]) b s = false ->
            exists x x', at3 (zeros_fl 2) b s d = Num x
                         /\ at3 second_changed b s d = Num x').
  { intros b s d Hb Hs Hd M.
    destruct s as [|[|s]]; [|do 2 eexists; split; reflexivity|lia].
    do 2 eexists. split; reflexivity. }
  destruct (@masked_memory_irrelevant zero_attention (zeros_fl 1) (zeros_fl 2)
              second_changed (of_list2 false [[true; false]]) _ _ _ _
              eq_refl eq_refl eq_refl eq_refl eq_refl Hag Hfin eq_refl eq_refl
              0%nat 0%nat 0%nat Nat.lt_0_1) as [HW HH].
  split; [apply HW; cbn; lia|exact HH].
Defined.

End AttnExtra.

(** ** More on the loss *)

Module LossExtra.

Import Tensor Fl NN Attn Dec Loss LossFacts.

Section WithTorch.

Context {T : Torch}.

(** The value of the loss on a well-shaped batch. *)
Lemma compute_loss_eq (self : GraphTrans) (nodes : t2 Z)
    (node_outputs : t3 fl) (edges : t2 Z) (edge_outputs : t3 fl) :
  dim0 node_outputs = rows nodes -> dim1 node_outputs = cols nodes ->
  rows edges = rows nodes ->
  dim0 edge_outputs = rows nodes -> dim1 edge_outputs = cols edges ->
  0 < rows nodes -> 0 < cols nodes -> 0 < cols edges ->
  labels_ok (ignore_index (node_xent self)) (dim2 node_outputs) nodes ->
  labels_ok (ignore_index (edge_xent self)) (dim2 edge_outputs) edges ->
  compute_loss self nodes node_outputs edges edge_outputs
  = Some (fdiv (fadd (branch_loss (ignore_index (node_xent self)) nodes node_outputs)
                     (branch_loss (ignore_index (edge_xent self)) edges edge_outputs))
               (Num (INR (rows nodes)))).
Proof.
  intros N0 N1 E E0 E1 Hb Ht He Hn Hed.
  unfold compute_loss, view_flat.
  rewrite Nat.eqb_refl. cbn [bind].
  rewrite (@view_rows_shaped node_outputs (rows nodes) (cols nodes) N0 N1)
    by nia.
  cbn [bind].
  rewrite (@branch_value (node_xent self) nodes node_outputs N0 N1)
    by (nia || exact Hn).
  cbn [bind].
  rewrite <- E. rewrite <- E in E0.
  rewrite Nat.eqb_refl. cbn [bind].
  rewrite (@view_rows_shaped edge_outputs (rows edges) (cols edges) E0 E1)
    by nia.
  cbn [bind].
  rewrite (@branch_value (edge_xent self) edges edge_outputs E0 E1)
    by (nia || exact Hed).
  cbn [bind]. reflexivity.
Qed.

Lemma view_rows_zero (x : t3 fl) : view_rows x 0 = None.
Proof. reflexivity. Qed.

(** X15.  An empty batch, node sequences of length 0 or edge sequences
    of length 0 make the loss raise: [view(0, -1)] is refused. *)
Theorem compute_loss_empty (self : GraphTrans) (nodes : t2 Z)
    (node_outputs : t3 fl) (edges : t2 Z) (edge_outputs : t3 fl) :
  rows nodes = 0 \/ cols nodes = 0 \/ cols edges = 0 ->
  compute_loss self nodes node_outputs edges edge_outputs = None.
Proof.
  intros H. unfold compute_loss, view_flat.
  rewrite Nat.eqb_refl. cbn [bind].
  destruct (Nat.eq_dec (rows nodes * cols nodes) 0) as [Z0|NZ].
  - rewrite Z0. reflexivity.
  - assert (Hc : cols edges = 0) by nia. rewrite Hc, !Nat.mul_0_r.
    destruct (view_rows node_outputs (rows nodes * cols nodes)); cbn [bind];
      [|reflexivity].
    destruct (CrossEntropyLoss_forward _ _ _); cbn [bind]; [|reflexivity].
    reflexivity.
Qed.

End WithTorch.

Lemma compute_loss_empty_witness :
  compute_loss (T := sample_torch)
    (GraphTrans_new sample_args three_nodes two_edges)
    (mk2 0 2 (fun _ _ => 0%Z)) sample_logits sample_labels sample_logits
  = None.
Proof.
  apply (@compute_loss_empty sample_torch). left. reflexivity.
Defined.

(** *** Labels outside the classes *)

Lemma CrossEntropyLoss_raises (l : CrossEntropyLoss) (y : t2 Z) (x : t3 fl)
    (b t : nat) :
  dim1 x = cols y -> b < rows y -> t < cols y ->
  at2 y b t <> ignore_index l ->
  (at2 y b t < 0 \/ Z.of_nat (dim2 x) <= at2 y b t)%Z ->
  CrossEntropyLoss_forward l
    (mk2 (rows y * cols y) (dim2 x) (fun i j => flat3 x (i * dim2 x + j)))
    (mk1 (rows y * cols y) (flat2 y))
  = None.
Proof.
  intros H1 Hb Ht Hne Hbad. unfold CrossEntropyLoss_forward.
  cbn [rows cols at2 len1 at1]. rewrite Nat.eqb_refl.
  apply MaskExtra.foldM_raises
    with (I := fun _ => True) (x := b * cols y + t); auto.
  - intros s _. unfold xent_term, flat2.
    assert (HT : cols y <> 0) by lia.
    rewrite (Nat.div_add_l b (cols y) t HT), (Nat.div_small t _ Ht),
      Nat.add_0_r.
    rewrite (Nat.add_comm (b * cols y) t), Nat.Div0.mod_add,
      (Nat.mod_small t _ Ht).
    apply Z.eqb_neq in Hne. rewrite Hne.
    assert (G : ((0 <=? at2 y b t)%Z && (at2 y b t <? Z.of_nat (dim2 x))%Z)
                = false).
    { apply andb_false_iff.
      destruct Hbad; [left; apply Z.leb_gt|right; apply Z.ltb_ge]; lia. }
    now rewrite G.
  - apply in_seq. nia.
Qed.

(** *** Finite logits *)

Lemma fsum_Num_bound (n : nat) (f : nat -> fl) :
  (forall k, k < n -> exists r, f k = Num r /\ (0 <= r)%R) ->
  exists s, fsum n f = Num s /\ (0 <= s)%R
            /\ forall k r, k < n -> f k = Num r -> (r <= s)%R.
Proof.
  induction n as [|n IH]; intros H; cbn [fsum].
  - exists 0%R. split; [reflexivity|]. split; [lra|]. intros k r Hk. lia.
  - destruct IH as [s [Es [Hs Hle]]]; [intros k Hk; apply H; lia|].
    destruct (H n (Nat.lt_succ_diag_r n)) as [rn [En Hn]].
    exists (s + rn)%R. rewrite Es, En. split; [reflexivity|].
    split; [lra|]. intros k r Hk Er.
    destruct (Nat.eq_dec k n) as [->|Ne].
    + rewrite En in Er. inversion Er. lra.
    + assert (r <= s)%R by (apply (Hle k); [lia|exact Er]). lra.
Qed.

Lemma ln_le_mono (x y : R) : (0 < x)%R -> (x <= y)%R -> (ln x <= ln y)%R.
Proof.
  intros Hx [Hlt | ->]; [left; now apply ln_increasing|lra].
Qed.

Lemma xent_at_nonneg (c : nat) (row : nat -> fl) (y : nat) :
  (forall k, k < c -> exists r, row k = Num r) -> y < c ->
  exists r, xent_at c row y = Num r /\ (0 <= r)%R.
Proof.
  intros Hfin Hy. unfold xent_at.
  destruct (@fsum_Num_bound c (fun k => fexp (row k))) as [s [Es [_ Hle]]].
  { intros k Hk. destruct (Hfin k Hk) as [r Er]. exists (exp r).
    rewrite Er. split; [reflexivity|]. left. apply exp_pos. }
  destruct (Hfin y Hy) as [ry Ey].
  assert (Hexp : (exp ry <= s)%R).
  { apply (Hle y); [exact Hy|]. now rewrite Ey. }
  rewrite Es, Ey. cbn. eexists. split; [reflexivity|].
  pose proof (exp_pos ry) as Hp.
  pose proof (ln_le_mono Hp Hexp) as Hl. rewrite ln_exp in Hl. lra.
Qed.

Lemma branch_loss_nonneg (pad : Z) (y : t2 Z) (x : t3 fl) :
  labels_ok pad (dim2 x) y ->
  (forall b t c, b < rows y -> t < cols y -> c < dim2 x ->
     exists r, at3 x b t c = Num r) ->
  exists r, branch_loss pad y x = Num r /\ (0 <= r)%R.
Proof.
  intros Hok Hfin. unfold branch_loss.
  destruct (@fsum_Num_bound (rows y)
              (fun b => fsum (cols y) (fun t => position_loss pad y x b t)))
    as [s [Es [Hs _]]]; [|eauto].
  intros b Hb.
  destruct (@fsum_Num_bound (cols y) (fun t => position_loss pad y x b t))
    as [s [Es [Hs _]]]; [|eauto].
  intros t Ht. unfold position_loss.
  destruct (Z.eqb_spec (at2 y b t) pad) as [E|E]; [exists 0%R; split; [reflexivity|lra]|].
  destruct (Hok b t Hb Ht) as [P|R]; [contradiction|].
  apply xent_at_nonneg; [|lia]. intros k Hk. exact (Hfin b t k Hb Ht Hk).
Qed.

Section Values.

Context {T : Torch}.

(** X16.  A node label that is neither the pad id nor a class of the
    node logits makes the loss raise; so does such an edge label. *)
Theorem compute_loss_bad_label (self : GraphTrans) (nodes : t2 Z)
    (node_outputs : t3 fl) (edges : t2 Z) (edge_outputs : t3 fl) (b t : nat) :
  dim0 node_outputs = rows nodes -> dim1 node_outputs = cols nodes ->
  rows edges = rows nodes ->
  dim0 edge_outputs = rows nodes -> dim1 edge_outputs = cols edges ->
  (b < rows nodes /\ t < cols nodes
   /\ at2 nodes b t <> ignore_index (node_xent self)
   /\ (at2 nodes b t < 0 \/ Z.of_nat (dim2 node_outputs) <= at2 nodes b t)%Z)
  \/ (b < rows edges /\ t < cols edges
      /\ at2 edges b t <> ignore_index (edge_xent self)
      /\ (at2 edges b t < 0 \/ Z.of_nat (dim2 edge_outputs) <= at2 edges b t)%Z) ->
  compute_loss self nodes node_outputs edges edge_outputs = None.
Proof.
  intros N0 N1 E E0 E1 Hbad.
  unfold compute_loss, view_flat. rewrite Nat.eqb_refl. cbn [bind].
  destruct Hbad as [[Hb [Ht [Hne Hr]]]|[Hb [Ht [Hne Hr]]]].
  - rewrite (@view_rows_shaped node_outputs (rows nodes) (cols nodes) N0 N1)
      by nia.
    cbn [bind].
    now rewrite (@CrossEntropyLoss_raises (node_xent self) nodes node_outputs
                   b t N1 Hb Ht Hne Hr).
  - destruct (view_rows node_outputs _); cbn [bind]; [|reflexivity].
    destruct (CrossEntropyLoss_forward (node_xent self) _ _); cbn [bind];
      [|reflexivity].
    rewrite <- E. rewrite <- E in E0. rewrite Nat.eqb_refl. cbn [bind].
    rewrite (@view_rows_shaped edge_outputs (rows edges) (cols edges) E0 E1)
      by nia.
    cbn [bind].
    now rewrite (@CrossEntropyLoss_raises (edge_xent self) edges edge_outputs
                   b t E1 Hb Ht Hne Hr).
Qed.

(** X17.  On a well-shaped batch with valid labels and finite logits the
    loss is a number, and it is not negative. *)
Theorem compute_loss_nonneg (self : GraphTrans) (nodes : t2 Z)
    (node_outputs : t3 fl) (edges : t2 Z) (edge_outputs : t3 fl) :
  dim0 node_outputs = rows nodes -> dim1 node_outputs = cols nodes ->
  rows edges = rows nodes ->
  dim0 edge_outputs = rows nodes -> dim1 edge_outputs = cols edges ->
  0 < rows nodes -> 0 < cols nodes -> 0 < cols edges ->
  labels_ok (ignore_index (node_xent self)) (dim2 node_outputs) nodes ->
  labels_ok (ignore_index (edge_xent self)) (dim2 edge_outputs) edges ->
  (forall b t c, b < rows nodes -> t < cols nodes -> c < dim2 node_outputs ->
     exists r, at3 node_outputs b t c = Num r) ->
  (forall b t c, b < rows edges -> t < cols edges -> c < dim2 edge_outputs ->
     exists r, at3 edge_outputs b t c = Num r) ->
  exists r,
    compute_loss self nodes node_outputs edges edge_outputs = Some (Num r)
    /\ (0 <= r)%R.
Proof.
  intros N0 N1 E E0 E1 Hb Ht He Hn Hed Fn Fe.
  rewrite (@compute_loss_eq T self nodes node_outputs edges edge_outputs
             N0 N1 E E0 E1 Hb Ht He Hn Hed).
  destruct (@branch_loss_nonneg _ nodes node_outputs Hn Fn) as [rn [-> Hrn]].
  destruct (@branch_loss_nonneg _ edges edge_outputs Hed Fe) as [re [-> Hre]].
  cbn. eexists. split; [reflexivity|].
  apply Rmult_le_pos; [lra|]. left. apply Rinv_0_lt_compat.
  now apply lt_0_INR.
Qed.

(** X18.  When every node label and every edge label is the pad id, the
    loss is exactly 0, whatever the logits hold, NaN included. *)
Theorem compute_loss_all_pad (self : GraphTrans) (nodes : t2 Z)
    (node_outputs : t3 fl) (edges : t2 Z) (edge_outputs : t3 fl) :
  dim0 node_outputs = rows nodes -> dim1 node_outputs = cols nodes ->
  rows edges = rows nodes ->
  dim0 edge_outputs = rows nodes -> dim1 edge_outputs = cols edges ->
  0 < rows nodes -> 0 < cols nodes -> 0 < cols edges ->
  (forall b t, b < rows nodes -> t < cols nodes ->
     at2 nodes b t = ignore_index (node_xent self)) ->
  (forall b t, b < rows edges -> t < cols edges ->
     at2 edges b t = ignore_index (edge_xent self)) ->
  compute_loss self nodes node_outputs edges edge_outputs = Some (Num 0%R).
Proof.
  intros N0 N1 E E0 E1 Hb Ht He Pn Pe.
  rewrite (@compute_loss_eq T self nodes node_outputs edges edge_outputs
             N0 N1 E E0 E1 Hb Ht He)
    by (intros b t Hb' Ht'; left; auto).
  rewrite (@branch_all_pad _ nodes node_outputs Pn),
    (@branch_all_pad _ edges edge_outputs Pe).
  cbn. f_equal. f_equal. unfold Rdiv. rewrite Rplus_0_l. apply Rmult_0_l.
Qed.

End Values.

Lemma sample_labels_ok : labels_ok 0 2 sample_labels.
Proof.
  intros b t Hb Ht. cbn in Hb, Ht.
  assert (b = 0) by lia. subst b.
  destruct t as [|[|t]]; [right|left|lia]; cbn; lia.
Qed.

Lemma pad_labels_pad (b t : nat) : b < 1 -> t < 2 -> at2 pad_labels b t = 0%Z.
Proof.
  intros Hb Ht. assert (b = 0) by lia. subst b.
  destruct t as [|[|t]]; [reflexivity|reflexivity|lia].
Qed.

Lemma compute_loss_bad_label_witness :
  compute_loss (T := sample_torch)
    (GraphTrans_new sample_args three_nodes two_edges)
    bad_labels sample_logits sample_labels sample_logits
  = None.
Proof.
  apply (@compute_loss_bad_label sample_torch
           (GraphTrans_new sample_args three_nodes two_edges)
           bad_labels sample_logits sample_labels sample_logits 0 0
           eq_refl eq_refl eq_refl eq_refl eq_refl).
  left. cbn. repeat split; lia.
Defined.

Lemma compute_loss_nonneg_witness :
  exists r,
    compute_loss (T := sample_torch)
      (GraphTrans_new sample_args three_nodes two_edges)
      sample_labels sample_logits sample_labels sample_logits
    = Some (Num r)
    /\ (0 <= r)%R.
Proof.
  apply (@compute_loss_nonneg sample_torch
           (GraphTrans_new sample_args three_nodes two_edges)
           sample_labels sample_logits sample_labels sample_logits
           eq_refl eq_refl eq_refl eq_refl eq_refl
           Nat.lt_0_1 Nat.lt_0_2 Nat.lt_0_2 sample_labels_ok sample_labels_ok);
    intros b t c _ _ _; eexists; reflexivity.
Defined.

Lemma compute_loss_all_pad_witness :
  compute_loss (T := sample_torch)
    (GraphTrans_new sample_args three_nodes two_edges)
    pad_labels nan_logits pad_labels nan_logits
  = Some (Num 0%R).
Proof.
  exact (@compute_loss_all_pad sample_torch
           (GraphTrans_new sample_args three_nodes two_edges)
           pad_labels nan_logits pad_labels nan_logits
           eq_refl eq_refl eq_refl eq_refl eq_refl
           Nat.lt_0_1 Nat.lt_0_2 Nat.lt_0_2 pad_labels_pad pad_labels_pad).
Defined.

(** *** Uniform logits *)

Lemma fsum_const (n : nat) (f : nat -> fl) (r : R) :
  (forall k, k < n -> f k = Num r) -> fsum n f = Num (INR n * r).
Proof.
  induction n as [|n IH]; intros H.
  - cbn. f_equal. lra.
  - cbn [fsum]. rewrite IH by (intros k Hk; apply H; lia).
    rewrite (H n) by lia. rewrite S_INR. cbn. f_equal. lra.
Qed.

Lemma fsum_counts (n : nat) (f : nat -> fl) (cnt : nat -> nat) (L : R) :
  (forall k, k < n -> f k = Num (INR (cnt k) * L)) ->
  fsum n f = Num (INR (list_sum (map cnt (seq 0 n))) * L).
Proof.
  induction n as [|n IH]; intros H.
  - cbn. f_equal. lra.
  - cbn [fsum]. rewrite IH by (intros k Hk; apply H; lia).
    rewrite (H n) by lia.
    rewrite seq_S, map_app, list_sum_app, plus_INR. cbn [map Nat.add].
    change (list_sum [cnt n]) with (cnt n + 0). rewrite Nat.add_0_r.
    cbn [fadd lift2]. f_equal. lra.
Qed.

Lemma xent_at_uniform (c : nat) (row : nat -> fl) (y : nat) (u : R) :
  (forall k, k < c -> row k = Num u) -> y < c ->
  xent_at c row y = Num (ln (INR c)).
Proof.
  intros H Hy. unfold xent_at.
  rewrite (@fsum_const c (fun k => fexp (row k)) (exp u))
    by (intros k Hk; now rewrite H).
  rewrite (H y Hy). cbn. f_equal.
  rewrite ln_mult; [|apply lt_0_INR; lia|apply exp_pos].
  rewrite ln_exp. lra.
Qed.

Lemma branch_loss_uniform (pad : Z) (y : t2 Z) (x : t3 fl)
    (u : nat -> nat -> R) :
  labels_ok pad (dim2 x) y ->
  (forall b t c, b < rows y -> t < cols y -> c < dim2 x ->
     at3 x b t c = Num (u b t)) ->
  branch_loss pad y x = Num (INR (nonpad_count pad y) * ln (INR (dim2 x))).
Proof.
  intros Hok Hu. unfold branch_loss, nonpad_count.
  apply fsum_counts. intros b Hb. apply fsum_counts. intros t Ht.
  unfold position_loss.
  destruct (Z.eqb_spec (at2 y b t) pad) as [E|E].
  - cbn. f_equal. lra.
  - destruct (Hok b t Hb Ht) as [P|R]; [contradiction|].
    rewrite (@xent_at_uniform (dim2 x) (at3 x b t) _ (u b t));
      [cbn; f_equal; lra| |lia].
    intros k Hk. now apply Hu.
Qed.

Section Uniform.

Context {T : Torch}.

(** X19.  When at every position all classes have the same logit, every
    non-pad position adds the logarithm of the number of classes: the
    loss is (node non-pad count * ln |node classes| + edge non-pad count
    * ln |edge classes|) / bsz. *)
Theorem compute_loss_uniform (self : GraphTrans) (nodes : t2 Z)
    (node_outputs : t3 fl) (edges : t2 Z) (edge_outputs : t3 fl)
    (un ue : nat -> nat -> R) :
  dim0 node_outputs = rows nodes -> dim1 node_outputs = cols nodes ->
  rows edges = rows nodes ->
  dim0 edge_outputs = rows nodes -> dim1 edge_outputs = cols edges ->
  0 < rows nodes -> 0 < cols nodes -> 0 < cols edges ->
  labels_ok (ignore_index (node_xent self)) (dim2 node_outputs) nodes ->
  labels_ok (ignore_index (edge_xent self)) (dim2 edge_outputs) edges ->
  (forall b t c, b < rows nodes -> t < cols nodes -> c < dim2 node_outputs ->
     at3 node_outputs b t c = Num (un b t)) ->
  (forall b t c, b < rows edges -> t < cols edges -> c < dim2 edge_outputs ->
     at3 edge_outputs b t c = Num (ue b t)) ->
  compute_loss self nodes node_outputs edges edge_outputs
  = Some (Num ((INR (nonpad_count (ignore_index (node_xent self)) nodes)
                * ln (INR (dim2 node_outputs))
                + INR (nonpad_count (ignore_index (edge_xent self)) edges)
                  * ln (INR (dim2 edge_outputs)))
               / INR (rows nodes))).
Proof.
  intros N0 N1 E E0 E1 Hb Ht He Hn Hed Un Ue.
  rewrite (@compute_loss_eq T self nodes node_outputs edges edge_outputs
             N0 N1 E E0 E1 Hb Ht He Hn Hed).
  rewrite (@branch_loss_uniform _ nodes node_outputs un Hn Un).
  rewrite (@branch_loss_uniform _ edges edge_outputs ue Hed Ue).
  reflexivity.
Qed.

End Uniform.

Lemma compute_loss_uniform_witness :
  compute_loss (T := sample_torch)
    (GraphTrans_new sample_args three_nodes two_edges)
    sample_labels sample_logits sample_labels sample_logits
  = Some (Num ((INR 1 * ln (INR 2) + INR 1 * ln (INR 2)) / INR 1)).
Proof.
  exact (@compute_loss_uniform sample_torch
           (GraphTrans_new sample_args three_nodes two_edges)
           sample_labels sample_logits sample_labels sample_logits
           (fun _ _ => 0%R) (fun _ _ => 0%R)
           eq_refl eq_refl eq_refl eq_refl eq_refl
           Nat.lt_0_1 Nat.lt_0_2 Nat.lt_0_2 sample_labels_ok sample_labels_ok
           (fun _ _ _ _ _ _ => eq_refl) (fun _ _ _ _ _ _ => eq_refl)).
Defined.

End LossExtra.

(** ** More on the decoder *)

Module DecExtra.

Import Tensor Fl NN Attn Dec DecFacts.

Lemma Embeddings_forward_raises (e : Embeddings) (x : t2 Z) (b t : nat) :
  b < rows x -> t < cols x ->
  (at2 x b t < 0 \/ Z.of_nat (rows (lut_weight e)) <= at2 x b t)%Z ->
  Embeddings_forward e x = None.
Proof.
  intros Hb Ht Hbad. unfold Embeddings_forward.
  destruct (ids_in_range (rows (lut_weight e)) x) eqn:E; [|reflexivity].
  unfold ids_in_range in E. rewrite forallb_forall in E.
  specialize (E (b, t)). cbn [fst snd] in E.
  rewrite MaskFacts.in_indices2 in E. specialize (E (conj Hb Ht)).
  apply andb_true_iff in E. destruct E as [E1 E2].
  apply Z.leb_le in E1. apply Z.ltb_lt in E2. lia.
Qed.

Section WithTorch.

Context {T : Torch}.

(** X20.  The edge ids are looked up in the node table: in a model
    built by [GraphTrans.__init__], an edge id that is negative or not
    below the number of node symbols makes the edge generator raise,
    whatever the edge dictionary holds. *)
Theorem edge_id_outside_node_table (args : Args)
    (node_dict edge_dict : Dictionary) (enc : EncInfo) (edges : t2 Z)
    (src tgt : t3 fl) (init0 : option Hidden) (b t : nat) :
  b < rows edges -> t < cols edges ->
  (at2 edges b t < 0 \/ Z.of_nat (dict_len node_dict) <= at2 edges b t)%Z ->
  edge_forward (graph_dec (GraphTrans_new args node_dict edge_dict))
    enc edges src tgt init0 = None.
Proof.
  intros Hb Ht Hbad. unfold edge_forward.
  rewrite (@Embeddings_forward_raises _ edges b t Hb Ht); [reflexivity|].
  exact Hbad.
Qed.

(** X21.  In a model built by [GraphTrans.__init__] the hidden state
    that reaches the vocabulary projection has the width of the
    embedding table, for every choice of sizes: once the attention
    output is computed, the weight-tied projection cannot fail on a
    shape, and the node logits have one score per node symbol. *)
Theorem node_projection_fits (args : Args) (node_dict edge_dict : Dictionary)
    (enc : EncInfo) (nodes : t2 Z) (lens : t1) (init0 : option Hidden)
    (rnn : t3 fl) (h : Hidden) (hid : t3 fl) :
  node_hidden (graph_dec (GraphTrans_new args node_dict edge_dict))
    enc nodes lens init0 = Some (rnn, h, hid) ->
  dim2 hid = encoder_embed_dim args
  /\ (dim2 (dropout hid) = dim2 hid ->
      exists logits,
        node_forward (graph_dec (GraphTrans_new args node_dict edge_dict))
          enc nodes lens init0 = Some (rnn, h, logits)
        /\ dim2 logits = dict_len node_dict).
Proof.
  intros H.
  assert (Hd : dim2 hid = encoder_embed_dim args).
  { unfold node_hidden in H.
    apply AttnFacts.bind_Some in H. destruct H as [e1 [_ H]].
    apply AttnFacts.bind_Some in H. destruct H as [e2 [_ H]].
    apply AttnFacts.bind_Some in H. destruct H as [rh [_ H]].
    apply AttnFacts.bind_Some in H. destruct H as [[ah aw] [Ha H]].
    apply AttnFacts.bind_Some in H. destruct H as [out [Ho H]].
    inversion H; subst out. clear H.
    apply AttnExtra.forward_dims in Ha. destruct Ha as [_ [_ [_ Ha]]].
    cbn [fst] in Ho. cbn in Ha, Ho.
    destruct (Nat.eqb_spec (node_hidden_size args) (encoder_embed_dim args))
      as [E|E]; cbn [optional_proj] in Ho.
    - inversion Ho; subst hid. lia.
    - apply AttnExtra.Linear_forward_dims in Ho. destruct Ho as [_ [_ Ho]].
      exact Ho. }
  split; [exact Hd|]. intros Hdrop.
  unfold node_forward. rewrite H. cbn [bind fst snd].
  unfold F_linear. cbn [lut_weight node_embeds graph_dec GraphTrans_new
                        Decoder_new Embeddings_new cols rows].
  rewrite Hdrop, Hd, Nat.eqb_refl. cbn [bind].
  eexists. split; reflexivity.
Qed.

End WithTorch.

Lemma edge_id_outside_node_table_witness :
  (at2 (of_list2 0%Z [[4]]%Z) 0 0 < Z.of_nat (dict_len five_edges))%Z
  /\ edge_forward (T := sample_torch)
       (graph_dec (GraphTrans_new sample_args three_nodes five_edges))
       sample_enc (of_list2 0%Z [[4]]%Z) (zeros_fl 1) (zeros_fl 1) None
     = None.
Proof.
  split; [cbn; lia|].
  apply (@edge_id_outside_node_table sample_torch sample_args three_nodes
           five_edges sample_enc (of_list2 0%Z [[4]]%Z) (zeros_fl 1)
           (zeros_fl 1) None 0 0); cbn; lia.
Defined.

Lemma node_projection_fits_witness :
  match node_hidden (T := sample_torch)
          (graph_dec (GraphTrans_new sample_args three_nodes two_edges))
          sample_enc (of_list2 0%Z [[1; 2]]%Z) (mk1 1 (fun _ => 2%Z)) None
  with
  | Some r => dim2 (snd r) = encoder_embed_dim sample_args
  | None => False
  end.
Proof.
  destruct (node_hidden (T := sample_torch)
              (graph_dec (GraphTrans_new sample_args three_nodes two_edges))
              sample_enc (of_list2 0%Z [[1; 2]]%Z) (mk1 1 (fun _ => 2%Z)) None)
    as [[[rnn h] hid]|] eqn:E; [|discriminate E].
  exact (proj1 (node_projection_fits _ _ _ _ _ _ _ E)).
Defined.

End DecExtra.

(** ** Length masks *)

Module SeqMaskExtra.

Import Tensor Attn.
Local Open Scope Z_scope.

Lemma fold_left_max_ge (l : list Z) (a : Z) :
  a <= fold_left Z.max l a
  /\ forall x, In x l -> x <= fold_left Z.max l a.
Proof.
  revert a. induction l as [|y l IH]; intros a; cbn [fold_left].
  - split; [lia|intros x []].
  - destruct (IH (Z.max a y)) as [H1 H2]. split; [lia|].
    intros x [->|Hx]; [lia|now apply H2].
Qed.

Lemma t1_max_ge (l : t1) (k : Z) (b : nat) :
  t1_max l = Some k -> (b < len1 l)%nat -> at1 l b <= k.
Proof.
  unfold t1_max. destruct (len1 l) as [|n] eqn:E; [discriminate|].
  intros H Hb. inversion H; subst k. clear H.
  destruct (fold_left_max_ge (map (at1 l) (seq 1 n)) (at1 l 0)) as [H0 Hx].
  destruct b as [|b]; [exact H0|].
  apply Hx. apply in_map. apply in_seq. lia.
Qed.

(** X22.  With a positive [max_len] the length mask has one row per
    length and [max_len] columns, and position [s] of row [b] is valid
    exactly when [s < lengths[b]].  With [max_len = 0] the [or] falls
    back to the longest length: the call raises on an empty tensor of
    lengths, and otherwise the mask is wide enough for every length. *)
Theorem sequence_mask_spec (lengths : t1) (max_len : nat) :
  ((0 < max_len)%nat ->
   exists m,
     sequence_mask lengths max_len = Some m
     /\ rows m = len1 lengths /\ cols m = max_len
     /\ forall b s, at2 m b s = true <-> Z.of_nat s < at1 lengths b)
  /\ (len1 lengths = 0%nat -> sequence_mask lengths 0 = None)
  /\ (forall m, sequence_mask lengths 0 = Some m ->
        forall b, (b < len1 lengths)%nat ->
          at1 lengths b <= Z.of_nat (cols m)).
Proof.
  split; [|split].
  - intros Hpos. unfold sequence_mask.
    destruct (Nat.eqb_spec max_len 0) as [E|E]; [lia|]. cbn [bind].
    eexists. split; [reflexivity|]. cbn. repeat split; try reflexivity.
    + apply Z.ltb_lt.
    + apply Z.ltb_lt.
  - intros Hl. unfold sequence_mask, t1_max. rewrite Hl. reflexivity.
  - intros m H b Hb. unfold sequence_mask in H. cbn [Nat.eqb bind] in H.
    destruct (t1_max lengths) as [k|] eqn:Ek; cbn [bind] in H; [|discriminate].
    destruct (Z.ltb_spec k 0) as [Hk|Hk]; cbn [bind] in H; [discriminate|].
    inversion H; subst m. cbn [cols].
    pose proof (@t1_max_ge lengths k b Ek Hb). lia.
Qed.

Lemma sequence_mask_spec_witness :
  exists m,
    sequence_mask (mk1 2 (fun b => if (b =? 0)%nat then 1 else 3)) 0 = Some m
    /\ cols m = 3%nat
    /\ at1 (mk1 2 (fun b => if (b =? 0)%nat then 1 else 3)) 1
       <= Z.of_nat (cols m).
Proof.
  eexists. split; [reflexivity|]. split; [reflexivity|].
  destruct (sequence_mask_spec (mk1 2 (fun b => if (b =? 0)%nat then 1 else 3)) 0)
    as [_ [_ H]].
  apply (H _ eq_refl 1%nat). cbn. lia.
Defined.

End SeqMaskExtra.

(** ** The transformer building blocks *)

Module BlocksExtra.

Import Tensor Fl Attn AttnFacts AttnExtra LossFacts Blocks.
Local Open Scope R_scope.

(** *** Broadcasting *)

Lemma bcast_bidx_l (n m b i : nat) :
  bcast n m = Some b -> (i < b)%nat -> (bidx n i < n)%nat.
Proof.
  unfold bcast, bidx. intros H Hi.
  destruct (Nat.eqb_spec n 1) as [E1|E1]; [lia|].
  destruct (Nat.eqb_spec n m) as [E|E]; [inversion H; lia|].
  destruct (Nat.eqb_spec m 1) as [E2|E2]; [inversion H; lia|discriminate].
Qed.

Lemma bcast_bidx_r (n m b i : nat) :
  bcast n m = Some b -> (i < b)%nat -> (bidx m i < m)%nat.
Proof.
  unfold bcast, bidx. intros H Hi.
  destruct (Nat.eqb_spec m 1) as [E2|E2]; [lia|].
  destruct (Nat.eqb_spec n m) as [E|E]; [inversion H; lia|].
  destruct (Nat.eqb_spec n 1) as [E1|E1]; [inversion H; lia|discriminate].
Qed.

Lemma bcast_same (n : nat) : bcast n n = Some n.
Proof. unfold bcast. now rewrite Nat.eqb_refl. Qed.

Lemma bcast_1_r (n : nat) : bcast n 1 = Some n.
Proof.
  unfold bcast. destruct (Nat.eqb_spec n 1) as [->|E]; reflexivity.
Qed.

(** *** Sums *)

Lemma rsum_const (n : nat) (c : R) : rsum n (fun _ => c) = INR n * c.
Proof.
  induction n as [|n IH]; [cbn; lra|].
  cbn [rsum]. rewrite IH, S_INR. lra.
Qed.



Lemma fsum_is_num (n : nat) (f : nat -> fl) :
  (forall k, (k < n)%nat -> exists r, f k = Num r) -> exists r, fsum n f = Num r.
Proof.
  induction n as [|n IH]; intros H; cbn [fsum]; [now eexists|].
  destruct IH as [r Er]; [intros k Hk; apply H; lia|].
  destruct (H n (Nat.lt_succ_diag_r n)) as [rn En].
  rewrite Er, En. now eexists.
Qed.

(** *** Scaled dot-product attention *)

Lemma softmax_row_const (n : nat) (v : R) (s : nat) :
  (0 < n)%nat -> softmax_row n (fun _ => XVal (Num v)) s = Num (1 / INR n).
Proof.
  intros Hn.
  assert (Hnan : forall k, (k < n)%nat ->
                   (fun _ : nat => XVal (Num v)) k <> XVal NaN)
    by (intros k _; discriminate).
  destruct (@softmax_row_value n (fun _ => XVal (Num v)) s 0%nat v Hn eq_refl Hnan)
    as [E _].
  rewrite E. cbn [xexp]. rewrite rsum_const. f_equal.
  assert (INR n <> 0) by (apply not_0_INR; lia).
  pose proof (exp_pos v). field. split; lra.
Qed.

Lemma attention_weights (query key value : t3 fl) (mask : option (t3 Z))
    (out p : t3 fl) :
  attention query key value mask None = Some (out, p) ->
  exists qk sc,
    matmul3 query (transpose_last key) = Some qk
    /\ match mask with
       | Some m => masked_fill (map3 (scaled (dim2 query)) qk) m (-1000000000)
       | None => Some (map3 (scaled (dim2 query)) qk)
       end = Some sc
    /\ p = softmax (unmasked sc).
Proof.
  unfold attention. intros H.
  apply bind_Some in H. destruct H as [qk [Hqk H]].
  apply bind_Some in H. destruct H as [sc [Hsc H]].
  apply bind_Some in H. destruct H as [o [_ H]].
  exists qk, sc. split; [exact Hqk|]. split; [exact Hsc|]. now inversion H.
Qed.

Lemma masked_fill_Some (scores : t3 fl) (mask : t3 Z) (v : R) (sc : t3 fl) :
  masked_fill scores mask v = Some sc ->
  exists b t s,
    bcast (dim0 scores) (dim0 mask) = Some b
    /\ bcast (dim1 scores) (dim1 mask) = Some t
    /\ bcast (dim2 scores) (dim2 mask) = Some s
    /\ sc = mk3 b t s
              (fun i j k =>
                 if (at3 mask (bidx (dim0 mask) i) (bidx (dim1 mask) j)
                         (bidx (dim2 mask) k) =? 0)%Z
                 then Num v
                 else at3 scores (bidx (dim0 scores) i) (bidx (dim1 scores) j)
                          (bidx (dim2 scores) k)).
Proof.
  unfold masked_fill. intros H.
  apply bind_Some in H. destruct H as [b [Hb H]].
  apply bind_Some in H. destruct H as [t [Ht H]].
  apply bind_Some in H. destruct H as [s [Hs H]].
  exists b, t, s. repeat (split; [assumption|]). now inversion H.
Qed.

(** X23.  A query row whose mask is zero at every key position attends
    uniformly: every key gets the weight 1 / (number of keys), whatever
    the scores were, NaN included.  Masking fills in the finite value
    -1e9, so a fully masked row is not NaN here. *)
Theorem attention_masked_row_uniform (query key value : t3 fl) (mask : t3 Z)
    (out p : t3 fl) (b t : nat) :
  attention query key value (Some mask) None = Some (out, p) ->
  (b < dim0 p)%nat -> (t < dim1 p)%nat ->
  (forall s, (s < dim2 p)%nat ->
     at3 mask (bidx (dim0 mask) b) (bidx (dim1 mask) t) (bidx (dim2 mask) s)
     = 0%Z) ->
  forall s, (s < dim2 p)%nat -> at3 p b t s = Num (1 / INR (dim2 p)).
Proof.
  intros H _ _ Hm s Hs.
  apply attention_weights in H. destruct H as [qk [sc [_ [Hsc ->]]]].
  apply masked_fill_Some in Hsc.
  destruct Hsc as [b' [t' [s' [_ [_ [_ ->]]]]]].
  cbn [softmax unmasked dim0 dim1 dim2 at3] in *.
  etransitivity; [|apply softmax_row_const; lia].
  apply softmax_row_ext; [|exact Hs].
  intros k Hk. now rewrite (Hm k Hk).
Qed.

Lemma attention_masked_row_uniform_witness :
  match attention (zeros_fl 1) (nan_fl 2) (zeros_fl 2) (Some (zero_mask 2)) None with
  | Some (_, p) => at3 p 0 0 1 = Num (1 / INR 2)
  | None => False
  end.
Proof.
  destruct (attention (zeros_fl 1) (nan_fl 2) (zeros_fl 2) (Some (zero_mask 2)) None)
    as [[out p]|] eqn:E; [|discriminate E].
  assert (D : dim0 p = 1%nat /\ dim1 p = 1%nat /\ dim2 p = 2%nat).
  { cbv [attention matmul3 masked_fill bind transpose_last map3 bcast zeros_fl
           nan_fl zero_mask dim0 dim1 dim2 Nat.eqb] in E.
    inversion E. cbn. auto. }
  destruct D as [D0 [D1 D2]]. rewrite <- D2.
  apply (@attention_masked_row_uniform (zeros_fl 1) (nan_fl 2) (zeros_fl 2)
           (zero_mask 2) out p 0 0 E); try lia.
  intros s _. reflexivity.
Defined.

Lemma matmul3_Some (a m r : t3 fl) :
  matmul3 a m = Some r ->
  exists b,
    bcast (dim0 a) (dim0 m) = Some b
    /\ dim2 a = dim1 m
    /\ r = mk3 b (dim1 a) (dim2 m)
             (fun i t d =>
                fsum (dim1 m)
                     (fun s => fmul (at3 a (bidx (dim0 a) i) t s)
                                    (at3 m (bidx (dim0 m) i) s d))).
Proof.
  unfold matmul3. intros H.
  apply bind_Some in H. destruct H as [b [Hb H]].
  destruct (Nat.eqb_spec (dim2 a) (dim1 m)) as [E|E]; [|discriminate].
  exists b. split; [exact Hb|]. split; [exact E|]. now inversion H.
Qed.

Lemma scores_numeric (query key qk : t3 fl) (i t s : nat) :
  matmul3 query (transpose_last key) = Some qk ->
  (0 < dim2 query)%nat ->
  (forall i j d, (i < dim0 query)%nat -> (j < dim1 query)%nat ->
     (d < dim2 query)%nat -> exists x, at3 query i j d = Num x) ->
  (forall i j d, (i < dim0 key)%nat -> (j < dim1 key)%nat ->
     (d < dim2 key)%nat -> exists x, at3 key i j d = Num x) ->
  (i < dim0 qk)%nat -> (t < dim1 qk)%nat -> (s < dim2 qk)%nat ->
  exists x, scaled (dim2 query) (at3 qk i t s) = Num x.
Proof.
  intros H Hd Hq Hk Hi Ht Hs.
  apply matmul3_Some in H. destruct H as [b [Hb [Hin ->]]].
  cbn [transpose_last dim0 dim1 dim2 at3] in *.
  unfold scaled. destruct (Nat.eqb_spec (dim2 query) 0) as [E|_]; [lia|].
  destruct (@fsum_is_num (dim2 key)
              (fun d => fmul (at3 query (bidx (dim0 query) i) t d)
                             (at3 key (bidx (dim0 key) i) s d))) as [r Er].
  { intros d Hdk.
    destruct (Hq (bidx (dim0 query) i) t d) as [x Ex];
      [exact (bcast_bidx_l _ _ Hb Hi)|exact Ht|lia|].
    destruct (Hk (bidx (dim0 key) i) s d) as [y Ey];
      [exact (bcast_bidx_r _ _ Hb Hi)|exact Hs|exact Hdk|].
    rewrite Ex, Ey. now eexists. }
  rewrite Er. now eexists.
Qed.

(** X24.  With a non-empty feature dimension and numeric queries and
    keys, every row of the returned attention weights is a probability
    distribution over the keys, with or without a mask and also when the
    mask hides every key. *)
Theorem attention_rows_are_distributions (query key value : t3 fl)
    (mask : option (t3 Z)) (out p : t3 fl) (b t : nat) :
  attention query key value mask None = Some (out, p) ->
  (0 < dim2 query)%nat ->
  (forall i j d, (i < dim0 query)%nat -> (j < dim1 query)%nat ->
     (d < dim2 query)%nat -> exists x, at3 query i j d = Num x) ->
  (forall i j d, (i < dim0 key)%nat -> (j < dim1 key)%nat ->
     (d < dim2 key)%nat -> exists x, at3 key i j d = Num x) ->
  (b < dim0 p)%nat -> (t < dim1 p)%nat -> (0 < dim2 p)%nat ->
  exists ws : nat -> R,
    (forall s, (s < dim2 p)%nat -> at3 p b t s = Num (ws s) /\ 0 <= ws s)
    /\ rsum (dim2 p) ws = 1.
Proof.
  intros H Hd Hq Hk Hb Ht Hpos.
  apply attention_weights in H. destruct H as [qk [sc [Hqk [Hsc ->]]]].
  cbn [softmax unmasked dim0 dim1 dim2 at3] in *.
  assert (Hnum : forall s, (s < dim2 sc)%nat -> exists x, at3 sc b t s = Num x).
  { intros s Hs. destruct mask as [m|].
    - apply masked_fill_Some in Hsc.
      destruct Hsc as [b' [t' [s' [Eb [Et [Es ->]]]]]].
      cbn [dim0 dim1 dim2 at3 map3] in *.
      destruct (_ =? 0)%Z; [now eexists|].
      apply (@scores_numeric query key qk _ _ _ Hqk Hd Hq Hk).
      + exact (bcast_bidx_l _ _ Eb Hb).
      + exact (bcast_bidx_l _ _ Et Ht).
      + exact (bcast_bidx_l _ _ Es Hs).
    - inversion Hsc; subst sc. cbn [dim0 dim1 dim2 at3 map3] in *.
      now apply (@scores_numeric query key qk _ _ _ Hqk Hd Hq Hk). }
  set (row := fun s => XVal (at3 sc b t s)).
  destruct (Hnum 0%nat Hpos) as [x0 E0].
  assert (Hv : row 0%nat = XVal (Num x0)) by (unfold row; now rewrite E0).
  assert (Hnan : forall k, (k < dim2 sc)%nat -> row k <> XVal NaN).
  { intros k Hk'. unfold row. destruct (Hnum k Hk') as [x ->]. discriminate. }
  set (D := rsum (dim2 sc) (fun k => xexp (row k))).
  assert (HD : 0 < D)
    by exact (proj2 (@softmax_row_value (dim2 sc) row 0%nat 0%nat x0 Hpos Hv Hnan)).
  exists (fun s => xexp (row s) / D). split.
  - intros s _. split.
    + exact (proj1 (@softmax_row_value (dim2 sc) row s 0%nat x0 Hpos Hv Hnan)).
    + apply Rmult_le_pos; [apply xexp_nonneg|].
      left. now apply Rinv_0_lt_compat.
  - rewrite rsum_div. fold D. unfold Rdiv. apply Rinv_r. lra.
Qed.

Lemma attention_rows_are_distributions_witness :
  match attention (zeros_fl 1) (zeros_fl 2) (zeros_fl 2) (Some (zero_mask 2)) None with
  | Some (_, p) =>
      exists ws : nat -> R,
        (forall s, (s < dim2 p)%nat -> at3 p 0 0 s = Num (ws s) /\ 0 <= ws s)
        /\ rsum (dim2 p) ws = 1
  | None => False
  end.
Proof.
  destruct (attention (zeros_fl 1) (zeros_fl 2) (zeros_fl 2) (Some (zero_mask 2)) None)
    as [[out p]|] eqn:E; [|discriminate E].
  assert (D : dim0 p = 1%nat /\ dim1 p = 1%nat /\ dim2 p = 2%nat).
  { cbv [attention matmul3 masked_fill bind transpose_last map3 bcast zeros_fl
           zero_mask dim0 dim1 dim2 Nat.eqb] in E.
    inversion E. cbn. auto. }
  destruct D as [D0 [D1 D2]].
  apply (@attention_rows_are_distributions (zeros_fl 1) (zeros_fl 2) (zeros_fl 2)
           (Some (zero_mask 2)) out p 0 0 E); try lia.
  - cbn. lia.
  - intros i j d _ _ _. now eexists.
  - intros i j d _ _ _. now eexists.
Defined.

(** *** Layer normalisation *)

Lemma fsum_shift (n : nat) (row row' : nat -> fl) (c : R) :
  (forall d, (d < n)%nat -> row' d = fadd (row d) (Num c)) ->
  fsum n row' = fadd (fsum n row) (Num (INR n * c)).
Proof.
  induction n as [|n IH]; intros H.
  - cbn. f_equal. lra.
  - cbn [fsum]. rewrite IH by (intros d Hd; apply H; lia).
    rewrite (H n) by lia. rewrite S_INR.
    destruct (fsum n row) as [a|], (row n) as [x|]; cbn; try reflexivity.
    f_equal. lra.
Qed.

Lemma mean_last_shift (n : nat) (row row' : nat -> fl) (c : R) :
  (forall d, (d < n)%nat -> row' d = fadd (row d) (Num c)) ->
  mean_last n row' = fadd (mean_last n row) (Num c).
Proof.
  intros H. unfold mean_last.
  destruct (Nat.eqb_spec n 0) as [E|E]; [reflexivity|].
  rewrite (@fsum_shift n row row' c H).
  destruct (fsum n row) as [a|]; cbn; [|reflexivity].
  f_equal. assert (INR n <> 0) by (apply not_0_INR; exact E). now field.
Qed.

Lemma deviation_shift (x m : fl) (c : R) :
  fsub (fadd x (Num c)) (fadd m (Num c)) = fsub x m.
Proof.
  destruct x as [a|], m as [b|]; cbn; try reflexivity. f_equal. lra.
Qed.

Lemma std_last_shift (n : nat) (row row' : nat -> fl) (c : R) :
  (forall d, (d < n)%nat -> row' d = fadd (row d) (Num c)) ->
  std_last n row' = std_last n row.
Proof.
  intros H. unfold std_last.
  destruct (n <=? 1)%nat; [reflexivity|].
  rewrite (@mean_last_shift n row row' c H). do 2 f_equal.
  apply fsum_ext. intros d Hd.
  rewrite (H d Hd). now rewrite deviation_shift.
Qed.

Lemma LayerNorm_forward_Some (ln : LayerNorm) (x y : t3 fl) :
  LayerNorm_forward ln x = Some y ->
  exists d,
    bcast (features ln) (dim2 x) = Some d
    /\ y = mk3 (dim0 x) (dim1 x) d
             (fun b t k =>
                fadd (fdiv (fmul (a_2 ln (bidx (features ln) k))
                                 (fsub (at3 x b t (bidx (dim2 x) k))
                                       (mean_last (dim2 x) (at3 x b t))))
                           (fadd (std_last (dim2 x) (at3 x b t)) (Num (eps ln))))
                     (b_2 ln (bidx (features ln) k))).
Proof.
  unfold LayerNorm_forward. intros H.
  apply bind_Some in H. destruct H as [d [Hd H]].
  exists d. split; [exact Hd|]. now inversion H.
Qed.

(** X25.  Layer normalisation does not see a shift of a feature row:
    adding one constant to every feature of a row (a constant per row)
    leaves the output unchanged, for every choice of the parameters. *)
Theorem layer_norm_shift_invariant (ln : LayerNorm) (x x' y : t3 fl)
    (c : nat -> nat -> R) :
  dim0 x' = dim0 x -> dim1 x' = dim1 x -> dim2 x' = dim2 x ->
  (forall b t d, (b < dim0 x)%nat -> (t < dim1 x)%nat -> (d < dim2 x)%nat ->
     at3 x' b t d = fadd (at3 x b t d) (Num (c b t))) ->
  LayerNorm_forward ln x = Some y ->
  exists y',
    LayerNorm_forward ln x' = Some y'
    /\ (dim0 y' = dim0 y /\ dim1 y' = dim1 y /\ dim2 y' = dim2 y)
    /\ forall b t k, (b < dim0 y)%nat -> (t < dim1 y)%nat -> (k < dim2 y)%nat ->
         at3 y' b t k = at3 y b t k.
Proof.
  intros E0 E1 E2 Hx H.
  apply LayerNorm_forward_Some in H. destruct H as [d [Hd ->]].
  unfold LayerNorm_forward. rewrite E0, E1, E2, Hd. cbn [bind].
  eexists. split; [reflexivity|]. cbn [dim0 dim1 dim2 at3].
  split; [auto|]. intros b t k Hb Ht Hk.
  assert (Hrow : forall j, (j < dim2 x)%nat ->
                   at3 x' b t j = fadd (at3 x b t j) (Num (c b t)))
    by (intros j Hj; now apply Hx).
  rewrite (@std_last_shift (dim2 x) (at3 x b t) (at3 x' b t) (c b t) Hrow),
    (@mean_last_shift (dim2 x) (at3 x b t) (at3 x' b t) (c b t) Hrow).
  rewrite (Hrow (bidx (dim2 x) k) (@bcast_bidx_r (features ln) (dim2 x) d k Hd Hk)).
  now rewrite deviation_shift.
Qed.

Lemma layer_norm_shift_invariant_witness :
  match LayerNorm_forward (LayerNorm_new 2 (1 / 1000000)) row_1_3,
        LayerNorm_forward (LayerNorm_new 2 (1 / 1000000)) row_2_4 with
  | Some y, Some y' => at3 y' 0 0 1 = at3 y 0 0 1
  | _, _ => False
  end.
Proof.
  destruct (LayerNorm_forward (LayerNorm_new 2 (1 / 1000000)) row_1_3)
    as [y|] eqn:E; [|discriminate E].
  destruct (@layer_norm_shift_invariant (LayerNorm_new 2 (1 / 1000000))
              row_1_3 row_2_4 y (fun _ _ => 1) eq_refl eq_refl eq_refl)
    as [y' [E' [_ H]]].
  - intros b t [|[|d]] _ _ _; cbn; f_equal; lra.
  - exact E.
  - rewrite E'.
    assert (D : dim0 y = 1%nat /\ dim1 y = 1%nat /\ dim2 y = 2%nat).
    { cbv [LayerNorm_forward LayerNorm_new bcast bind features row_1_3
             dim0 dim1 dim2 Nat.eqb] in E.
      inversion E. cbn. auto. }
    apply H; lia.
Defined.



(** X27.  A row with a single feature has no unbiased standard
    deviation: whatever the parameters hold, every output of layer
    normalisation on an input of width 1 is NaN. *)
Theorem layer_norm_single_feature_nan (ln : LayerNorm) (x y : t3 fl) :
  dim2 x = 1%nat ->
  LayerNorm_forward ln x = Some y ->
  (dim0 y = dim0 x /\ dim1 y = dim1 x /\ dim2 y = features ln)
  /\ forall b t k, at3 y b t k = NaN.
Proof.
  intros E1 H.
  apply LayerNorm_forward_Some in H. destruct H as [d [Hd ->]].
  rewrite E1 in *. rewrite bcast_1_r in Hd. inversion Hd; subst d.
  cbn [dim0 dim1 dim2 at3]. split; [auto|].
  intros b t k. unfold std_last. cbn [Nat.leb].
  destruct (fmul _ _); reflexivity.
Qed.

Lemma layer_norm_single_feature_nan_witness :
  match LayerNorm_forward (LayerNorm_new 3 (1 / 1000000)) (zeros_fl 2) with
  | Some y => dim2 y = 3%nat /\ at3 y 0 1 2 = NaN
  | None => False
  end.
Proof.
  destruct (LayerNorm_forward (LayerNorm_new 3 (1 / 1000000)) (zeros_fl 2))
    as [y|] eqn:E; [|discriminate E].
  destruct (@layer_norm_single_feature_nan (LayerNorm_new 3 (1 / 1000000))
              (zeros_fl 2) y eq_refl E) as [[_ [_ D]] H].
  split; [exact D|apply H].
Defined.

(** *** Positional encoding *)

Lemma cols_step (d : nat) :
  even_cols (S d) = even_cols d ++ (if Nat.even d then [d] else [])
  /\ odd_cols (S d) = odd_cols d ++ (if Nat.odd d then [d] else []).
Proof.
  unfold even_cols, odd_cols. rewrite seq_S, !filter_app. cbn [filter Nat.add].
  split; reflexivity.
Qed.

Lemma cols_count (d : nat) :
  length (even_cols d)
  = (length (odd_cols d) + (if Nat.odd d then 1 else 0))%nat
  /\ (length (even_cols d) + length (odd_cols d) = d)%nat.
Proof.
  induction d as [|d [IH1 IH2]]; [split; reflexivity|].
  destruct (cols_step d) as [-> ->]. rewrite !length_app.
  rewrite Nat.odd_succ. rewrite <- (Nat.negb_odd d) in *.
  destruct (Nat.odd d); cbn [negb length] in *; lia.
Qed.

(** X28.  The positional encoding cannot be built for a model width of
    0 (the division by [d_model] raises) nor for an odd width of 3 or
    more (the cosine columns are one fewer than the frequencies); every
    other width, 1 included, is accepted. *)
Theorem positional_encoding_odd_width (d_model max_len : nat)
    (dropout : t3 fl -> t3 fl) :
  PositionalEncoding_new d_model dropout max_len = None
  <-> d_model = 0%nat \/ (Nat.odd d_model = true /\ (3 <= d_model)%nat).
Proof.
  unfold PositionalEncoding_new, broadcastable.
  destruct (cols_count d_model) as [H1 H2].
  destruct (Nat.eqb_spec d_model 0) as [E0|E0]; [tauto|].
  rewrite Nat.eqb_refl, orb_true_r, andb_true_l.
  destruct (Nat.odd d_model) eqn:Eo.
  - destruct (Nat.eqb_spec (length (even_cols d_model)) 1) as [E1|E1];
      cbn [orb].
    + split; [discriminate|]. intros [?|[_ ?]]; lia.
    + destruct (Nat.eqb_spec (length (even_cols d_model))
                  (length (odd_cols d_model))) as [E|E]; [lia|].
      split; [intros _; right; split; [reflexivity|lia]|reflexivity].
  - destruct (Nat.eqb_spec (length (even_cols d_model))
                (length (odd_cols d_model))) as [E|E]; [|lia].
    rewrite orb_true_r. split; [discriminate|].
    intros [?|[? _]]; [lia|discriminate].
Qed.

Lemma PositionalEncoding_new_Some (d_model max_len : nat)
    (dropout : t3 fl -> t3 fl) (p : PositionalEncoding) :
  PositionalEncoding_new d_model dropout max_len = Some p ->
  pe_dropout p = dropout
  /\ dim0 (pe p) = 1%nat /\ dim1 (pe p) = max_len /\ dim2 (pe p) = d_model
  /\ forall i pos c, exists v, at3 (pe p) i pos c = Num v /\ -1 <= v <= 1.
Proof.
  unfold PositionalEncoding_new. intros H.
  destruct (d_model =? 0)%nat; [discriminate|].
  destruct (_ && _); [|discriminate].
  inversion H; subst p. cbn [pe pe_dropout dim0 dim1 dim2 at3].
  repeat (split; [reflexivity|]).
  intros i pos c. destruct (Nat.even c); eexists; (split; [reflexivity|]).
  - apply SIN_bound.
  - apply COS_bound.
Qed.

(** X29.  In evaluation mode, on a sequence no longer than the table
    and of the model's width, the positional encoding keeps the shape
    and moves every numeric component by at most 1. *)
Theorem positional_encoding_bounded (d_model max_len : nat)
    (p : PositionalEncoding) (x : t3 fl) :
  PositionalEncoding_new d_model eval_dropout max_len = Some p ->
  (dim1 x <= max_len)%nat -> dim2 x = d_model ->
  exists y,
    PositionalEncoding_forward p x = Some y
    /\ (dim0 y = dim0 x /\ dim1 y = dim1 x /\ dim2 y = dim2 x)
    /\ forall b t k r,
         (b < dim0 x)%nat -> (t < dim1 x)%nat -> (k < dim2 x)%nat ->
         at3 x b t k = Num r ->
         exists r', at3 y b t k = Num r' /\ Rabs (r' - r) <= 1.
Proof.
  intros Hp Hl Hd. subst d_model.
  apply PositionalEncoding_new_Some in Hp.
  destruct Hp as [Edrop [E0 [E1 [E2 Hpe]]]].
  unfold PositionalEncoding_forward.
  rewrite Edrop, E0, E1, E2, (Nat.min_l _ _ Hl).
  rewrite bcast_1_r, !bcast_same. cbn [bind]. unfold eval_dropout.
  eexists. split; [reflexivity|]. cbn [dim0 dim1 dim2 at3].
  split; [auto|]. intros b t k r Hb Ht Hk Er.
  rewrite (@bidx_id (dim0 x) b Hb), (@bidx_id (dim1 x) t Ht).
  rewrite (@bidx_id (dim2 x) k Hk), Er.
  destruct (Hpe (bidx 1 b) t k) as [v [-> Hv]].
  exists (r + v). split; [reflexivity|].
  replace (r + v - r) with v by lra. apply Rabs_le. exact Hv.
Qed.

Lemma positional_encoding_bounded_witness :
  match PositionalEncoding_new 2 eval_dropout 5 with
  | Some p =>
      exists y r',
        PositionalEncoding_forward p row_1_3 = Some y
        /\ at3 y 0 0 1 = Num r' /\ Rabs (r' - 3) <= 1
  | None => False
  end.
Proof.
  destruct (PositionalEncoding_new 2 eval_dropout 5) as [p|] eqn:E;
    [|discriminate E].
  destruct (@positional_encoding_bounded 2 5 p row_1_3 E) as [y [Ey [_ H]]].
  - cbn. lia.
  - reflexivity.
  - destruct (H 0%nat 0%nat 1%nat 3) as [r' Hr']; try (cbn; lia).
    + reflexivity.
    + exists y, r'. split; [exact Ey|exact Hr'].
Defined.

(** X30.  With the model's width, the positional encoding raises
    exactly on a sequence that is longer than the table, unless the
    table or the sequence has length 1: a table of one position is
    silently repeated over a longer sequence. *)
Theorem positional_encoding_too_long (d_model max_len : nat)
    (dropout : t3 fl -> t3 fl) (p : PositionalEncoding) (x : t3 fl) :
  PositionalEncoding_new d_model dropout max_len = Some p ->
  dim2 x = d_model ->
  (PositionalEncoding_forward p x = None
   <-> (max_len < dim1 x)%nat /\ max_len <> 1%nat /\ dim1 x <> 1%nat).
Proof.
  intros Hp Hd.
  apply PositionalEncoding_new_Some in Hp.
  destruct Hp as [_ [E0 [E1 [E2 _]]]].
  unfold PositionalEncoding_forward.
  rewrite E0, E1, E2, Hd, bcast_1_r, bcast_same. cbn [bind].
  unfold bcast.
  destruct (Nat.eqb_spec (dim1 x) (Nat.min (dim1 x) max_len)) as [E|E];
    cbn [bind]; [split; [discriminate|lia]|].
  destruct (Nat.eqb_spec (dim1 x) 1) as [F|F];
    cbn [bind]; [split; [discriminate|lia]|].
  destruct (Nat.eqb_spec (Nat.min (dim1 x) max_len) 1) as [G|G];
    cbn [bind]; [split; [discriminate|lia]|].
  split; [lia|reflexivity].
Qed.

Lemma positional_encoding_too_long_witness :
  match PositionalEncoding_new 2 eval_dropout 2 with
  | Some p => PositionalEncoding_forward p (mk3 1 3 2 (fun _ _ _ => Num 0)) = None
  | None => False
  end.
Proof.
  destruct (PositionalEncoding_new 2 eval_dropout 2) as [p|] eqn:E;
    [|discriminate E].
  apply (@positional_encoding_too_long 2 2 eval_dropout p
           (mk3 1 3 2 (fun _ _ _ => Num 0)) E eq_refl).
  cbn. lia.
Defined.

End BlocksExtra.
